(** * Video localizer: a shallow embedding of the localization pipeline

    The development follows the server source (the V2 localizer section):
    the scene splitter of [/api/localizer/smart-analyze], the segment
    builder of [/api/localizer/analyze], the job coordinator
    [generateAllCountries] with the [generate], [cancel] and [delete]
    handlers; further the subtitle times ([formatAssTime], read back by
    [parseAssTime] of the voice-over module), the text segments of the
    first localizer ([processLocalizationJob]) and the scene descriptors
    of [/api/localizer/analyze].

    Conventions of the embedding.
    - The frame timestamps [(frameNum - 1) * 0.5] and what the builders
      compute from them are dyadic numbers far below 2^53: the doubles of
      the engine compute them exactly, and they are given as exact
      rationals ([Q]).
    - The scene splitter reads arbitrary decimal times from a trace.  It
      is given twice: in [Scene] over exact rationals, for the worked
      scenario, and in [Scene64] over IEEE 754 doubles ([F64]), as the
      engine computes it, with [NaN], the infinities and the rounding of
      every operation.
    - JavaScript strings that go through Unicode-aware operations are
      sequences of code points ([list N]); that stands for well-formed
      strings.  [Utf16] has the code units and the patterns on strings
      with lone surrogates.
    - Object keys (job ids, language codes) are [string]s. *)

From Stdlib Require Import ZArith NArith QArith Qround List Bool Lia Lqa Sorted.
From Stdlib Require SpecFloat.
From stdpp Require Import base gmap strings list.

Set Warnings "-register-all,-notation-for-abbreviation".

(** ** Small helpers shared by the components *)

(** [Array.prototype.findIndex], with [None] for [-1]. *)
Fixpoint findIndex {A : Type} (p : A -> bool) (l : list A) : option nat :=
  match l with
  | [] => None
  | x :: rest => if p x then Some 0%nat else S <$> findIndex p rest
  end.

(** [Math.round]: the nearest integer, halves rounded towards plus infinity. *)
Definition Math_round (x : Q) : Z := Qfloor (x + 0.5)%Q.

(** [a || b] on a number that may be [undefined]: [0] and [undefined] are falsy. *)
Definition num_or (a : option Q) (b : Q) : Q :=
  match a with
  | Some v => if Qeq_bool v 0 then b else v
  | None => b
  end.

(** [a || b] on a string that may be [undefined]: [""] is falsy. *)
Definition str_or (a : option string) (b : string) : string :=
  match a with
  | Some s => if String.eqb s "" then b else s
  | None => b
  end.

(** ** Scene splitter ([/api/localizer/smart-analyze]) *)

Module Scene.
Local Open Scope Q_scope.

(** [{ start, end, texts: [] }]; [texts] is always the empty array here. *)
Record segment := mkSegment { start : Q; end_ : Q }.

Definition dur (s : segment) : Q := end_ s - start s.

Definition MIN_DURATION : Q := 1.0.

(** The [while ((match = regex.exec(output)) !== null)] loop over the
    [pts_time] values of the trace, in order of appearance. *)
Fixpoint collect (rawSceneTimes : list Q) (times : list Q) : list Q :=
  match times with
  | [] => rawSceneTimes
  | time :: rest =>
      if Qle_bool 0.3 (time - List.last rawSceneTimes 0)
      then collect (rawSceneTimes ++ [time]) rest
      else collect rawSceneTimes rest
  end.

Definition rawSceneTimes (times : list Q) : list Q := collect [0] times.

(** [for (i ...) segments.push({ start: raw[i], end: raw[i + 1] || totalSeconds })]. *)
Fixpoint rawSegments (raw : list Q) (totalSeconds : Q) : list segment :=
  match raw with
  | [] => []
  | s :: rest =>
      mkSegment s (num_or (head rest) totalSeconds) :: rawSegments rest totalSeconds
  end.

(** The test of the inner [for]: [dur < MIN_DURATION] (the conjunct
    [segments.length > 1] does not depend on [i] and is tested in [mergeStep]). *)
Definition tooShort (s : segment) : bool :=
  negb (Qle_bool MIN_DURATION (dur s)).

Definition set_start (v : Q) (s : segment) : segment := mkSegment v (end_ s).
Definition set_end (v : Q) (s : segment) : segment := mkSegment (start s) v.

(** The body of the [if] at index [i]: merge forward, or backward for the
    last segment, then [splice(i, 1)]. *)
Definition mergeAt (i : nat) (segments : list segment) : list segment :=
  match segments !! i with
  | None => segments
  | Some si =>
      if (i <? length segments - 1)%nat
      then delete i (alter (set_start (start si)) (i + 1)%nat segments)
      else delete i (alter (set_end (end_ si)) (i - 1)%nat segments)
  end.

(** One run of the inner [for] loop: [None] when it ends with
    [merged = false], [Some segments'] when it merged and hit [break]. *)
Definition mergeStep (segments : list segment) : option (list segment) :=
  if (1 <? length segments)%nat
  then (fun i => mergeAt i segments) <$> findIndex tooShort segments
  else None.

(** [while (merged)]: every merge removes one element, so [length segments]
    rounds are enough (see [mergeLoop_fixpoint]). *)
Fixpoint mergeLoop (fuel : nat) (segments : list segment) : list segment :=
  match fuel with
  | O => segments
  | S fuel' =>
      match mergeStep segments with
      | Some segments' => mergeLoop fuel' segments'
      | None => segments
      end
  end.

Definition mergeShort (segments : list segment) : list segment :=
  mergeLoop (length segments) segments.

(** [Math.round(x * 10) / 10]. *)
Definition round1 (x : Q) : Q := inject_Z (Math_round (x * 10)) / 10.

Definition roundSegment (s : segment) : segment :=
  mkSegment (round1 (start s)) (round1 (end_ s)).

(** The handler from the parsed cut times to the [segments] of the response. *)
Definition smartAnalyze (times : list Q) (totalSeconds : Q) : list segment :=
  map roundSegment (mergeShort (rawSegments (rawSceneTimes times) totalSeconds)).

(** Equality of segment lists up to the value of the rationals. *)
Definition seg_eq (a b : segment) : Prop :=
  start a == start b /\ end_ a == end_ b.

Definition segs_eq (l1 l2 : list segment) : Prop := Forall2 seg_eq l1 l2.

End Scene.

(** ** The numbers of the engine: IEEE 754 binary64

    Every operation gives the double nearest to the exact result, ties to
    the even mantissa; a comparison with [NaN] is false. *)

Module F64.
Import SpecFloat.

Definition prec : Z := 53.
Definition emax : Z := 1024.

Definition float : Type := spec_float.

Definition NaN : float := S754_nan.
Definition zero : float := S754_zero false.

Definition add (x y : float) : float := SFadd prec emax x y.
Definition sub (x y : float) : float := SFsub prec emax x y.
Definition mul (x y : float) : float := SFmul prec emax x y.
Definition div (x y : float) : float := SFdiv prec emax x y.

(** [x < y] and [x >= y] *)
Definition ltb (x y : float) : bool := SFltb x y.
Definition geb (x y : float) : bool := SFleb y x.

(** The double of a whole number. *)
Definition ofZ (n : Z) : float := binary_normalize prec emax n 0 false.

(** The double a decimal numeral stands for, [n / 10^k] rounded once: what
    [parseFloat] returns and what a literal of the source denotes.  The
    quotient of two doubles is rounded once, and [n] and [10^k] are
    doubles when [n < 2^53] and [k <= 22]. *)
Definition dec (n : Z) (k : nat) : float := div (ofZ n) (ofZ (10 ^ Z.of_nat k)).

(** The value [ToBoolean] gives: [0], [-0] and [NaN] are falsy. *)
Definition truthy (x : float) : bool :=
  match x with
  | S754_zero _ | S754_nan => false
  | _ => true
  end.

(** [a || b] on a number that may be [undefined]. *)
Definition or_ (a : option float) (b : float) : float :=
  match a with
  | Some v => if truthy v then v else b
  | None => b
  end.

(** [Math.round]: [floor(x + 0.5)] of the exact sum, with the sign of [x]
    when the result is zero; whole numbers, [NaN] and the infinities are
    returned as they are. *)
Definition Math_round (x : float) : float :=
  match x with
  | S754_finite s m e =>
      if (0 <=? e)%Z then x
      else
        let signed := if s then Z.neg m else Z.pos m in
        binary_normalize prec emax ((signed + 2 ^ (- e - 1)) / 2 ^ (- e))%Z 0 s
  | _ => x
  end.

(** [Math.floor]; the floor of a number between 0 and 1 is [+0]. *)
Definition Math_floor (x : float) : float :=
  match x with
  | S754_finite s m e =>
      if (0 <=? e)%Z then x
      else binary_normalize prec emax ((if s then Z.neg m else Z.pos m) / 2 ^ (- e))%Z 0 s
  | _ => x
  end.

(** [x % y]: what is left of [x] when the multiples of [y] are taken from
    it, with the sign of [x]; it is exact. *)
Definition rem (x y : float) : float :=
  match x, y with
  | S754_nan, _ | _, S754_nan => S754_nan
  | S754_infinity _, _ => S754_nan
  | _, S754_zero _ => S754_nan
  | _, S754_infinity _ => x
  | S754_zero _, _ => x
  | S754_finite sx mx ex, S754_finite _ my ey =>
      let e := Z.min ex ey in
      let r := Z.rem (Z.pos mx * 2 ^ (ex - e)) (Z.pos my * 2 ^ (ey - e)) in
      binary_normalize prec emax (if sx then - r else r)%Z e sx
  end.

(** The whole number a double is, when it is one below 2^53 in absolute
    value: the doubles that [toString] writes digit by digit.  (From 2^53
    on [toString] writes the shortest digits that read back as the double,
    and from 10^21 on the exponent notation; those, the fractions, [NaN]
    and the infinities have no value here.) *)
Definition toInt (x : float) : option Z :=
  match x with
  | S754_zero _ => Some 0%Z
  | S754_finite s m e =>
      let signed := if s then Z.neg m else Z.pos m in
      if (e =? 0)%Z then Some signed
      else if (e <? 0)%Z
           then (if (Z.pos m mod 2 ^ (- e) =? 0)%Z then Some (signed / 2 ^ (- e))%Z else None)
           else None
  | _ => None
  end.

(** The same double: the same sign, mantissa and exponent. *)
Definition same (x y : float) : bool :=
  match x, y with
  | S754_zero a, S754_zero b | S754_infinity a, S754_infinity b => Bool.eqb a b
  | S754_nan, S754_nan => true
  | S754_finite a m e, S754_finite b n f => Bool.eqb a b && (m =? n)%positive && (e =? f)%Z
  | _, _ => false
  end.

(** The exact value of a finite double. *)
Definition toQ (x : float) : option Q :=
  match x with
  | S754_zero _ => Some 0%Q
  | S754_finite s m e =>
      let signed := if s then Z.neg m else Z.pos m in
      Some (if (0 <=? e)%Z then inject_Z (signed * 2 ^ e)
            else Qmake signed (Z.to_pos (2 ^ (- e))))
  | _ => None
  end.

End F64.

(** ** Scene splitter ([/api/localizer/smart-analyze]) in doubles *)

Module Scene64.

(** [{ start, end, texts: [] }]; [texts] is always the empty array here. *)
Record segment := mkSegment { start : F64.float; end_ : F64.float }.

(** [segments[i].end - segments[i].start] *)
Definition dur (s : segment) : F64.float := F64.sub (end_ s) (start s).

Definition MIN_DURATION : F64.float := F64.ofZ 1.

(** The [while ((match = regex.exec(output)) !== null)] loop over the
    values [parseFloat(match[1])] of the trace, in order of appearance. *)
Fixpoint collect (rawSceneTimes : list F64.float) (times : list F64.float)
    : list F64.float :=
  match times with
  | [] => rawSceneTimes
  | time :: rest =>
      if F64.geb (F64.sub time (List.last rawSceneTimes F64.NaN)) (F64.dec 3 1)
      then collect (rawSceneTimes ++ [time]) rest
      else collect rawSceneTimes rest
  end.

Definition rawSceneTimes (times : list F64.float) : list F64.float :=
  collect [F64.zero] times.

(** [for (i ...) segments.push({ start: raw[i], end: raw[i + 1] || totalSeconds })]. *)
Fixpoint rawSegments (raw : list F64.float) (totalSeconds : F64.float) : list segment :=
  match raw with
  | [] => []
  | s :: rest =>
      mkSegment s (F64.or_ (head rest) totalSeconds) :: rawSegments rest totalSeconds
  end.

(** The test of the inner [for]: [dur < MIN_DURATION] (the conjunct
    [segments.length > 1] does not depend on [i] and is tested in [mergeStep]). *)
Definition tooShort (s : segment) : bool := F64.ltb (dur s) MIN_DURATION.

Definition set_start (v : F64.float) (s : segment) : segment := mkSegment v (end_ s).
Definition set_end (v : F64.float) (s : segment) : segment := mkSegment (start s) v.

(** The body of the [if] at index [i]: merge forward, or backward for the
    last segment, then [splice(i, 1)]. *)
Definition mergeAt (i : nat) (segments : list segment) : list segment :=
  match segments !! i with
  | None => segments
  | Some si =>
      if (i <? length segments - 1)%nat
      then delete i (alter (set_start (start si)) (i + 1)%nat segments)
      else delete i (alter (set_end (end_ si)) (i - 1)%nat segments)
  end.

(** One run of the inner [for] loop: [None] when it ends with
    [merged = false], [Some segments'] when it merged and hit [break]. *)
Definition mergeStep (segments : list segment) : option (list segment) :=
  if (1 <? length segments)%nat
  then (fun i => mergeAt i segments) <$> findIndex tooShort segments
  else None.

(** [while (merged)]: every merge removes one element, so [length segments]
    rounds are enough. *)
Fixpoint mergeLoop (fuel : nat) (segments : list segment) : list segment :=
  match fuel with
  | O => segments
  | S fuel' =>
      match mergeStep segments with
      | Some segments' => mergeLoop fuel' segments'
      | None => segments
      end
  end.

Definition mergeShort (segments : list segment) : list segment :=
  mergeLoop (length segments) segments.

(** [Math.round(x * 10) / 10] *)
Definition round1 (x : F64.float) : F64.float :=
  F64.div (F64.Math_round (F64.mul x (F64.ofZ 10))) (F64.ofZ 10).

Definition roundSegment (s : segment) : segment :=
  mkSegment (round1 (start s)) (round1 (end_ s)).

(** The handler from the parsed cut times to the [segments] of the response. *)
Definition smartAnalyze (times : list F64.float) (totalSeconds : F64.float)
    : list segment :=
  map roundSegment (mergeShort (rawSegments (rawSceneTimes times) totalSeconds)).

End Scene64.

(** A double above zero, [+Infinity] included. *)
Definition positive64 (x : F64.float) : Prop :=
  match x with
  | SpecFloat.S754_finite false _ _ | SpecFloat.S754_infinity false => True
  | _ => False
  end.

(** A double that is not above zero: a zero, [NaN], or a negative one. *)
Definition notPositive64 (x : F64.float) : Prop :=
  match x with
  | SpecFloat.S754_finite false _ _ | SpecFloat.S754_infinity false => False
  | _ => True
  end.

(** The cut list as the loop keeps it: [0] first, then doubles above
    zero. *)
Definition cuts64 (raw : list F64.float) : Prop :=
  exists rest, raw = F64.zero :: rest /\ Forall positive64 rest.

(** Consecutive cuts are [0.3] apart by the test of the loop. *)
Definition spaced64 (cuts : list F64.float) : Prop :=
  forall i a b, cuts !! i = Some a -> cuts !! S i = Some b ->
                F64.geb (F64.sub b a) (F64.dec 3 1) = true.

(** The timeline covered by a list of scenes: where it begins and where it
    ends. *)
Definition covers64 (a b : F64.float) (segs : list Scene64.segment) : Prop :=
  exists first last,
    segs !! 0%nat = Some first /\ segs !! (length segs - 1)%nat = Some last /\
    Scene64.start first = a /\ Scene64.end_ last = b.

(** Scenes tile a timeline: each one begins where the one before it ends. *)
Definition contiguous64 (segs : list Scene64.segment) : Prop :=
  forall i a b, segs !! i = Some a -> segs !! S i = Some b ->
                Scene64.end_ a = Scene64.start b.

(** ** JavaScript strings and the Unicode tables *)

(** A string as its sequence of code points.  This is how the builder
    below has its strings; it stands for well-formed strings, those in
    which every surrogate has its partner.  The code units, and what the
    patterns do on a string that is not well-formed, are in [Utf16]. *)
Notation ustring := (list N) (only parsing).

(** A literal, written in ASCII. *)
Definition ustr (s : string) : ustring :=
  map Ascii.N_of_ascii (String.list_ascii_of_string s).

Definition ustring_eqb (a b : ustring) : bool := bool_decide (a = b).

(** [s.length]: the number of UTF-16 code units. *)
Definition js_length (s : ustring) : nat :=
  list_sum (map (fun c => if (0xFFFF <? c)%N then 2 else 1)%nat s).

Definition inRange (lo hi c : N) : bool := ((lo <=? c) && (c <=? hi))%N.

(** [WhiteSpace] and [LineTerminator] of the language: what [trim] removes
    and what [\s] matches. *)
Definition isWhiteSpace (c : N) : bool :=
  inRange 9 13 c || (c =? 0x20)%N || (c =? 0xA0)%N || (c =? 0x1680)%N ||
  inRange 0x2000 0x200A c || (c =? 0x2028)%N || (c =? 0x2029)%N ||
  (c =? 0x202F)%N || (c =? 0x205F)%N || (c =? 0x3000)%N || (c =? 0xFEFF)%N.

Fixpoint trimStart (s : ustring) : ustring :=
  match s with
  | c :: rest => if isWhiteSpace c then trimStart rest else s
  | [] => []
  end.

Definition trim (s : ustring) : ustring := rev (trimStart (rev (trimStart s))).

(** [s.replace(/[lo-hi]/gu, '')]. *)
Definition removeRange (lo hi : N) (s : ustring) : ustring :=
  filter (fun c => inRange lo hi c = false) s.

(** [s.replace(/\s+/g, ' ')]: every maximal run of white space becomes one
    space. [inRun] tells that the previous character was white space. *)
Fixpoint collapseFrom (inRun : bool) (s : ustring) : ustring :=
  match s with
  | [] => []
  | c :: rest =>
      if isWhiteSpace c
      then (if inRun then collapseFrom true rest else 0x20%N :: collapseFrom true rest)
      else c :: collapseFrom false rest
  end.

Definition collapseSpaces (s : ustring) : ustring := collapseFrom false s.

Definition isAsciiUpper (c : N) : bool := inRange 65 90 c.
Definition isAsciiLower (c : N) : bool := inRange 97 122 c.
Definition isAsciiDigit (c : N) : bool := inRange 48 57 c.
Definition asciiLower (c : N) : N := if isAsciiUpper c then (c + 32)%N else c.
Definition asciiUpper (c : N) : N := if isAsciiLower c then (c - 32)%N else c.
Definition isAscii (s : ustring) : Prop := Forall (fun c => (c < 128)%N) s.

(** The Unicode data the built-ins consult: the general categories behind
    [\p{L}] and [\p{N}] and the case mappings of [toLowerCase] and
    [toUpperCase].  The tables are not part of the repository; they are a
    parameter of the development, constrained only by what they do on
    ASCII. *)
Class Unicode := {
  isLetter : N -> bool;
  isNumber : N -> bool;
  toLowerCase : ustring -> ustring;
  toUpperCase : ustring -> ustring;
  isLetter_ascii : forall c, (c < 128)%N -> isLetter c = isAsciiUpper c || isAsciiLower c;
  isNumber_ascii : forall c, (c < 128)%N -> isNumber c = isAsciiDigit c;
  toLowerCase_ascii : forall s, isAscii s -> toLowerCase s = map asciiLower s;
  toUpperCase_ascii : forall s, isAscii s -> toUpperCase s = map asciiUpper s
}.

(** ** Regular expressions of the text filter

    Only what the three patterns of the filter use: character classes,
    sequence, alternative and repetition; matching is by derivatives and is
    anchored at both ends. *)

Module Regex.

Inductive regex :=
| Eps
| Chr (p : N -> bool)
| Cat (r1 r2 : regex)
| Alt (r1 r2 : regex)
| Star (r : regex).

Fixpoint nullable (r : regex) : bool :=
  match r with
  | Eps => true
  | Chr _ => false
  | Cat r1 r2 => nullable r1 && nullable r2
  | Alt r1 r2 => nullable r1 || nullable r2
  | Star _ => true
  end.

(** [None] is the regular expression that matches nothing. *)
Fixpoint deriv (c : N) (r : regex) : option regex :=
  match r with
  | Eps => None
  | Chr p => if p c then Some Eps else None
  | Cat r1 r2 =>
      let left := (fun d => Cat d r2) <$> deriv c r1 in
      if nullable r1
      then match left, deriv c r2 with
           | Some a, Some b => Some (Alt a b)
           | Some a, None => Some a
           | None, o => o
           end
      else left
  | Alt r1 r2 =>
      match deriv c r1, deriv c r2 with
      | Some a, Some b => Some (Alt a b)
      | Some a, None => Some a
      | None, o => o
      end
  | Star r1 => (fun d => Cat d (Star r1)) <$> deriv c r1
  end.

Fixpoint matches (r : regex) (s : ustring) : bool :=
  match s with
  | [] => nullable r
  | c :: rest => match deriv c r with Some d => matches d rest | None => false end
  end.

(** A letter of the pattern under the [i] flag (without [u], a non-ASCII
    character never matches an ASCII letter). *)
Definition ci (c : N) : regex := Chr (fun d => (asciiLower d =? asciiLower c)%N).

Fixpoint lit (s : ustring) : regex :=
  match s with
  | [] => Eps
  | c :: rest => Cat (ci c) (lit rest)
  end.

Definition word (s : string) : regex := lit (ustr s).
Definition ws : regex := Chr isWhiteSpace.            (* \s *)
Definition digit : regex := Chr isAsciiDigit.         (* \d *)
Definition az : regex := Chr (fun d => isAsciiLower (asciiLower d)). (* [a-z] with /i *)
Definition any : regex := Chr (fun _ => true).
Definition plus (r : regex) : regex := Cat r (Star r).
Definition opt (r : regex) : regex := Alt r Eps.

(** [/^noriks\s*\d*x*l$/i] *)
Definition brandThenSize : regex :=
  Cat (word "noriks") (Cat (Star ws) (Cat (Star digit) (Cat (Star (word "x")) (word "l")))).

(** [/^\d*x*l\s*noriks$/i] *)
Definition sizeThenBrand : regex :=
  Cat (Star digit) (Cat (Star (word "x")) (Cat (word "l") (Cat (Star ws) (word "noriks")))).

(** [/^[a-z]+\s+(simple\s+)?(shirts|done|better)/i]: no [$], so anything
    may follow. *)
Definition slogan : regex :=
  Cat (plus az) (Cat (plus ws)
    (Cat (opt (Cat (word "simple") (plus ws)))
      (Cat (Alt (word "shirts") (Alt (word "done") (word "better"))) (Star any)))).

End Regex.

(** ** Strings as the engine holds them: UTF-16 code units

    A [replace] with a [u]-flagged pattern reads the string code point by
    code point: a high surrogate followed by a low one is one code point, a
    surrogate without its partner is a code point of its own.  What is left
    is put together again as code units, so two lone surrogates that come
    to stand side by side are read as one character from then on. *)

Module Utf16.

Definition isHigh (u : N) : bool := inRange 0xD800 0xDBFF u.
Definition isLow (u : N) : bool := inRange 0xDC00 0xDFFF u.
Definition isSurrogate (c : N) : bool := inRange 0xD800 0xDFFF c.

(** The code points of a sequence of code units. *)
Fixpoint codePoints (s : list N) : list N :=
  match s with
  | [] => []
  | h :: rest =>
      match rest with
      | l :: rest' =>
          if isHigh h && isLow l
          then (0x10000 + (h - 0xD800) * 0x400 + (l - 0xDC00))%N :: codePoints rest'
          else h :: codePoints rest
      | [] => [h]
      end
  end.

(** The code units of one code point, and of a sequence of them. *)
Definition unitsOf (c : N) : list N :=
  if (0xFFFF <? c)%N
  then [0xD800 + (c - 0x10000) / 0x400; 0xDC00 + (c - 0x10000) mod 0x400]%N
  else [c].

Definition units (cps : list N) : list N := flat_map unitsOf cps.

(** [s.replace(/[...]/gu, '')] for a character class given by its test. *)
Definition replaceClass (inClass : N -> bool) (s : list N) : list N :=
  units (filter (fun c => inClass c = false) (codePoints s)).

(** [s.replace(/[\u{lo}-\u{hi}]/gu, '')] *)
Definition removeRange (lo hi : N) (s : list N) : list N :=
  replaceClass (inRange lo hi) s.

(** The six [replace] calls and the [trim] that produce [normalizedText],
    on the code units of [textContent]. *)
Definition normalizedText (textContent : list N) : list N :=
  trim (removeRange 0x1F0A0 0x1F0FF
       (removeRange 0x1F000 0x1F02F
       (removeRange 0xFE00 0xFE0F
       (removeRange 0x2700 0x27BF
       (removeRange 0x2600 0x26FF
       (removeRange 0x1F300 0x1F9FF textContent)))))).

Section WithUnicode.
Context {U : Unicode}.

(** The calls of [stripForCompare] before the final [toLowerCase]; the
    pattern of [replace(/\s+/g, ' ')] has no [u] flag and [trim] has no
    pattern: both read code units, and every white space character is one
    code unit. *)
Definition stripSymbols (str : list N) : list N :=
  trim (collapseSpaces
    (replaceClass (fun c => negb (isLetter c || isNumber c || isWhiteSpace c))
       (removeRange 0x1F300 0x1F9FF str))).

(** [stripForCompare]; [toLowerCase] maps code point by code point. *)
Definition stripForCompare (str : list N) : list N :=
  units (toLowerCase (codePoints (stripSymbols str))).

End WithUnicode.

(** A string: every code unit has 16 bits. *)
Definition isString (s : list N) : Prop := Forall (fun u => (u < 0x10000)%N) s.

(** A Unicode scalar value: a code point that is no surrogate. *)
Definition isScalar (c : N) : Prop := (c <= 0x10FFFF)%N /\ isSurrogate c = false.

(** A well-formed string: no surrogate stands without its partner. *)
Definition wellFormed (s : list N) : Prop :=
  isString s /\ Forall isScalar (codePoints s).

End Utf16.

(** The code units of a code point begin with white space only when the
    code point is white space, and then they are the code point itself;
    the same holds read from the end. *)
Definition spaceAware (g : N -> list N) (c : N) : Prop :=
  (isWhiteSpace c = true -> g c = [c]) /\
  (isWhiteSpace c = false -> exists u r, g c = u :: r /\ isWhiteSpace u = false).

(** The ASCII tables with one more letter, U+0130 (capital I with dot
    above): its lower case is [i] followed by U+0307 (combining dot above),
    which is a mark, neither letter nor number. *)
Definition dottedLower (c : N) : list N :=
  if (c =? 0x130)%N then [0x69; 0x307]%N else [asciiLower c].

Definition dottedLower_ascii (s : list N) :
  isAscii s -> flat_map dottedLower s = map asciiLower s.
Proof.
  induction 1 as [|c s Hc _ IH]; [reflexivity|].
  simpl. rewrite IH. unfold dottedLower.
  destruct (N.eqb_spec c 0x130) as [->|_]; [lia | reflexivity].
Qed.

Definition dottedLetter (c : N) : bool :=
  isAsciiUpper c || isAsciiLower c || (c =? 0x130)%N.

Definition dottedLetter_ascii (c : N) :
  (c < 128)%N -> dottedLetter c = isAsciiUpper c || isAsciiLower c.
Proof.
  intros H. unfold dottedLetter.
  destruct (N.eqb_spec c 0x130) as [->|_]; [lia | apply orb_false_r].
Qed.

Definition dottedTables : Unicode :=
  Build_Unicode dottedLetter isAsciiDigit (flat_map dottedLower) (map asciiUpper)
    dottedLetter_ascii (fun _ _ => eq_refl) dottedLower_ascii (fun _ _ => eq_refl).

(** ** Segment builder ([/api/localizer/analyze]) *)

Module Builder.
Section WithUnicode.
Context {U : Unicode}.
Local Open Scope Q_scope.

(** An entry of the [texts] array.  [closed] and [duration] are absent
    ([false], [None]) until the entry is closed. *)
Record textEntry := mkText {
  text : ustring;
  start : Q;
  end_ : Q;
  position : string;
  x : Q;
  y : Q;
  closed : bool;
  duration : option Q
}.

Definition set_end (v : Q) (t : textEntry) : textEntry :=
  mkText (text t) (start t) v (position t) (x t) (y t) (closed t) (duration t).
Definition set_start (v : Q) (t : textEntry) : textEntry :=
  mkText (text t) v (end_ t) (position t) (x t) (y t) (closed t) (duration t).
Definition set_xy (vx vy : Q) (t : textEntry) : textEntry :=
  mkText (text t) (start t) (end_ t) (position t) vx vy (closed t) (duration t).
(** [t.end = v; t.duration = t.end - t.start; t.closed = true] *)
Definition close_at (v : Q) (t : textEntry) : textEntry :=
  mkText (text t) (start t) v (position t) (x t) (y t) true (Some (v - start t)).
(** [t.end = v; t.duration = t.end - t.start] *)
Definition finish_at (v : Q) (t : textEntry) : textEntry :=
  mkText (text t) (start t) v (position t) (x t) (y t) (closed t) (Some (v - start t)).

(** An element of [parsed.texts].
    - [RNull]: [null];
    - [RString s]: a string (the old format); [RString []] also stands for
      the other falsy values [0] and [false], which the code treats alike;
    - [RObject text x y position]: an object; [text = None] when the
      property is absent or falsy, [x], [y] are [None] when [undefined] ([null] behaves as [0]);
    - [RBadText]: a value whose text content is truthy but not a string (a
      number, [true], an object with such a [text]): [.replace] throws. *)
Inductive rawText :=
| RNull
| RString (s : ustring)
| RObject (text : option ustring) (x y : option Q) (position : option string)
| RBadText.

(** What the vision model gave for a frame.  [Unparsed]: the request
    failed, the answer holds no [{...}], [JSON.parse] threw, or
    [parsed.texts] is a truthy non-array; the frame then changes nothing.
    [Parsed]: an object was parsed; an absent [texts] is the empty list. *)
Inductive frameResult :=
| Unparsed
| Parsed (texts : list rawText) (textPosition : option string).

Record frame := mkFrame { frameNum : Z; result : frameResult }.

Definition frameInterval : Q := 0.5.

(** [(frameNum - 1) * 0.5] *)
Definition timestamp (f : frame) : Q := inject_Z (frameNum f - 1) * 0.5.

(** The six [replace] calls and the [trim] that produce [normalizedText]. *)
Definition normalizedText (textContent : ustring) : ustring :=
  trim (removeRange 0x1F0A0 0x1F0FF
       (removeRange 0x1F000 0x1F02F
       (removeRange 0xFE00 0xFE0F
       (removeRange 0x2700 0x27BF
       (removeRange 0x2600 0x26FF
       (removeRange 0x1F300 0x1F9FF textContent)))))).

(** The code points those six [replace] calls remove. *)
Definition inStrippedRange (c : N) : bool :=
  inRange 0x1F300 0x1F9FF c || inRange 0x2600 0x26FF c || inRange 0x2700 0x27BF c ||
  inRange 0xFE00 0xFE0F c || inRange 0x1F000 0x1F02F c || inRange 0x1F0A0 0x1F0FF c.

(** [stripForCompare], and its copies [stripForCompare2] and
    [normalizeForMerge] (which add [str || ''], the identity on strings);
    [stripSymbols] is the chain of its calls before the final [toLowerCase]. *)
Definition stripSymbols (str : ustring) : ustring :=
  trim (collapseSpaces
    (filter (fun c => isLetter c || isNumber c || isWhiteSpace c = true)
       (removeRange 0x1F300 0x1F9FF str))).

Definition stripForCompare (str : ustring) : ustring := toLowerCase (stripSymbols str).

(** The predicate of [texts.find]. *)
Definition sameOpenText (normalized : ustring) (e : textEntry) : bool :=
  negb (closed e) &&
  (ustring_eqb (text e) normalized ||
   ustring_eqb (toLowerCase (text e)) (toLowerCase normalized) ||
   ustring_eqb (stripForCompare (text e)) (stripForCompare normalized)).

(** The part of the [forEach] callback after [normalizedText] is known to be
    non-empty.  [xs] is [t.x] when [t] is an object. *)
Definition addDetection (ts : Q) (normalized : ustring) (isObject : bool)
    (tx ty : option Q) (posLabel : string) (texts : list textEntry) : list textEntry :=
  let xPos := if isObject then num_or tx 50 else 50 in
  let yPos := if isObject then num_or ty 50 else 50 in
  let fresh := mkText normalized ts (ts + frameInterval) posLabel xPos yPos false None in
  match findIndex (sameOpenText normalized) texts with
  | Some k =>
      match texts !! k with
      | Some existingText =>
          let gap := ts - end_ existingText in
          if Qle_bool gap frameInterval
          then alter (fun e =>
                 let e' := set_end (ts + frameInterval) e in
                 if isObject && bool_decide (is_Some tx) then set_xy xPos yPos e' else e')
                 k texts
          else texts ++ [fresh]
      | None => texts
      end
  | None => texts ++ [fresh]
  end.

(** The callback of [parsed.texts.forEach]; [None] when it throws. *)
Definition onText (ts : Q) (textPosition : option string) (t : rawText)
    (texts : list textEntry) : option (list textEntry) :=
  match t with
  | RNull => Some texts
  | RBadText => None
  | RString s =>
      match s with
      | [] => Some texts
      | _ =>
          match normalizedText s with
          | [] => Some texts
          | n => Some (addDetection ts n false None None (str_or textPosition "center") texts)
          end
      end
  | RObject txt tx ty pos =>
      match normalizedText (default [] txt) with
      | [] => Some texts
      | n => Some (addDetection ts n true tx ty (str_or pos "center") texts)
      end
  end.

(** [forEach]: the entries touched before a throw keep their changes; the
    flag tells whether the loop ran to its end. *)
Fixpoint forEachText (ts : Q) (textPosition : option string) (raw : list rawText)
    (texts : list textEntry) : list textEntry * bool :=
  match raw with
  | [] => (texts, true)
  | t :: rest =>
      match onText ts textPosition t texts with
      | Some texts' => forEachText ts textPosition rest texts'
      | None => (texts, false)
      end
  end.

(** [currentTextsNormalized]; [None] when the [map] callback throws
    ([null.text], or [.replace] on a non-string). *)
Fixpoint currentTextsNormalized (raw : list rawText) : option (list ustring) :=
  match raw with
  | [] => Some []
  | t :: rest =>
      match t with
      | RNull | RBadText => None
      | RString s => (fun l => stripForCompare s :: l) <$> currentTextsNormalized rest
      | RObject txt _ _ _ =>
          (fun l => stripForCompare (default [] txt) :: l) <$> currentTextsNormalized rest
      end
  end.

(** The callback of the [texts.forEach] that closes what is no longer seen. *)
Definition closeIfGone (ts : Q) (current : list ustring) (t : textEntry) : textEntry :=
  if closed t then t
  else
    let stillVisible := existsb (ustring_eqb (stripForCompare (text t))) current in
    if negb stillVisible && negb (Qle_bool ts (start t)) then close_at ts t else t.

(** One iteration of the loop over the frames, as far as [texts] goes. *)
Definition onFrame (texts : list textEntry) (f : frame) : list textEntry :=
  match result f with
  | Unparsed => texts
  | Parsed raw textPosition =>
      match forEachText (timestamp f) textPosition raw texts with
      | (texts', true) =>
          match currentTextsNormalized raw with
          | Some current => map (closeIfGone (timestamp f) current) texts'
          | None => texts'
          end
      | (texts', false) => texts'
      end
  end.

(** "Close any still-open texts at the end". *)
Definition closeAtEnd (lastFrame : Z) (t : textEntry) : textEntry :=
  if closed t then t else finish_at (inject_Z (lastFrame - 1) * 0.5 + 0.5) t.

Definition BRAND_FILTER : list ustring :=
  map ustr ["noriks"; "nike"; "adidas"; "puma"; "under armour"; "calvin klein";
            "tommy hilfiger"; "hugo boss"; "lacoste"; "ralph lauren"; "armani";
            "diesel"; "levis"; "gap"; "zara"; "h&m"; "nano"]%string.

Definition SIZE_FILTER : list ustring :=
  map ustr ["xs"; "s"; "m"; "l"; "xl"; "2xl"; "3xl"; "4xl"; "5xl"; "xxl"; "xxxl"]%string.

(** [brand.replace(' ', '')]: the first space only. *)
Fixpoint removeFirstSpace (s : ustring) : ustring :=
  match s with
  | [] => []
  | c :: rest => if (c =? 0x20)%N then rest else c :: removeFirstSpace rest
  end.

(** The tests of the filter that look at the text alone. *)
Definition keepByText (t : textEntry) : bool :=
  let textLower := trim (toLowerCase (text t)) in
  negb (existsb (fun brand => ustring_eqb textLower brand ||
                              ustring_eqb textLower (removeFirstSpace brand)) BRAND_FILTER) &&
  negb (existsb (ustring_eqb textLower) SIZE_FILTER) &&
  negb (Regex.matches Regex.brandThenSize textLower ||
        Regex.matches Regex.sizeThenBrand textLower) &&
  negb (Regex.matches Regex.slogan textLower) &&
  negb (js_length textLower <? 3)%nat.

(** The callback of [texts.filter]; [nframes] is [frames.length]. *)
Definition keepText (nframes : nat) (t : textEntry) : bool :=
  keepByText t &&
  (let duration := end_ t - start t in
   let videoLength := inject_Z (Z.of_nat nframes) * 0.5 in
   Qle_bool duration (videoLength * 0.7)).

(** [filteredTexts.sort((a, b) => a.start - b.start)]: a stable sort. *)
Fixpoint insertByStart (t : textEntry) (sorted : list textEntry) : list textEntry :=
  match sorted with
  | [] => [t]
  | s :: rest =>
      if Qle_bool (start s) (start t) then s :: insertByStart t rest
      else t :: sorted
  end.

Definition sortByStart (l : list textEntry) : list textEntry :=
  fold_left (fun sorted t => insertByStart t sorted) l [].

(** The predicate of [mergedTexts.find]. *)
Definition mergeable (t m : textEntry) : bool :=
  ustring_eqb (stripForCompare (text m)) (stripForCompare (text t)) &&
  (let overlaps := Qle_bool (start t) (end_ m) && Qle_bool (start m) (end_ t) in
   let gap := start t - end_ m in
   let isConsecutive := negb (Qle_bool gap 0) && Qle_bool gap 0.5 in
   overlaps || isConsecutive).

Definition Math_min (a b : Q) : Q := if Qle_bool a b then a else b.
Definition Math_max (a b : Q) : Q := if Qle_bool a b then b else a.

(** The callback of [filteredTexts.forEach] of the merge pass. *)
Definition mergeInto (mergedTexts : list textEntry) (t : textEntry) : list textEntry :=
  match findIndex (mergeable t) mergedTexts with
  | Some k =>
      alter (fun existing =>
               set_end (Math_max (end_ existing) (end_ t))
                 (set_start (Math_min (start existing) (start t)) existing))
            k mergedTexts
  | None => mergedTexts ++ [t]
  end.

(** The [texts] array when the loop over the frames has ended and the open
    entries have been closed. *)
Definition collected (frames : list frame) : list textEntry :=
  match last frames with
  | Some lastF => map (closeAtEnd (frameNum lastF)) (fold_left onFrame frames [])
  | None => []
  end.

(** The [texts] of the response. *)
Definition analyze (frames : list frame) : list textEntry :=
  fold_left mergeInto (sortByStart (filter (fun t => keepText (length frames) t = true)
                                      (collected frames))) [].

End WithUnicode.
End Builder.

(** The tables cut down to ASCII: an instance for running the model. *)
Definition asciiTables : Unicode :=
  Build_Unicode
    (fun c => isAsciiUpper c || isAsciiLower c) isAsciiDigit
    (map asciiLower) (map asciiUpper)
    (fun _ _ => eq_refl) (fun _ _ => eq_refl) (fun _ _ => eq_refl) (fun _ _ => eq_refl).

(** ** Paths ([path.join] of the POSIX flavour)

    [path.join] puts its arguments together with [/] between them and
    normalises the result: empty segments and [.] go, and a [..] takes the
    segment before it along. *)

Module Path.

(** The segments between the [/] of a path. *)
Fixpoint split (s : ustring) : list ustring :=
  match s with
  | [] => [[]]
  | c :: rest =>
      if (c =? 47)%N then [] :: split rest
      else match split rest with
           | seg :: segs => (c :: seg) :: segs
           | [] => [[c]]
           end
  end.

(** The segments put together again with [/] between them. *)
Fixpoint unsplit (segs : list ustring) : ustring :=
  match segs with
  | [] => []
  | [seg] => seg
  | seg :: rest => seg ++ 47%N :: unsplit rest
  end.

(** One segment in [normalizeString]: [res] are the segments kept so far. *)
Definition keep (allowAboveRoot : bool) (res : list ustring) (seg : ustring)
    : list ustring :=
  if bool_decide (seg = []) || bool_decide (seg = ustr ".") then res
  else if bool_decide (seg = ustr "..")
       then match last res with
            | Some l =>
                if bool_decide (l = ustr "..")
                then (if allowAboveRoot then res ++ [seg] else res)
                else removelast res
            | None => if allowAboveRoot then [seg] else []
            end
       else res ++ [seg].

Definition normalizeString (path : ustring) (allowAboveRoot : bool) : ustring :=
  unsplit (fold_left (keep allowAboveRoot) (split path) []).

(** [path.normalize] *)
Definition normalize (path : ustring) : ustring :=
  match path with
  | [] => ustr "."
  | first :: _ =>
      let isAbsolute := (first =? 47)%N in
      let trailingSeparator := (List.last path 0 =? 47)%N in
      match normalizeString path (negb isAbsolute) with
      | [] => if isAbsolute then ustr "/" else if trailingSeparator then ustr "./" else ustr "."
      | p => (if isAbsolute then [47%N] else []) ++ p ++
             (if trailingSeparator then [47%N] else [])
      end
  end.

(** [path.join(a, b)]: an empty argument is left out. *)
Definition join (a b : ustring) : ustring :=
  match a, b with
  | [], [] => ustr "."
  | [], _ => normalize b
  | _, [] => normalize a
  | _, _ => normalize (a ++ 47%N :: b)
  end.

End Path.

(** ** Job coordinator ([/api/localizer/generate], [generateAllCountries],
       [cancel], [delete]) *)

Module Coordinator.
Section WithUnicode.
Context {U : Unicode}.
Local Open Scope string_scope.

Inductive status :=
| Queued | Analyzing | Translating | Generating | Done | Error | Cancelled.

(** A parsed JSON value: what [JSON.parse] gives for the translation
    response.  The members of an object are in the order of the text. *)
Inductive jval :=
| JNull
| JBool (b : bool)
| JNum (q : Q)
| JStr (s : ustring)
| JArr (l : list jval)
| JObj (members : list (string * jval)).

(** [!!v] *)
Definition truthy (v : jval) : bool :=
  match v with
  | JNull => false
  | JBool b => b
  | JNum q => negb (Qeq_bool q 0)
  | JStr s => match s with [] => false | _ => true end
  | JArr _ | JObj _ => true
  end.

(** The member of an object under a key; a repeated key keeps its last value. *)
Definition member (key : string) (members : list (string * jval)) : option jval :=
  fold_left (fun acc kv => if String.eqb (fst kv) key then Some (snd kv) else acc)
            members None.

(** [v?.[lang]] for a language code [lang]; [None] is [undefined].  Strings,
    arrays, numbers and booleans have no property named by a language code. *)
Definition optProp (v : option jval) (lang : string) : option jval :=
  match v with
  | Some (JObj members) => member lang members
  | _ => None
  end.

(** [{ id, date, product, type, author }]; a missing part is [None]. *)
Record namingParts := mkNaming {
  np_id : option ustring;
  np_date : option ustring;
  np_product : option ustring;
  np_type : option ustring;
  np_author : option ustring
}.

(** An element of [job.texts]. *)
Record textItem := mkItem {
  text : ustring;
  start : Q;
  end_ : Q;
  style : option string
}.

Record job := mkJob {
  id : string;
  name : ustring;
  naming : option namingParts;
  texts : list textItem;
  jobStyle : string;
  perTextStyles : bool;
  uppercase : bool;
  countries : option (list string);
  jobStatus : status;
  completed : nat;
  currentLang : string;
  outputs : gmap string ustring;
  cancelled : bool;
  error : option string
}.

Definition with_status (s : status) (j : job) : job :=
  mkJob (id j) (name j) (naming j) (texts j) (jobStyle j) (perTextStyles j) (uppercase j)
        (countries j) s (completed j) (currentLang j) (outputs j) (cancelled j) (error j).
Definition with_currentLang (l : string) (j : job) : job :=
  mkJob (id j) (name j) (naming j) (texts j) (jobStyle j) (perTextStyles j) (uppercase j)
        (countries j) (jobStatus j) (completed j) l (outputs j) (cancelled j) (error j).
Definition with_cancelled (j : job) : job :=
  mkJob (id j) (name j) (naming j) (texts j) (jobStyle j) (perTextStyles j) (uppercase j)
        (countries j) (jobStatus j) (completed j) (currentLang j) (outputs j) true (error j).
Definition with_error (msg : string) (j : job) : job :=
  mkJob (id j) (name j) (naming j) (texts j) (jobStyle j) (perTextStyles j) (uppercase j)
        (countries j) Error (completed j) (currentLang j) (outputs j) (cancelled j) (Some msg).
(** [job.outputs[lang] = outVideo; job.completed = langIdx + 1] *)
Definition with_output (lang : string) (outVideo : ustring) (n : nat) (j : job) : job :=
  mkJob (id j) (name j) (naming j) (texts j) (jobStyle j) (perTextStyles j) (uppercase j)
        (countries j) (jobStatus j) n (currentLang j) (<[lang := outVideo]> (outputs j))
        (cancelled j) (error j).

Definition ALL_COUNTRIES : list string := ["HR"; "CZ"; "PL"; "GR"; "IT"; "HU"; "SK"].

(** An element of the [countries] array of a request. *)
Inductive countryElt := CStr (s : string) | COther.

(** The [countries] of the request body: [NoArray] when it is absent or not
    an array. *)
Inductive countriesInput := NoArray | AnArray (l : list countryElt).

Definition isSupported (c : countryElt) : bool :=
  match c with
  | CStr s => existsb (String.eqb s) ALL_COUNTRIES
  | COther => false
  end.

Definition eltCode (c : countryElt) : option string :=
  match c with CStr s => Some s | COther => None end.

(** [(countries && Array.isArray(countries) && countries.length > 0)
      ? countries.filter(c => ALL_COUNTRIES.includes(c)) : ALL_COUNTRIES] *)
Definition selectedCountries (countries : countriesInput) : list string :=
  match countries with
  | AnArray (c :: rest) => omap eltCode (filter (fun c => isSupported c = true) (c :: rest))
  | _ => ALL_COUNTRIES
  end.

(** The body of a [generate] request, and whether the clean video is on disk. *)
Record request := mkRequest {
  rq_videoClean : ustring;
  rq_name : ustring;
  rq_texts : list textItem;
  rq_style : option string;
  rq_namingParts : option namingParts;
  rq_perTextStyles : bool;
  rq_countries : countriesInput;
  rq_uppercase : bool;
  rq_videoExists : bool
}.

(** The job the handler registers; [None] for the 400 and 404 answers. *)
Definition createJob (jobId : string) (rq : request) : option job :=
  match rq_videoClean rq, rq_texts rq with
  | [], _ | _, [] => None
  | _, _ =>
      if rq_videoExists rq
      then Some (mkJob jobId (rq_name rq) (rq_namingParts rq) (rq_texts rq)
                   (str_or (rq_style rq) "white") (rq_perTextStyles rq)
                   (rq_uppercase rq) (Some (selectedCountries (rq_countries rq)))
                   Translating 0 "" ∅ false None)
      else None
  end.

(** [const LANGUAGES = job.countries || [...]]: an empty array is truthy. *)
Definition LANGUAGES (j : job) : list string := default ALL_COUNTRIES (countries j).

(** [translations[i]?.[lang]] *)
Definition translatedText (translations : list jval) (i : nat) (lang : string) : option jval :=
  optProp (translations !! i) lang.

(** [let text = translatedText || t.text; if (job.uppercase) text = text.toUpperCase()];
    [None] when [toUpperCase] is not a function of the value. *)
Definition resolveText (upper : bool) (translated : option jval) (t : textItem) : option jval :=
  let chosen := match translated with
                | Some v => if truthy v then v else JStr (text t)
                | None => JStr (text t)
                end in
  if upper
  then match chosen with JStr s => Some (JStr (toUpperCase s)) | _ => None end
  else Some chosen.

(** Where a text of a language goes: a [Dialogue] line of the subtitle
    track, or an image overlay for the [rounded] style. *)
Inductive rendering := Dialogue (text : jval) | Overlay (text : jval).

Definition renderedText (r : rendering) : jval :=
  match r with Dialogue v | Overlay v => v end.

(** [(job.perTextStyles && t.style) ? t.style : (job.style || 'white')] *)
Definition resolvedStyle (j : job) (t : textItem) : string :=
  let jobWide := str_or (Some (jobStyle j)) "white" in
  if perTextStyles j then str_or (style t) jobWide else jobWide.

(** The [job.texts.forEach] of a language iteration, from index [i] on. *)
Fixpoint renderFrom (j : job) (translations : list jval) (lang : string)
    (i : nat) (items : list textItem) : option (list rendering) :=
  match items with
  | [] => Some []
  | t :: rest =>
      match resolveText (uppercase j) (translatedText translations i lang) t with
      | None => None
      | Some v =>
          let r := if String.eqb (resolvedStyle j t) "rounded" then Overlay v else Dialogue v in
          (fun l => r :: l) <$> renderFrom j translations lang (S i) rest
      end
  end.

Definition renderLanguage (j : job) (translations : list jval) (lang : string)
  : option (list rendering) :=
  renderFrom j translations lang 0 (texts j).

(** The name of the language's output file. *)
Definition part (o : option ustring) : ustring := default (ustr "undefined") o.

Definition videoName (j : job) (lang : string) : ustring :=
  match naming j with
  | Some np => part (np_id np) ++ ustr "_" ++ part (np_date np) ++ ustr "_" ++ ustr lang ++
               ustr "_" ++ part (np_product np) ++ ustr "_" ++ part (np_type np) ++
               ustr "_" ++ part (np_author np)
  | None => name j ++ ustr "-" ++ ustr lang
  end%list.

(** [path.join(__dirname, 'uploads', 'generated', job.id)], as a path
    relative to [__dirname] (which is taken to lie deep enough for no path
    to climb to the root). *)
Definition outputDir (j : job) : ustring :=
  Path.join (Path.join (ustr "uploads") (ustr "generated")) (ustr (id j)).

(** [path.join(outputDir, `${videoName}.mp4`)] *)
Definition outVideo (j : job) (lang : string) : ustring :=
  Path.join (outputDir j) (videoName j lang ++ ustr ".mp4").

(** Where the driver of a job is suspended. *)
Inductive point :=
| AwaitTranslation            (* in the [fetch] of the translation request *)
| AwaitEncode (langIdx : nat) (* in the overlay and [ffmpeg] calls of a language *)
| AwaitQC (langIdx : nat)     (* in [qualityCheckVideo] of a language *)
| Finished.                   (* the driver has returned or thrown *)

(** What can happen to a job between two polls. *)
Inductive event :=
| TranslationReturned (parsed : option (list jval)) (* [None]: no array found or [JSON.parse] threw *)
| TranslationFailed (msg : string)                  (* the request itself rejected *)
| EncodeReturned                                    (* exit code 0 *)
| EncodeFailed (msg : string)                       (* non-zero exit: [execPromise] rejects *)
| QCReturned                                        (* it catches its own errors *)
| CancelRequest.                                    (* POST [/job/:id/cancel] *)

Record driver := mkDriver {
  theJob : job;
  at_ : point;
  translations : list jval;
  rendered : list (string * list rendering)  (* the tracks written so far, newest first *)
}.

(** The handler's [.catch]: [job.status = 'error'; job.error = e.message]. *)
Definition fail (msg : string) (d : driver) : driver :=
  mkDriver (with_error msg (theJob d)) Finished (translations d) (rendered d).

(** The head of the [for] loop up to its first [await]. *)
Definition loopHead (langIdx : nat) (d : driver) : driver :=
  let j := theJob d in
  match LANGUAGES j !! langIdx with
  | None =>
      mkDriver (with_currentLang "" (with_status Done j)) Finished (translations d) (rendered d)
  | Some lang =>
      if cancelled j
      then mkDriver (with_currentLang "" (with_status Cancelled j)) Finished
                    (translations d) (rendered d)
      else
        let j' := with_currentLang lang j in
        match renderLanguage j' (translations d) lang with
        | Some track =>
            mkDriver j' (AwaitEncode langIdx) (translations d) ((lang, track) :: rendered d)
        | None =>
            fail "text.toUpperCase is not a function" (mkDriver j' Finished (translations d) (rendered d))
        end
  end.

(** The [cancel] handler: a 400 answer changes nothing. *)
Definition cancel (j : job) : job :=
  match jobStatus j with
  | Translating | Generating => with_cancelled j
  | _ => j
  end.

(** One event.  An event that does not fit the point where the driver is
    suspended cannot happen there and leaves the state as it is. *)
Definition step (d : driver) (e : event) : driver :=
  match e, at_ d with
  | CancelRequest, _ =>
      mkDriver (cancel (theJob d)) (at_ d) (translations d) (rendered d)
  | TranslationFailed msg, AwaitTranslation => fail msg d
  | TranslationReturned parsed, AwaitTranslation =>
      let tr := default [] parsed in
      if cancelled (theJob d)
      then mkDriver (with_status Cancelled (theJob d)) Finished tr (rendered d)
      else loopHead 0 (mkDriver (with_status Generating (theJob d)) AwaitTranslation tr (rendered d))
  | EncodeFailed msg, AwaitEncode _ => fail msg d
  | EncodeReturned, AwaitEncode langIdx =>
      match LANGUAGES (theJob d) !! langIdx with
      | Some lang =>
          mkDriver (with_output lang (outVideo (theJob d) lang) (S langIdx) (theJob d))
                   (AwaitQC langIdx) (translations d) (rendered d)
      | None => d
      end
  | QCReturned, AwaitQC langIdx => loopHead (S langIdx) d
  | _, _ => d
  end.

Definition run (d : driver) (events : list event) : driver := fold_left step events d.

(** The states a poll can see: the initial one and the one after each event. *)
Fixpoint states (d : driver) (events : list event) : list driver :=
  match events with
  | [] => [d]
  | e :: rest => d :: states (step d e) rest
  end.

Definition statuses (d : driver) (events : list event) : list status :=
  map (fun s => jobStatus (theJob s)) (states d events).

(** The driver right after the handler has registered the job. *)
Definition started (j : job) : driver := mkDriver j AwaitTranslation [] [].

(** The main line of the state machine and the order it induces. *)
Definition mainLine : list status := [Queued; Analyzing; Translating; Generating; Done].

Inductive follows : status -> status -> Prop :=
| follows_same s : follows s s
| follows_later a b i k :
    mainLine !! i = Some a -> mainLine !! k = Some b -> (i < k)%nat -> follows a b
| follows_abort a b i :
    mainLine !! i = Some a -> (i < 4)%nat -> b = Error \/ b = Cancelled -> follows a b.

(** *** The registry and the [delete] handler *)

Record server := mkServer {
  localizerJobs : gmap string job;        (* the in-memory map *)
  jobsFile : gmap string job;             (* what [persistJobs] wrote last *)
  generated : gmap string (list ustring)  (* the files of [uploads/generated/<id>] *)
}.

Inductive response := Success | NotFound | Forbidden.

(** [job.namingParts?.author?.toUpperCase() || ''] *)
Definition jobAuthor (j : job) : ustring :=
  match naming j with
  | Some np => match np_author np with Some a => toUpperCase a | None => [] end
  | None => []
  end.

(** [(author || '').toUpperCase()] *)
Definition requestAuthor (author : option ustring) : ustring :=
  toUpperCase (default [] author).

Definition nonEmpty (s : ustring) : bool := match s with [] => false | _ => true end.

Definition deleteJob (jobId : string) (author : option ustring) (srv : server)
  : response * server :=
  match localizerJobs srv !! jobId with
  | None => (NotFound, srv)
  | Some j =>
      if nonEmpty (jobAuthor j) && nonEmpty (requestAuthor author) &&
         negb (ustring_eqb (jobAuthor j) (requestAuthor author))
      then (Forbidden, srv)
      else
        let jobs := delete jobId (localizerJobs srv) in
        (Success, mkServer jobs jobs (delete (id j) (generated srv)))
  end.

End WithUnicode.
End Coordinator.

(** ** Predicates used to state the properties *)

(** The timeline covered by a list of scenes: where it begins and where it
    ends. *)
Definition covers (a b : Q) (segs : list Scene.segment) : Prop :=
  exists first last,
    segs !! 0%nat = Some first /\ segs !! (length segs - 1)%nat = Some last /\
    Scene.start first = a /\ Scene.end_ last = b.

(** Collapsed strings: every white space is a single U+0020, and no two of
    them are adjacent. *)
Fixpoint isCollapsed (afterSpace : bool) (s : ustring) : bool :=
  match s with
  | [] => true
  | c :: rest =>
      if isWhiteSpace c
      then (c =? 0x20)%N && negb afterSpace && isCollapsed true rest
      else isCollapsed false rest
  end.

(** The characters [stripSymbols] lets through. *)
Definition kept {U : Unicode} (c : N) : Prop :=
  inRange 0x1F300 0x1F9FF c = false /\ isLetter c || isNumber c || isWhiteSpace c = true.

(** A detection reaches [addDetection] only with a non-empty text that is
    the normal form of what was seen. *)
Definition detected (n : ustring) : Prop :=
  n <> [] /\ exists s, n = Builder.normalizedText s.

(** The frames as [readdirSync(...).sort()] gives them: the frame numbers
    do not decrease. *)
Definition framesInOrder (frames : list Builder.frame) : Prop :=
  Sorted Z.le (map Builder.frameNum frames).

(** The closing contract at frame number [n]: an entry began no later than
    that frame, ends after it begins, and ends at most one frame interval
    after that frame. *)
Definition closesBy (n : Z) (t : Builder.textEntry) : Prop :=
  (Builder.start t <= inject_Z (n - 1) * 0.5 /\
   Builder.start t < Builder.end_ t /\
   Builder.end_ t <= inject_Z (n - 1) * 0.5 + Builder.frameInterval)%Q.

(** An entry carries a text that is not empty and is its own normal form. *)
Definition goodText (t : Builder.textEntry) : Prop :=
  Builder.text t <> [] /\ Builder.normalizedText (Builder.text t) = Builder.text t.

(** The strings read in a frame are well-formed: the builder has them as
    their code points, all of them scalar values. *)
Definition rawWellFormed (t : Builder.rawText) : Prop :=
  match t with
  | Builder.RString s => Forall Utf16.isScalar s
  | Builder.RObject txt _ _ _ => Forall Utf16.isScalar (default [] txt)
  | _ => True
  end.

Definition frameWellFormed (f : Builder.frame) : Prop :=
  match Builder.result f with
  | Builder.Parsed raw _ => Forall rawWellFormed raw
  | Builder.Unparsed => True
  end.

Definition scalarText (t : Builder.textEntry) : Prop :=
  Forall Utf16.isScalar (Builder.text t).

(** A frame in which the given strings were read (old format of the
    answer), and one in which nothing was read. *)
Definition seen (n : Z) (texts : list string) : Builder.frame :=
  Builder.mkFrame n (Builder.Parsed (map (fun s => Builder.RString (ustr s)) texts) None).

(** Frames 1 to [n], every one of them parsed; the text [s] is read in
    frames [i] and [j] and nothing else is read anywhere. *)
Definition sightingFrame (s : ustring) (i j k : nat) : Builder.frame :=
  Builder.mkFrame (Z.of_nat k)
    (Builder.Parsed (if (k =? i)%nat || (k =? j)%nat then [Builder.RString s] else []) None).

Definition sightingFrames (s : ustring) (i j n : nat) : list Builder.frame :=
  map (sightingFrame s i j) (seq 1 n).

(** A parsed frame without text, a parsed frame with the one text [s], and
    the entry a first sighting of [s] at time [ts] opens. *)
Definition absentFrame (k : Z) : Builder.frame :=
  Builder.mkFrame k (Builder.Parsed [] None).
Definition seenFrame (s : ustring) (k : Z) : Builder.frame :=
  Builder.mkFrame k (Builder.Parsed [Builder.RString s] None).
Definition freshAt (s : ustring) (ts : Q) : Builder.textEntry :=
  Builder.mkText s ts (ts + Builder.frameInterval) "center" 50 50 false None.

(** The element is a reading of the text [s]: the string itself, or an
    object with [s] as its [text]. *)
Definition reads (s : ustring) (t : Builder.rawText) : Prop :=
  match t with
  | Builder.RString u => u = s
  | Builder.RObject txt _ _ _ => txt = Some s
  | _ => False
  end.

(** A stored text that the builder never takes for [s]: it differs from it
    in lower case and in the comparison key. *)
Definition aloof {U : Unicode} (s n : ustring) : Prop :=
  toLowerCase n <> toLowerCase s /\
  Builder.stripForCompare n <> Builder.stripForCompare s.

(** A text [u] as it is read that the builder never takes for [s]: its
    comparison key differs from that of [s], and so do the lower case and
    the key of its normal form. *)
Definition apart {U : Unicode} (s u : ustring) : Prop :=
  Builder.stripForCompare u <> Builder.stripForCompare s /\
  aloof s (Builder.normalizedText u).

(** An element of [parsed.texts] with such a text; [null] and the values
    on which the callback throws are none. *)
Definition unrelated {U : Unicode} (s : ustring) (t : Builder.rawText) : Prop :=
  match t with
  | Builder.RString u => apart s u
  | Builder.RObject txt _ _ _ => apart s (default [] txt)
  | _ => False
  end.

(** Frame [k] of a video in which [s] is read in frames [i] and [j], once
    in each, among other texts that are never taken for it; the frame is
    parsed, in either format of the answer. *)
Definition sightingAmong {U : Unicode} (s : ustring) (i j k : nat) (f : Builder.frame)
    : Prop :=
  Builder.frameNum f = Z.of_nat k /\
  exists raw tp, Builder.result f = Builder.Parsed raw tp /\
    if (k =? i)%nat || (k =? j)%nat
    then exists pre t post, raw = pre ++ t :: post /\ reads s t /\
                            Forall (unrelated s) pre /\ Forall (unrelated s) post
    else Forall (unrelated s) raw.

(** Frames 1 to [n] of such a video. *)
Definition sightingsAmong {U : Unicode} (s : ustring) (i j n : nat)
    (frames : list Builder.frame) : Prop :=
  Forall2 (sightingAmong s i j) (seq 1 n) frames.

(** The segments that carry the text [s]. *)
Definition segmentsOf (s : ustring) (texts : list Builder.textEntry)
    : list Builder.textEntry :=
  filter (fun e => Builder.text e = s) texts.

(** Two entries with the same text and times, open or closed alike. *)
Definition sameTiming (e e1 : Builder.textEntry) : Prop :=
  Builder.text e = Builder.text e1 /\ Builder.start e = Builder.start e1 /\
  Builder.end_ e = Builder.end_ e1 /\ Builder.closed e = Builder.closed e1.

(** Every entry carries [s] or a text never taken for it. *)
Definition othersAloof {U : Unicode} (s : ustring) (texts : list Builder.textEntry)
    : Prop :=
  Forall (fun e => Builder.text e = s \/ aloof s (Builder.text e)) texts.

(** A parsed frame whose only element is [null]. *)
Definition nullFrame (k : Z) : Builder.frame :=
  Builder.mkFrame k (Builder.Parsed [Builder.RNull] None).

(** Five frames with "SALE" read in the first, as a string after another
    text, and in the fourth, as an object with its place; "NEW" is read in
    frames 1 and 2. *)
Definition amongFrames : list Builder.frame :=
  [ Builder.mkFrame 1 (Builder.Parsed [Builder.RString (ustr "NEW");
                                       Builder.RString (ustr "SALE")] (Some "top"%string));
    Builder.mkFrame 2 (Builder.Parsed [Builder.RString (ustr "NEW")] None);
    Builder.mkFrame 3 (Builder.Parsed [] None);
    Builder.mkFrame 4 (Builder.Parsed [Builder.RObject (Some (ustr "SALE")) (Some 30%Q)
                                         (Some 40%Q) None] None);
    Builder.mkFrame 5 (Builder.Parsed [] None) ].

(** The timestamp of frame [k]. *)
Definition frameTime (k : nat) : Q := (inject_Z (Z.of_nat k - 1) * 0.5)%Q.

(** An entry with the given text and fields irrelevant to the filter. *)
Definition entryOf (s : ustring) : Builder.textEntry :=
  Builder.mkText s 0 0 "center" 50 50 false None.

(** A segment with text [s] from [a] to [b]. *)
Definition spans (t : Builder.textEntry) (s : ustring) (a b : Q) : Prop :=
  Builder.text t = s /\ (Builder.start t == a)%Q /\ (Builder.end_ t == b)%Q.

(** The three detections of the end-to-end example, with the frames
    between them in which nothing was read. *)
Definition saleFrames : list Builder.frame :=
  [seen 1 ["SALE"]; seen 2 ["SALE"]; seen 3 []; seen 4 []; seen 5 []; seen 6 ["SALE"]]%string.

(** The order of the statuses as a computed test: the same status, a later
    one on the main line, or an abort of a job that is still running. *)
Definition rank (s : Coordinator.status) : nat :=
  match s with
  | Coordinator.Queued => 0
  | Coordinator.Analyzing => 1
  | Coordinator.Translating => 2
  | Coordinator.Generating => 3
  | Coordinator.Done => 4
  | Coordinator.Error => 5
  | Coordinator.Cancelled => 6
  end.

Definition followsb (a b : Coordinator.status) : bool :=
  (rank a =? rank b)%nat ||
  ((rank a <? rank b) && (rank b <=? 4))%nat ||
  ((rank a <? 4) && (4 <? rank b))%nat.

(** What links the status of a job to the point where its driver is. *)
Definition consistent {U : Unicode} (d : Coordinator.driver) : Prop :=
  match Coordinator.at_ d with
  | Coordinator.AwaitTranslation =>
      Coordinator.jobStatus (Coordinator.theJob d) = Coordinator.Translating
  | Coordinator.AwaitEncode _ | Coordinator.AwaitQC _ =>
      Coordinator.jobStatus (Coordinator.theJob d) = Coordinator.Generating
  | Coordinator.Finished =>
      Coordinator.jobStatus (Coordinator.theJob d) = Coordinator.Done \/
      Coordinator.jobStatus (Coordinator.theJob d) = Coordinator.Error \/
      Coordinator.jobStatus (Coordinator.theJob d) = Coordinator.Cancelled
  end.

(** A request with one text, "sale", for the given countries. *)
Definition demoRequest (countries : Coordinator.countriesInput) (upper : bool)
  : Coordinator.request :=
  Coordinator.mkRequest (ustr "clean.mp4") (ustr "demo")
    [Coordinator.mkItem (ustr "sale") 0 1 None] None None false countries upper true.

(** A job as the handler registers it, with a recorded author or none. *)
Definition demoJob (jobId : string) (author : option ustring) : Coordinator.job :=
  Coordinator.mkJob jobId (ustr "demo")
    (Some (Coordinator.mkNaming None None None None author))
    [Coordinator.mkItem (ustr "sale") 0 1 None] "white" false false
    (Some Coordinator.ALL_COUNTRIES) Coordinator.Done 7 "" ∅ false None.

Definition demoServer (author : option ustring) : Coordinator.server :=
  Coordinator.mkServer {["gen-1" := demoJob "gen-1" author]}
                       {["gen-1" := demoJob "gen-1" author]}
                       {["gen-1" := [ustr "HR.mp4"]]}.

(** The job registered for [demoRequest] without a country selection, and
    the one for a request that selects Croatian and Czech. *)
Definition demoCreated : Coordinator.job :=
  Coordinator.mkJob "gen-1" (ustr "demo") None
    [Coordinator.mkItem (ustr "sale") 0 1 None] "white" false false
    (Some Coordinator.ALL_COUNTRIES) Coordinator.Translating 0 "" ∅ false None.

Definition twoLanguageJob : Coordinator.job :=
  Coordinator.mkJob "gen-2" (ustr "demo") None
    [Coordinator.mkItem (ustr "sale") 0 1 None] "white" false false
    (Some ["HR"; "CZ"]%string) Coordinator.Translating 0 "" ∅ false None.

(** A run in which the translation returns, a cancel request arrives during
    the first encode, and the encode and the quality check then return. *)
Definition demoEvents : list Coordinator.event :=
  [Coordinator.TranslationReturned None; Coordinator.CancelRequest;
   Coordinator.EncodeReturned; Coordinator.QCReturned].

(** ** The server process: the jobs file and a restart

    [persistJobs] writes every job of the registry to the jobs file; when
    the process starts, the registry is loaded from that file and no
    driver is resumed.  The state of one job across restarts: the job with
    its driver in memory, and the record of the job in the file. *)

Module Process.
Section WithUnicode.
Context {U : Unicode}.

Record state := mkState {
  running : Coordinator.driver;   (* the job in the registry and its driver *)
  saved : Coordinator.job         (* the record in the jobs file *)
}.

Inductive event :=
| OfJob (e : Coordinator.event)   (* an event of the job itself *)
| OtherPersist                    (* [persistJobs] called for another job *)
| Restart.                        (* the process starts again *)

(** The record in the jobs file after an event of the job: the code run
    by the event calls [persistJobs] in the cancel handler when it accepts,
    in the handler's [.catch], at the cancel checks, at the end of a
    language ("Save progress", before the next pass of the loop) and at the
    end of the loop ("Save final state").  Setting
    [job.status = 'generating'] and recording an output do not. *)
Definition savedBy (d : Coordinator.driver) (e : Coordinator.event)
    (saved : Coordinator.job) : Coordinator.job :=
  let d' := Coordinator.step d e in
  match e, Coordinator.at_ d with
  | Coordinator.CancelRequest, _ =>
      match Coordinator.jobStatus (Coordinator.theJob d) with
      | Coordinator.Translating | Coordinator.Generating => Coordinator.theJob d'
      | _ => saved
      end
  | Coordinator.TranslationFailed _, Coordinator.AwaitTranslation => Coordinator.theJob d'
  | Coordinator.TranslationReturned _, Coordinator.AwaitTranslation =>
      match Coordinator.at_ d' with
      | Coordinator.Finished => Coordinator.theJob d'
      | _ => saved
      end
  | Coordinator.EncodeFailed _, Coordinator.AwaitEncode _ => Coordinator.theJob d'
  | Coordinator.QCReturned, Coordinator.AwaitQC _ =>
      match Coordinator.at_ d' with
      | Coordinator.Finished => Coordinator.theJob d'
      | _ => Coordinator.theJob d
      end
  | _, _ => saved
  end.

(** After a restart the registry holds the saved record, the translations
    of the lost driver are gone, and no driver runs: nothing but a request
    can touch the job.  The subtitle tracks stay on disk. *)
Definition step (s : state) (ev : event) : state :=
  match ev with
  | OfJob e => mkState (Coordinator.step (running s) e) (savedBy (running s) e (saved s))
  | OtherPersist => mkState (running s) (Coordinator.theJob (running s))
  | Restart =>
      mkState (Coordinator.mkDriver (saved s) Coordinator.Finished []
                 (Coordinator.rendered (running s)))
              (saved s)
  end.

(** The states a poll can see: the initial one and the one after each event. *)
Fixpoint states (s : state) (events : list event) : list state :=
  match events with
  | [] => [s]
  | e :: rest => s :: states (step s e) rest
  end.

Definition status (s : state) : Coordinator.status :=
  Coordinator.jobStatus (Coordinator.theJob (running s)).

Definition statuses (s : state) (events : list event) : list Coordinator.status :=
  map status (states s events).

(** The [generate] handler registers the job, calls [persistJobs] and
    starts the driver. *)
Definition started (j : Coordinator.job) : state := mkState (Coordinator.started j) j.

End WithUnicode.
End Process.

(** A status with which a driver ends. *)
Definition terminal (s : Coordinator.status) : Prop :=
  s = Coordinator.Done \/ s = Coordinator.Error \/ s = Coordinator.Cancelled.

(** What holds of a job and its saved record at every moment: the saved
    status is the status in memory or an earlier one; a status with which a
    driver ends is saved when it is set; and a job whose driver runs has
    the status of the point where the driver is. *)
Definition recorded {U : Unicode} (s : Process.state) : Prop :=
  Coordinator.follows (Coordinator.jobStatus (Process.saved s)) (Process.status s) /\
  (terminal (Process.status s) ->
   Coordinator.jobStatus (Process.saved s) = Process.status s) /\
  (Coordinator.at_ (Process.running s) <> Coordinator.Finished ->
   consistent (Process.running s)).

(** ** Further predicates *)

(** A time on the sampling grid: a whole number of frame intervals. *)
Definition onGrid (q : Q) : Prop := exists k : Z, (q == inject_Z k * Builder.frameInterval)%Q.

Definition gridded (t : Builder.textEntry) : Prop :=
  onGrid (Builder.start t) /\ onGrid (Builder.end_ t).

(** The progress of a job against its list of languages: what has been
    counted as completed and which outputs exist, at each point where the
    driver can be. *)
Definition outputsAre {U : Unicode} (n : nat) (j : Coordinator.job) : Prop :=
  forall lang, is_Some (Coordinator.outputs j !! lang) <->
               lang ∈ take n (Coordinator.LANGUAGES j).

Definition progress {U : Unicode} (d : Coordinator.driver) : Prop :=
  let j := Coordinator.theJob d in
  let total := length (Coordinator.LANGUAGES j) in
  match Coordinator.at_ d with
  | Coordinator.AwaitTranslation =>
      Coordinator.completed j = 0%nat /\ outputsAre 0 j
  | Coordinator.AwaitEncode i =>
      (i < total)%nat /\ Coordinator.completed j = i /\ outputsAre i j
  | Coordinator.AwaitQC i =>
      (i < total)%nat /\ Coordinator.completed j = S i /\ outputsAre (S i) j
  | Coordinator.Finished =>
      (Coordinator.completed j <= total)%nat /\
      outputsAre (Coordinator.completed j) j /\
      (Coordinator.jobStatus j = Coordinator.Done -> Coordinator.completed j = total)
  end.

(** A file name in one piece: no [/] in it. *)
Definition plain (s : ustring) : Prop := 47%N ∉ s.

(** A job whose author, of all the naming parts, holds a way up the
    directories. *)
Definition climbingJob : Coordinator.job :=
  Coordinator.mkJob "gen-1" (ustr "demo")
    (Some (Coordinator.mkNaming None None None None (Some (ustr "/../../x"))))
    [Coordinator.mkItem (ustr "sale") 0 1 None] "white" false false
    (Some Coordinator.ALL_COUNTRIES) Coordinator.Translating 0 "" ∅ false None.

(** ** Subtitle times: writing and reading [H:MM:SS.CC]

    [formatAssTime] writes the start and end of every text into the
    subtitle track; [parseAssTime] of the voice-over module reads them
    back.  Both compute in doubles. *)

Module Ass.

(** The decimal digits of a natural number, least significant first, none
    for zero; [fuel] bounds their number. *)
Fixpoint digitsFrom (fuel : nat) (n : N) : ustring :=
  match fuel with
  | O => []
  | S fuel => if (n =? 0)%N then [] else (48 + n mod 10)%N :: digitsFrom fuel (n / 10)
  end.

(** [z.toString()] of an integer (below the size at which the exponent
    notation begins). *)
Definition toString (z : Z) : ustring :=
  let n := Z.abs_N z in
  let digits := if (n =? 0)%N then [48%N] else rev (digitsFrom (N.to_nat (N.size n)) n) in
  if (z <? 0)%Z then 45%N :: digits else digits.

(** [s.padStart(targetLength, pad)] with a pad of one character. *)
Definition padStart (targetLength : nat) (pad : N) (s : ustring) : ustring :=
  replicate (targetLength - length s) pad ++ s.

(** [x.toString()] of a double that is a whole number below 2^53. *)
Definition numberToString (x : F64.float) : option ustring :=
  toString <$> F64.toInt x.

(** [formatAssTime]; [None] when one of the four fields is not a whole
    number below 2^53 ([NaN], an infinite time, or hours from 2^53 on). *)
Definition formatAssTime (seconds : F64.float) : option ustring :=
  let h := F64.Math_floor (F64.div seconds (F64.ofZ 3600)) in
  let m := F64.Math_floor (F64.div (F64.rem seconds (F64.ofZ 3600)) (F64.ofZ 60)) in
  let s := F64.Math_floor (F64.rem seconds (F64.ofZ 60)) in
  let cs := F64.Math_floor (F64.mul (F64.rem seconds (F64.ofZ 1)) (F64.ofZ 100)) in
  hs ← numberToString h; ms ← numberToString m;
  ss ← numberToString s; css ← numberToString cs;
  Some (hs ++ ustr ":" ++ padStart 2 48 ms ++ ustr ":" ++
        padStart 2 48 ss ++ ustr "." ++ padStart 2 48 css).

(** A string of decimal digits. *)
Definition digits (s : ustring) : Prop := Forall (fun c => isAsciiDigit c = true) s.

(** The longest run of digits at the beginning of [s], and what follows
    it. *)
Fixpoint digitRun (s : ustring) : ustring * ustring :=
  match s with
  | c :: rest =>
      if isAsciiDigit c then (let '(ds, tl) := digitRun rest in (c :: ds, tl)) else ([], s)
  | [] => ([], [])
  end.

(** A group [(\d+)] at the beginning of [s].  The group is greedy, and a
    shorter run never helps: in the pattern every group but the last is
    followed by a character that is not a digit. *)
Definition group (s : ustring) : option (ustring * ustring) :=
  match digitRun s with
  | ([], _) => None
  | r => Some r
  end.

Definition literal (c : N) (s : ustring) : option ustring :=
  match s with
  | d :: rest => if (d =? c)%N then Some rest else None
  | [] => None
  end.

(** [/(\d+):(\d+):(\d+)\.(\d+)/] at the beginning of [s]: the four
    groups. *)
Definition matchHere (s : ustring) : option (ustring * ustring * ustring * ustring) :=
  '(p1, s) ← group s; s ← literal 58 s;
  '(p2, s) ← group s; s ← literal 58 s;
  '(p3, s) ← group s; s ← literal 46 s;
  '(p4, _) ← group s;
  Some (p1, p2, p3, p4).

(** [timeStr.match(...)]: the match that begins first. *)
Fixpoint match_ (s : ustring) : option (ustring * ustring * ustring * ustring) :=
  match matchHere s with
  | Some parts => Some parts
  | None => match s with
            | [] => None
            | _ :: rest => match_ rest
            end
  end.

(** [parseInt] of a string of decimal digits. *)
Definition parseInt (ds : ustring) : N :=
  fold_left (fun acc c => (acc * 10 + (c - 48))%N) ds 0%N.

(** The double [parseInt] returns for digits that make a number below
    2^53. *)
Definition number (n : N) : F64.float := F64.ofZ (Z.of_N n).

Definition parseAssTime (timeStr : ustring) : F64.float :=
  match match_ timeStr with
  | None => F64.zero
  | Some (p1, p2, p3, p4) =>
      F64.add
        (F64.add
           (F64.add (F64.mul (number (parseInt p1)) (F64.ofZ 3600))
                    (F64.mul (number (parseInt p2)) (F64.ofZ 60)))
           (number (parseInt p3)))
        (F64.div (number (parseInt p4)) (F64.ofZ 100))
  end.

(** The time of frame [k + 1], as the builders compute it: [k * 0.5]. *)
Definition gridTime (k : nat) : F64.float :=
  F64.mul (F64.ofZ (Z.of_nat k)) (F64.dec 5 1).

(** Two decimal digits. *)
Definition two (n : N) : ustring := [48 + n / 10; 48 + n mod 10]%N.

(** What is to be written for the time of frame [k + 1]: the hours, the
    minutes, the seconds and 00 or 50 hundredths. *)
Definition written (k : nat) : ustring :=
  let n := N.of_nat k in
  toString (Z.of_N (n / 7200)) ++ ustr ":" ++ two ((n / 120) mod 60) ++ ustr ":" ++
  two ((n / 2) mod 60) ++ ustr "." ++ two (50 * (n mod 2)).

(** Writing the time and reading it back gives the same double. *)
Definition roundTrips (t : F64.float) : bool :=
  match formatAssTime t with
  | Some written => F64.same (parseAssTime written) t
  | None => false
  end.

(** The first frame times, up to ten minutes of video. *)
Definition firstTimes : nat := N.to_nat 1200.

End Ass.

(** ** The first localizer ([processLocalizationJob]): its text segments

    The job analyses every third frame and keeps one segment per text.
    The value of [text] in an element of the parsed array is taken to be a
    string or falsy; [null] elements, on which reading [text] throws, are
    part of the model. *)

Module V1.
Local Open Scope Q_scope.

(** [{ text, start, end, position }] *)
Record segment := mkSegment {
  text : ustring; start : Q; end_ : Q; position : ustring }.

Definition set_end (e : Q) (s : segment) : segment :=
  mkSegment (text s) (start s) e (position s).

(** An element of the array the vision model returned: [null], or a value
    with its [text] and [position] where they are strings. *)
Inductive element :=
| ENull
| EValue (text position : option ustring).

(** What one frame gave: nothing that parses (no array in the answer,
    [JSON.parse] or the call itself failed), or the parsed array. *)
Inductive frameResult :=
| Unparsed
| Parsed (texts : list element).

(** An analysed frame: [frames[i]] for [i = 0, 3, 6, ...]. *)
Record frame := mkFrame { frameNum : Z; result : frameResult }.

(** [(parseInt(frames[i].match(/\d+/)[0]) - 1) * 0.5] *)
Definition timestamp (f : frame) : Q := inject_Z (frameNum f - 1) * 0.5.

(** [a || b] on a string that may be missing. *)
Definition ustr_or (a : option ustring) (b : ustring) : ustring :=
  match a with
  | Some (c :: rest) => c :: rest
  | _ => b
  end.

(** The body of [texts.forEach] for an element that is not [null]. *)
Definition onText (timestamp : Q) (lastTexts : list ustring) (segments : list segment)
    (t_text t_position : option ustring) : list segment :=
  match t_text with
  | Some (c :: rest) =>
      let txt := c :: rest in
      match findIndex (fun s => ustring_eqb (text s) txt) segments with
      | Some existing => alter (set_end (timestamp + 1)) existing segments
      | None =>
          if bool_decide (txt ∈ lastTexts) then segments
          else segments ++ [mkSegment txt timestamp (timestamp + 1.5)
                                      (ustr_or t_position (ustr "center"))]
      end
  | _ => segments
  end.

(** [texts.forEach(...)]: the flag tells whether the loop came to its end;
    it stops at a [null] element, and what it changed before stays. *)
Fixpoint forEachText (timestamp : Q) (lastTexts : list ustring) (texts : list element)
    (segments : list segment) : list segment * bool :=
  match texts with
  | [] => (segments, true)
  | ENull :: _ => (segments, false)
  | EValue t_text t_position :: rest =>
      forEachText timestamp lastTexts rest
        (onText timestamp lastTexts segments t_text t_position)
  end.

(** [texts.map(t => t.text).filter(Boolean)] *)
Definition truthyTexts (texts : list element) : list ustring :=
  omap (fun t => match t with
                 | EValue (Some (c :: rest)) _ => Some (c :: rest)
                 | _ => None
                 end) texts.

(** One pass of the frame loop on [(segments, lastTexts)]. *)
Definition onFrame (st : list segment * list ustring) (f : frame)
    : list segment * list ustring :=
  match result f with
  | Unparsed => st
  | Parsed texts =>
      let '(segments, completed) := forEachText (timestamp f) (snd st) texts (fst st) in
      (segments, if completed then truthyTexts texts else snd st)
  end.

Definition analyze (frames : list frame) : list segment :=
  fst (fold_left onFrame frames ([], [])).

End V1.

(** The analysed frames come in the order of their numbers. *)
Definition v1InOrder (frames : list V1.frame) : Prop :=
  Sorted Z.le (map V1.frameNum frames).

(** The text [txt] is reached in the frame: it is the [text] of an element
    with no [null] element before it. *)
Definition v1Reached (txt : list N) (f : V1.frame) : Prop :=
  exists texts i pos,
    V1.result f = V1.Parsed texts /\
    texts !! i = Some (V1.EValue (Some txt) pos) /\
    V1.ENull ∉ take i texts.

Definition v1Demo : list V1.frame :=
  [ V1.mkFrame 1 (V1.Parsed [V1.EValue (Some (ustr "SALE")) None]);
    V1.mkFrame 4 V1.Unparsed;
    V1.mkFrame 7 (V1.Parsed [V1.EValue (Some (ustr "SALE")) None;
                             V1.EValue (Some (ustr "NEW")) (Some (ustr "top"));
                             V1.ENull]) ].

(** What the frame loop keeps true of the texts of the segments and of
    [lastTexts]: the texts are pairwise distinct and not empty, and every
    text of [lastTexts] has a segment. *)
Definition keeps (segments : list V1.segment) (lastTexts : list (list N)) : Prop :=
  NoDup (map V1.text segments) /\
  Forall (fun x => x <> []) (map V1.text segments) /\
  (forall x, x ∈ lastTexts -> x ∈ map V1.text segments).

(** Every segment began no later than [now] and lasts a second or more. *)
Definition timed (now : Q) (segments : list V1.segment) : Prop :=
  Forall (fun s => V1.start s <= now /\ V1.start s + 1 <= V1.end_ s)%Q segments.

(** ** The scene descriptors of [/api/localizer/analyze]

    The loop over the frames that collects the texts also cuts the video
    into scenes: the [segments] of the response.  The values of
    [parsed.description] and [parsed.emotion] are taken to be strings or
    falsy. *)

Module Descriptor.
Section WithUnicode.
Context {U : Unicode}.
Local Open Scope Q_scope.

(** [{ id, start, end, description, emotion, thumbnail }] *)
Record segment := mkSegment {
  id : nat; start : Q; end_ : Q;
  description : ustring; emotion : ustring; thumbnail : ustring }.

Definition set_end (e : Q) (s : segment) : segment :=
  mkSegment (id s) (start s) e (description s) (emotion s) (thumbnail s).

(** A frame with what the scene part of the loop reads of it: the file
    name [frames[i]] and, of the parsed object, whether [isNewScene] is
    truthy, [description] and [emotion]. *)
Record sceneFrame := mkSceneFrame {
  frame : Builder.frame;
  fileName : ustring;
  isNewScene : bool;
  parsedDescription : option ustring;
  parsedEmotion : option ustring }.

(** [a || b] on a string that may be missing. *)
Definition ustr_or (a : option ustring) (b : ustring) : ustring :=
  match a with
  | Some (c :: rest) => c :: rest
  | _ => b
  end.

(** [segments[segments.length - 1].end = v], for an array that is not
    empty. *)
Definition set_last_end (v : Q) (segments : list segment) : list segment :=
  alter (set_end v) (length segments - 1)%nat segments.

(** "Create segment if new scene OR if current segment is too long", else
    "extend current segment". *)
Definition sceneStep (jobId : ustring) (timestamp : Q) (sf : sceneFrame)
    (segments : list segment) : list segment :=
  let currentSegmentTooLong :=
    match last segments with
    | Some current => Qle_bool 2 (timestamp - start current)
    | None => false
    end in
  if isNewScene sf || (length segments =? 0)%nat || currentSegmentTooLong
  then
    set_last_end timestamp segments ++
    [mkSegment (length segments) timestamp (timestamp + Builder.frameInterval)
       (ustr_or (parsedDescription sf)
          (ustr "Scene " ++ Ass.toString (Z.of_nat (length segments + 1)%nat)))
       (ustr_or (parsedEmotion sf) (ustr "neutral"))
       (ustr "/launches/uploads/analysis/" ++ jobId ++ ustr "/" ++ fileName sf)]
  else set_last_end (timestamp + Builder.frameInterval) segments.

(** One iteration of the loop over the frames, on [(texts, segments)]: the
    scene part is reached when nothing before it in the iteration threw. *)
Definition onFrame (jobId : ustring) (st : list Builder.textEntry * list segment)
    (sf : sceneFrame) : list Builder.textEntry * list segment :=
  let f := frame sf in
  match Builder.result f with
  | Builder.Unparsed => st
  | Builder.Parsed raw textPosition =>
      match Builder.forEachText (Builder.timestamp f) textPosition raw (fst st) with
      | (texts', true) =>
          match Builder.currentTextsNormalized raw with
          | Some current =>
              (map (Builder.closeIfGone (Builder.timestamp f) current) texts',
               sceneStep jobId (Builder.timestamp f) sf (snd st))
          | None => (texts', snd st)
          end
      | (texts', false) => (texts', snd st)
      end
  end.

(** "Ensure last segment has proper end time". *)
Definition finish (frames : list sceneFrame) (segments : list segment) : list segment :=
  match last frames with
  | Some lastF =>
      set_last_end (inject_Z (Builder.frameNum (frame lastF) - 1) * 0.5 + 0.5) segments
  | None => segments
  end.

(** The [segments] of the response. *)
Definition scenes (jobId : ustring) (frames : list sceneFrame) : list segment :=
  finish frames (snd (fold_left (onFrame jobId) frames ([], []))).

End WithUnicode.
End Descriptor.

(** The scenes form a chain: each one carries its index as [id] and begins
    where the one before it ends. *)
Definition chained (segments : list Descriptor.segment) : Prop :=
  (forall i s, segments !! i = Some s -> Descriptor.id s = i) /\
  (forall i a b, segments !! i = Some a -> segments !! S i = Some b ->
                 Descriptor.end_ a = Descriptor.start b).

(** The frames come with strictly increasing numbers. *)
Definition sceneFramesAscend (frames : list Descriptor.sceneFrame) : Prop :=
  Sorted Z.lt (map (fun sf => Builder.frameNum (Descriptor.frame sf)) frames).

(** Every scene began no later than [now] and ends after it begins. *)
Definition begun (now : Q) (segments : list Descriptor.segment) : Prop :=
  Forall (fun s => Descriptor.start s <= now /\ Descriptor.start s < Descriptor.end_ s)%Q
         segments.

Definition descriptorDemo : list Descriptor.sceneFrame :=
  [ Descriptor.mkSceneFrame (Builder.mkFrame 1 (Builder.Parsed [] None))
      (ustr "frame-001.jpg") false (Some (ustr "A man walks")) None;
    Descriptor.mkSceneFrame (Builder.mkFrame 2 Builder.Unparsed)
      (ustr "frame-002.jpg") false None None;
    Descriptor.mkSceneFrame (Builder.mkFrame 3 (Builder.Parsed [] None))
      (ustr "frame-003.jpg") true None (Some (ustr "happy")) ].

(** * Properties *)

(** Comparisons between closed rationals, by evaluation. *)
Ltac qdecide := vm_compute; first [reflexivity | discriminate | (intro; discriminate)].

(** ** Scene splitter *)

Section SceneFacts.
Import Scene.
Local Open Scope Q_scope.

Lemma tooShort_false (s : segment) : tooShort s = false -> 1 <= dur s.
Proof.
  unfold tooShort, MIN_DURATION. intros H.
  apply negb_false_iff in H. apply Qle_bool_iff in H. lra.
Qed.

Lemma tooShort_true (s : segment) : tooShort s = true -> dur s < 1.
Proof.
  unfold tooShort, MIN_DURATION. intros H.
  apply negb_true_iff in H. apply Qnot_le_lt. intros Hle.
  assert (Qle_bool 1.0 (dur s) = true) as E by (apply Qle_bool_iff; lra).
  congruence.
Qed.

Lemma findIndex_None {A} (p : A -> bool) (l : list A) :
  findIndex p l = None -> Forall (fun x => p x = false) l.
Proof.
  induction l as [|x l IH]; simpl; [constructor|].
  destruct (p x) eqn:E; [discriminate|].
  destruct (findIndex p l); [discriminate|]. intros _. constructor; auto.
Qed.

Lemma findIndex_Some {A} (p : A -> bool) (l : list A) (i : nat) :
  findIndex p l = Some i -> exists x, l !! i = Some x /\ p x = true.
Proof.
  revert i. induction l as [|x l IH]; simpl; intros i; [discriminate|].
  destruct (p x) eqn:E.
  - intros [= <-]. eauto.
  - destruct (findIndex p l) as [j|]; [|discriminate].
    intros [= <-]. destruct (IH j eq_refl) as (y & ? & ?). eauto.
Qed.

Lemma mergeAt_length (i : nat) (segs : list segment) :
  (i < length segs)%nat -> length (mergeAt i segs) = pred (length segs).
Proof.
  intros Hi. unfold mergeAt.
  destruct (lookup_lt_is_Some_2 segs i Hi) as [si ->].
  destruct (i <? length segs - 1)%nat;
    (rewrite length_delete; [rewrite length_alter; lia|]);
    apply lookup_lt_is_Some; rewrite length_alter; lia.
Qed.

Lemma mergeStep_length (segs segs' : list segment) :
  mergeStep segs = Some segs' -> S (length segs') = length segs.
Proof.
  unfold mergeStep. destruct (1 <? length segs)%nat eqn:E; [|discriminate].
  apply Nat.ltb_lt in E.
  destruct (findIndex tooShort segs) as [i|] eqn:F; [|discriminate].
  intros [= <-]. destruct (findIndex_Some _ _ _ F) as (x & Hx & _).
  apply lookup_lt_Some in Hx. rewrite mergeAt_length; lia.
Qed.

(** The fuel given by [mergeShort] is enough: the loop has stopped with
    [merged = false]. *)
Lemma mergeLoop_fixpoint (fuel : nat) (segs : list segment) :
  (length segs <= fuel)%nat -> mergeStep (mergeLoop fuel segs) = None.
Proof.
  revert segs. induction fuel as [|fuel IH]; intros segs Hf; simpl.
  - destruct segs; [reflexivity | simpl in Hf; lia].
  - destruct (mergeStep segs) as [segs'|] eqn:E; [|exact E].
    apply IH. apply mergeStep_length in E. lia.
Qed.

Lemma mergeShort_stable (segs : list segment) :
  mergeStep (mergeShort segs) = None.
Proof. apply mergeLoop_fixpoint. reflexivity. Qed.

(** What the end of the loop means. *)
Lemma mergeStep_None (segs : list segment) :
  mergeStep segs = None ->
  (length segs <= 1)%nat \/ Forall (fun s => 1 <= dur s) segs.
Proof.
  unfold mergeStep. destruct (1 <? length segs)%nat eqn:E.
  - destruct (findIndex tooShort segs) eqn:F; [discriminate|].
    intros _. right. apply findIndex_None in F.
    eapply Forall_impl; [exact F|]. intros s. apply tooShort_false.
  - intros _. left. apply Nat.ltb_ge in E. exact E.
Qed.

Lemma rawSegments_lookup (raw : list Q) (total : Q) (i : nat) :
  rawSegments raw total !! i =
  (fun s => mkSegment s (num_or (raw !! S i) total)) <$> raw !! i.
Proof.
  revert i. induction raw as [|s rest IH]; intros i; [reflexivity|].
  destruct i as [|i]; simpl.
  - destruct rest; reflexivity.
  - apply IH.
Qed.

Lemma rawSegments_length (raw : list Q) (total : Q) :
  length (rawSegments raw total) = length raw.
Proof. induction raw; simpl; congruence. Qed.

Lemma collect_head (acc times : list Q) (a : Q) :
  head acc = Some a -> head (collect acc times) = Some a.
Proof.
  revert acc. induction times as [|t rest IH]; intros acc H; simpl; [exact H|].
  destruct (Qle_bool _ _); apply IH; [|exact H].
  destruct acc; [discriminate | exact H].
Qed.

Lemma rawSegments_covers (times : list Q) (total : Q) :
  covers 0 total (rawSegments (rawSceneTimes times) total).
Proof.
  pose proof (collect_head [0] times 0 eq_refl) as Hh.
  fold (rawSceneTimes times) in Hh.
  destruct (rawSceneTimes times) as [|z raw] eqn:E; [discriminate|].
  injection Hh as ->. unfold covers.
  rewrite rawSegments_length, !rawSegments_lookup.
  set (cuts := (0%Q :: raw) : list Q).
  assert (is_Some (cuts !! (length cuts - 1)%nat)) as [l Hl].
  { apply lookup_lt_is_Some. simpl. lia. }
  rewrite Hl.
  assert (cuts !! S (length cuts - 1) = None) as ->.
  { apply lookup_ge_None. simpl. lia. }
  eexists _, _. repeat split.
Qed.

Lemma mergeAt_covers (a b : Q) (i : nat) (segs : list segment) :
  (1 < length segs)%nat -> (i < length segs)%nat ->
  covers a b segs -> covers a b (mergeAt i segs).
Proof.
  intros Hn Hi (f & l & Hf & Hl & Ha & Hb). unfold covers.
  rewrite mergeAt_length by exact Hi. unfold mergeAt.
  destruct (lookup_lt_is_Some_2 segs i Hi) as [si Hsi]. rewrite Hsi.
  destruct (i <? length segs - 1)%nat eqn:E.
  - apply Nat.ltb_lt in E.
    rewrite (list_lookup_delete_ge _ i (pred (length segs) - 1)) by lia.
    replace (S (pred (length segs) - 1)) with (length segs - 1)%nat by lia.
    assert (exists l', alter (set_start (start si)) (i + 1)%nat segs
                         !! (length segs - 1)%nat = Some l' /\ end_ l' = b)
      as (l' & -> & Hl').
    { rewrite list_lookup_alter. destruct (decide _) as [e|e].
      - rewrite e, Hl. simpl. eauto.
      - rewrite Hl. eauto. }
    destruct i as [|i].
    + rewrite list_lookup_delete_ge by lia. rewrite list_lookup_alter.
      rewrite decide_True by reflexivity.
      destruct (lookup_lt_is_Some_2 segs 1 Hn) as [s1 Hs1].
      change (0 + 1)%nat with 1%nat. rewrite Hs1. simpl.
      rewrite Hf in Hsi. injection Hsi as <-.
      eexists _, _; repeat split; simpl; eauto.
    + rewrite list_lookup_delete_lt by lia.
      rewrite list_lookup_alter_ne by lia. rewrite Hf.
      eexists _, _; repeat split; simpl; eauto.
  - apply Nat.ltb_ge in E. assert (i = length segs - 1)%nat as -> by lia.
    rewrite Hl in Hsi. injection Hsi as <-.
    rewrite !list_lookup_delete_lt by lia.
    assert (is_Some (segs !! (length segs - 1 - 1)%nat)) as [p Hp].
    { apply lookup_lt_is_Some. lia. }
    replace (pred (length segs) - 1)%nat with (length segs - 1 - 1)%nat by lia.
    rewrite (list_lookup_alter _ _ _ (length segs - 1 - 1)).
    rewrite decide_True by reflexivity. rewrite Hp. simpl.
    rewrite list_lookup_alter. destruct (decide _) as [e|e].
    + rewrite e, Hf. eexists _, _; repeat split; simpl; eauto.
    + rewrite Hf. eexists _, _; repeat split; simpl; eauto.
Qed.

Lemma mergeLoop_covers (a b : Q) (fuel : nat) (segs : list segment) :
  covers a b segs -> covers a b (mergeLoop fuel segs).
Proof.
  revert segs. induction fuel as [|fuel IH]; intros segs H; simpl; [exact H|].
  destruct (mergeStep segs) as [segs'|] eqn:E; [|exact H].
  apply IH. unfold mergeStep in E.
  destruct (1 <? length segs)%nat eqn:E1; [|discriminate].
  apply Nat.ltb_lt in E1.
  destruct (findIndex tooShort segs) as [i|] eqn:F; [|discriminate].
  injection E as <-. destruct (findIndex_Some _ _ _ F) as (x & Hx & _).
  apply lookup_lt_Some in Hx. apply mergeAt_covers; auto.
Qed.

(** Rounding both bounds to one decimal keeps a duration of one second. *)
Lemma Math_round_shift (x y : Q) :
  x + 10 <= y -> (Math_round x + 10 <= Math_round y)%Z.
Proof.
  unfold Math_round. intros H.
  pose proof (Qfloor_le (x + 0.5)) as H1.
  pose proof (Qlt_floor (y + 0.5)) as H2.
  assert (inject_Z (Qfloor (x + 0.5) + 10) < inject_Z (Qfloor (y + 0.5) + 1)) as H3.
  { rewrite inject_Z_plus. change (inject_Z 10) with 10. lra. }
  rewrite <- Zlt_Qlt in H3. lia.
Qed.

Lemma roundSegment_dur (s : segment) : 1 <= dur s -> 1 <= dur (roundSegment s).
Proof.
  unfold dur, roundSegment, round1. simpl. intros H.
  assert (start s * 10 + 10 <= end_ s * 10) as H1 by lra.
  apply Math_round_shift in H1. rewrite Zle_Qle, inject_Z_plus in H1.
  change (inject_Z 10) with 10 in H1.
  set (a := inject_Z (Math_round (start s * 10))) in *.
  set (b := inject_Z (Math_round (end_ s * 10))) in *.
  unfold Qdiv. change (/ 10) with (1 # 10). lra.
Qed.

Lemma mergeShort_result (a b : Q) (segs : list segment) :
  covers a b segs ->
  Forall (fun s => 1 <= dur s) (mergeShort segs) \/
  (b - a < 1 /\ mergeShort segs = [mkSegment a b]).
Proof.
  intros Hc. apply (mergeLoop_covers _ _ (length segs)) in Hc.
  fold (mergeShort segs) in Hc.
  destruct (mergeStep_None _ (mergeShort_stable segs)) as [Hlen|Hall];
    [|left; exact Hall].
  destruct Hc as (f & l & Hf & Hl & Ha & Hb).
  destruct (mergeShort segs) as [|s [|s' rest]]; simpl in *; try discriminate; try lia.
  injection Hf as <-. injection Hl as <-.
  destruct (tooShort s) eqn:E.
  - right. apply tooShort_true in E. unfold dur in E. subst a b.
    split; [exact E|]. destruct s; reflexivity.
  - left. constructor; [|constructor]. apply tooShort_false. exact E.
Qed.

End SceneFacts.

(** In exact arithmetic, over the rationals, the rounding to one decimal
    keeps every scene at [MIN_DURATION] or more.  (In doubles it does not:
    see [Scene64].) *)
Lemma exact_scenes_keep_minimum (times : list Q) (totalSeconds : Q) :
  Forall (fun s => Scene.MIN_DURATION <= Scene.dur s)%Q
         (Scene.smartAnalyze times totalSeconds) \/
  ((totalSeconds < Scene.MIN_DURATION)%Q /\
   Scene.smartAnalyze times totalSeconds =
     [Scene.roundSegment (Scene.mkSegment 0 totalSeconds)]).
Proof.
  unfold Scene.smartAnalyze, Scene.MIN_DURATION.
  destruct (mergeShort_result _ _ _ (rawSegments_covers times totalSeconds))
    as [Hall | [Hlt ->]].
  - left. apply Forall_map. eapply Forall_impl; [exact Hall|].
    intros s Hs. simpl. apply roundSegment_dur in Hs. lra.
  - right. split; [lra | reflexivity].
Qed.

(** C7, as the specification states it, fails: the cut at 0.4 is 0.4 s after
    the last kept cut (0), which is not below the 0.3 s epsilon, so it is
    kept and the raw cuts are not [0, 5.0, 9.0]. *)
Lemma scene_scenario_raw_cuts_differ :
  ~ Forall2 Qeq (Scene.rawSceneTimes [0; 0.2; 0.4; 5.0; 9.0]%Q) [0; 5.0; 9.0]%Q.
Proof.
  intros H. apply Forall2_length in H. vm_compute in H. discriminate.
Qed.

(** C7, amended. On the cut times [0, 0.2, 0.4, 5.0, 9.0] of a 10 s video
    the kept raw cuts are [0, 0.4, 5.0, 9.0], the raw intervals are
    [0-0.4, 0.4-5.0, 5.0-9.0, 9.0-10.0], and merging the 0.4 s interval
    forward gives the final scenes [0-5.0, 5.0-9.0, 9.0-10.0]; the last
    interval, exactly 1.0 s long, is not merged. *)
Theorem scene_scenario :
  let times := [0; 0.2; 0.4; 5.0; 9.0]%Q in
  Scene.rawSceneTimes times = [0; 0.4; 5.0; 9.0]%Q /\
  Scene.rawSegments (Scene.rawSceneTimes times) 10 =
    [Scene.mkSegment 0 0.4; Scene.mkSegment 0.4 5.0;
     Scene.mkSegment 5.0 9.0; Scene.mkSegment 9.0 10]%Q /\
  Scene.segs_eq (Scene.smartAnalyze times 10)
    [Scene.mkSegment 0 5.0; Scene.mkSegment 5.0 9.0; Scene.mkSegment 9.0 10.0]%Q /\
  Scene.tooShort (Scene.mkSegment 9.0 10)%Q = false.
Proof.
  repeat split; try reflexivity.
  vm_compute. repeat constructor.
Qed.

(** ** Scene splitter in doubles *)

Section F64Facts.
Import SpecFloat.

Lemma binary_round_aux_sign (sx : bool) (mx ex : Z) (lx : location) :
  match binary_round_aux F64.prec F64.emax sx mx ex lx with
  | S754_zero s | S754_infinity s | S754_finite s _ _ => s = sx
  | S754_nan => True
  end.
Proof.
  unfold binary_round_aux.
  destruct (shr_fexp F64.prec F64.emax mx ex lx) as [mrs' e'].
  destruct (shr_fexp F64.prec F64.emax _ e' loc_Exact) as [mrs'' e''].
  destruct (shr_m mrs''); [reflexivity | | exact I].
  destruct (Z.leb _ _); reflexivity.
Qed.

Lemma binary_round_negative (m : positive) (e : Z) :
  notPositive64 (binary_round F64.prec F64.emax true m e).
Proof.
  unfold binary_round.
  destruct (shl_align m e _) as [mz ez].
  pose proof (binary_round_aux_sign true (Zpos mz) ez loc_Exact) as H.
  destruct (binary_round_aux _ _ _ _ _ _) as [s|s| |s m' e']; try exact I;
    subst s; exact I.
Qed.

(** Taking a double that is zero or above from one that is not above zero
    gives one that is not above zero. *)
Lemma sub_notPositive (t l : F64.float) :
  notPositive64 t -> l = F64.zero \/ positive64 l -> notPositive64 (F64.sub t l).
Proof.
  intros Ht [->|Hl].
  - destruct t as [[]|[]| |[] mt et]; simpl in *; exact I || contradiction.
  - destruct l as [sl|[]| |[] ml el]; simpl in Hl; try contradiction.
    + destruct t as [[]|[]| |[] mt et]; simpl in *; exact I || contradiction.
    + destruct t as [[]|[]| |[] mt et]; simpl in Ht; try exact I; try contradiction.
      unfold F64.sub, SFsub.
      set (ez := Z.min et el).
      set (a := fst (shl_align mt et ez)). set (b := fst (shl_align ml el ez)).
      change (Z.sub (cond_Zopp true (Zpos a)) (cond_Zopp false (Zpos b)))
        with (Zneg (a + b)).
      apply binary_round_negative.
Qed.

(** Nothing that is not above zero is [>=] a double above zero. *)
Lemma geb_notPositive (r c : F64.float) :
  notPositive64 r -> positive64 c -> F64.geb r c = false.
Proof.
  destruct c as [sc|[]| |[] mc ec]; simpl; try contradiction;
    destruct r as [sr|[]| |[] mr er]; simpl; try contradiction; reflexivity.
Qed.

Lemma positive_or_not (x : F64.float) : positive64 x \/ notPositive64 x.
Proof. destruct x as [s|[]| |[] m e]; simpl; auto. Qed.

Lemma geb_sub_positive (t l c : F64.float) :
  l = F64.zero \/ positive64 l -> positive64 c ->
  F64.geb (F64.sub t l) c = true -> positive64 t.
Proof.
  intros Hl Hc H. destruct (positive_or_not t) as [Ht|Ht]; [exact Ht|].
  rewrite geb_notPositive in H; [discriminate | | exact Hc].
  apply sub_notPositive; assumption.
Qed.

Lemma positive_truthy (x : F64.float) : positive64 x -> F64.truthy x = true.
Proof. destruct x as [s|[]| |[] m e]; simpl; intros H; reflexivity || contradiction. Qed.

Lemma sub_zero (x : F64.float) : F64.sub x F64.zero = x.
Proof. destruct x as [[]|[]| |[] m e]; reflexivity. Qed.

End F64Facts.

Section Scene64Facts.
Import Scene64.

Lemma mergeAt64_length (i : nat) (segs : list segment) :
  (i < length segs)%nat -> length (mergeAt i segs) = pred (length segs).
Proof.
  intros Hi. unfold mergeAt.
  destruct (lookup_lt_is_Some_2 segs i Hi) as [si ->].
  destruct (i <? length segs - 1)%nat;
    (rewrite length_delete; [rewrite length_alter; lia|]);
    apply lookup_lt_is_Some; rewrite length_alter; lia.
Qed.

(** A merge happens at an index of the array, and only when the array has
    more than one element. *)
Lemma mergeStep64_Some (segs segs' : list segment) :
  mergeStep segs = Some segs' ->
  exists i, (1 < length segs)%nat /\ (i < length segs)%nat /\ segs' = mergeAt i segs.
Proof.
  unfold mergeStep. destruct (1 <? length segs)%nat eqn:E; [|discriminate].
  apply Nat.ltb_lt in E.
  destruct (findIndex tooShort segs) as [i|] eqn:F; [|discriminate].
  intros [= <-]. destruct (findIndex_Some _ _ _ F) as (x & Hx & _).
  apply lookup_lt_Some in Hx. eauto.
Qed.

Lemma mergeStep64_length (segs segs' : list segment) :
  mergeStep segs = Some segs' -> S (length segs') = length segs.
Proof.
  intros H. destruct (mergeStep64_Some _ _ H) as (i & Hn & Hi & ->).
  rewrite mergeAt64_length; lia.
Qed.

(** The fuel given by [mergeShort] is enough: the loop has stopped with
    [merged = false]. *)
Lemma mergeLoop64_fixpoint (fuel : nat) (segs : list segment) :
  (length segs <= fuel)%nat -> mergeStep (mergeLoop fuel segs) = None.
Proof.
  revert segs. induction fuel as [|fuel IH]; intros segs Hf; simpl.
  - destruct segs; [reflexivity | simpl in Hf; lia].
  - destruct (mergeStep segs) as [segs'|] eqn:E; [|exact E].
    apply IH. apply mergeStep64_length in E. lia.
Qed.

Lemma mergeShort64_stable (segs : list segment) :
  mergeStep (mergeShort segs) = None.
Proof. apply mergeLoop64_fixpoint. reflexivity. Qed.

(** What the end of the loop means. *)
Lemma mergeStep64_None (segs : list segment) :
  mergeStep segs = None ->
  (length segs <= 1)%nat \/ Forall (fun s => tooShort s = false) segs.
Proof.
  unfold mergeStep. destruct (1 <? length segs)%nat eqn:E.
  - destruct (findIndex tooShort segs) eqn:F; [discriminate|].
    intros _. right. apply findIndex_None in F. exact F.
  - intros _. left. apply Nat.ltb_ge in E. exact E.
Qed.

(** An invariant of the merges is an invariant of the loop. *)
Lemma mergeLoop64_keeps (P : list segment -> Prop) :
  (forall i segs, (1 < length segs)%nat -> (i < length segs)%nat ->
                  P segs -> P (mergeAt i segs)) ->
  forall fuel segs, P segs -> P (mergeLoop fuel segs).
Proof.
  intros Hstep fuel. induction fuel as [|fuel IH]; intros segs H; simpl; [exact H|].
  destruct (mergeStep segs) as [segs'|] eqn:E; [|exact H].
  destruct (mergeStep64_Some _ _ E) as (i & Hn & Hi & ->).
  apply IH, Hstep; assumption.
Qed.

Lemma mergeLoop64_length (fuel : nat) (segs : list segment) :
  (length (mergeLoop fuel segs) <= length segs)%nat.
Proof.
  revert segs. induction fuel as [|fuel IH]; intros segs; simpl; [lia|].
  destruct (mergeStep segs) as [segs'|] eqn:E; [|lia].
  apply mergeStep64_length in E. specialize (IH segs'). lia.
Qed.

Lemma rawSegments64_lookup (raw : list F64.float) (total : F64.float) (i : nat) :
  rawSegments raw total !! i =
  (fun s => mkSegment s (F64.or_ (raw !! S i) total)) <$> raw !! i.
Proof.
  revert i. induction raw as [|s rest IH]; intros i; [reflexivity|].
  destruct i as [|i]; simpl.
  - destruct rest; reflexivity.
  - apply IH.
Qed.

Lemma rawSegments64_length (raw : list F64.float) (total : F64.float) :
  length (rawSegments raw total) = length raw.
Proof. induction raw; simpl; congruence. Qed.

Lemma last_Forall {A} (P : A -> Prop) (l : list A) (d : A) :
  l <> [] -> Forall P l -> P (List.last l d).
Proof.
  induction l as [|a l IH]; intros Hne H; [congruence|].
  inversion H; subst. destruct l as [|b l]; [assumption|].
  change (List.last (a :: b :: l) d) with (List.last (b :: l) d).
  apply IH; [discriminate | assumption].
Qed.

Lemma last_lookup_default {A} (l : list A) (d a : A) (i : nat) :
  l !! i = Some a -> S i = length l -> List.last l d = a.
Proof.
  revert i. induction l as [|c l IH]; intros i Ha Hi; [discriminate|].
  destruct l as [|c' l'].
  - simpl in Hi. assert (i = 0%nat) as -> by lia. simpl in Ha. simpl. congruence.
  - destruct i as [|i]; [simpl in Hi; lia|].
    change (List.last (c :: c' :: l') d) with (List.last (c' :: l') d).
    apply (IH i); [exact Ha | simpl in *; lia].
Qed.

(** The loop over the trace keeps [0] first and, after it, only doubles
    above zero. *)
Lemma collect64_cuts (acc times : list F64.float) :
  cuts64 acc -> cuts64 (collect acc times).
Proof.
  revert acc. induction times as [|t times IH]; intros acc Hc; simpl; [exact Hc|].
  destruct (F64.geb _ _) eqn:E; [|apply IH, Hc].
  apply IH. destruct Hc as (rest & -> & Hrest).
  exists (rest ++ [t]). split; [reflexivity|].
  apply Forall_app. split; [exact Hrest|]. constructor; [|constructor].
  apply (geb_sub_positive t (List.last (F64.zero :: rest) F64.NaN) (F64.dec 3 1));
    [| exact I | exact E].
  apply (last_Forall (fun x => x = F64.zero \/ positive64 x)); [discriminate|].
  constructor; [left; reflexivity|].
  eapply Forall_impl; [exact Hrest|]. intros x Hx. right. exact Hx.
Qed.

Lemma rawSceneTimes64_cuts (times : list F64.float) : cuts64 (rawSceneTimes times).
Proof. apply collect64_cuts. exists []. split; [reflexivity | constructor]. Qed.

Lemma spaced64_snoc (cuts : list F64.float) (t : F64.float) :
  spaced64 cuts -> F64.geb (F64.sub t (List.last cuts F64.NaN)) (F64.dec 3 1) = true ->
  spaced64 (cuts ++ [t]).
Proof.
  intros Hs Hg i a b Ha Hb.
  destruct (Nat.lt_ge_cases (S i) (length cuts)) as [Hlt|Hge].
  - rewrite lookup_app_l in Ha by lia. rewrite lookup_app_l in Hb by lia. eauto.
  - assert (S i = length cuts) as Hi.
    { apply lookup_lt_Some in Hb. rewrite length_app in Hb. simpl in Hb. lia. }
    rewrite lookup_app_l in Ha by lia.
    rewrite lookup_app_r in Hb by lia.
    replace (S i - length cuts)%nat with 0%nat in Hb by lia. injection Hb as <-.
    rewrite (last_lookup_default cuts F64.NaN a i Ha Hi) in Hg. exact Hg.
Qed.

Lemma collect64_spaced (acc times : list F64.float) :
  spaced64 acc -> spaced64 (collect acc times).
Proof.
  revert acc. induction times as [|t times IH]; intros acc Hs; simpl; [exact Hs|].
  destruct (F64.geb _ _) eqn:E; [|apply IH, Hs].
  apply IH, spaced64_snoc; assumption.
Qed.

Lemma collect64_length (acc times : list F64.float) :
  (length (collect acc times) <= length acc + length times)%nat.
Proof.
  revert acc. induction times as [|t times IH]; intros acc; simpl; [lia|].
  destruct (F64.geb _ _).
  - specialize (IH (acc ++ [t])). rewrite length_app in IH. simpl in IH. lia.
  - specialize (IH acc). lia.
Qed.

Lemma rawSegments64_covers (raw : list F64.float) (total : F64.float) :
  cuts64 raw -> covers64 F64.zero total (rawSegments raw total).
Proof.
  intros (rest & -> & _). unfold covers64.
  rewrite rawSegments64_length, !rawSegments64_lookup.
  set (cuts := F64.zero :: rest).
  assert (is_Some (cuts !! (length cuts - 1)%nat)) as [l Hl].
  { apply lookup_lt_is_Some. simpl. lia. }
  rewrite Hl.
  assert (cuts !! S (length cuts - 1) = None) as ->.
  { apply lookup_ge_None. simpl. lia. }
  eexists _, _. repeat split.
Qed.

Lemma rawSegments64_contiguous (raw : list F64.float) (total : F64.float) :
  cuts64 raw -> contiguous64 (rawSegments raw total).
Proof.
  intros (rest & -> & Hrest) i a b Ha Hb. rewrite rawSegments64_lookup in Ha, Hb.
  destruct ((F64.zero :: rest) !! i) as [u|] eqn:Eu; [|discriminate].
  destruct ((F64.zero :: rest) !! S i) as [v|] eqn:Ev; [|discriminate].
  simpl in Ha, Hb. injection Ha as <-. injection Hb as <-. simpl.
  simpl in Ev. rewrite Forall_lookup in Hrest.
  rewrite (positive_truthy v (Hrest i v Ev)). reflexivity.
Qed.

Lemma mergeAt64_covers (a b : F64.float) (i : nat) (segs : list segment) :
  (1 < length segs)%nat -> (i < length segs)%nat ->
  covers64 a b segs -> covers64 a b (mergeAt i segs).
Proof.
  intros Hn Hi (f & l & Hf & Hl & Ha & Hb). unfold covers64.
  rewrite mergeAt64_length by exact Hi. unfold mergeAt.
  destruct (lookup_lt_is_Some_2 segs i Hi) as [si Hsi]. rewrite Hsi.
  destruct (i <? length segs - 1)%nat eqn:E.
  - apply Nat.ltb_lt in E.
    rewrite (list_lookup_delete_ge _ i (pred (length segs) - 1)) by lia.
    replace (S (pred (length segs) - 1)) with (length segs - 1)%nat by lia.
    assert (exists l', alter (set_start (start si)) (i + 1)%nat segs
                         !! (length segs - 1)%nat = Some l' /\ end_ l' = b)
      as (l' & -> & Hl').
    { rewrite list_lookup_alter. destruct (decide _) as [e|e].
      - rewrite e, Hl. simpl. eauto.
      - rewrite Hl. eauto. }
    destruct i as [|i].
    + rewrite list_lookup_delete_ge by lia. rewrite list_lookup_alter.
      rewrite decide_True by reflexivity.
      destruct (lookup_lt_is_Some_2 segs 1 Hn) as [s1 Hs1].
      change (0 + 1)%nat with 1%nat. rewrite Hs1. simpl.
      rewrite Hf in Hsi. injection Hsi as <-.
      eexists _, _; repeat split; simpl; eauto.
    + rewrite list_lookup_delete_lt by lia.
      rewrite list_lookup_alter_ne by lia. rewrite Hf.
      eexists _, _; repeat split; simpl; eauto.
  - apply Nat.ltb_ge in E. assert (i = length segs - 1)%nat as -> by lia.
    rewrite Hl in Hsi. injection Hsi as <-.
    rewrite !list_lookup_delete_lt by lia.
    assert (is_Some (segs !! (length segs - 1 - 1)%nat)) as [p Hp].
    { apply lookup_lt_is_Some. lia. }
    replace (pred (length segs) - 1)%nat with (length segs - 1 - 1)%nat by lia.
    rewrite (list_lookup_alter _ _ _ (length segs - 1 - 1)).
    rewrite decide_True by reflexivity. rewrite Hp. simpl.
    rewrite list_lookup_alter. destruct (decide _) as [e|e].
    + rewrite e, Hf. eexists _, _; repeat split; simpl; eauto.
    + rewrite Hf. eexists _, _; repeat split; simpl; eauto.
Qed.

Lemma mergeAt64_contiguous (i : nat) (segs : list segment) :
  (1 < length segs)%nat -> (i < length segs)%nat ->
  contiguous64 segs -> contiguous64 (mergeAt i segs).
Proof.
  intros Hn Hi Hc. unfold mergeAt.
  destruct (lookup_lt_is_Some_2 segs i Hi) as [si Hsi]. rewrite Hsi.
  destruct (i <? length segs - 1)%nat eqn:E.
  - apply Nat.ltb_lt in E. intros k a b Ha Hb.
    rewrite list_lookup_delete, list_lookup_alter in Ha.
    rewrite list_lookup_delete, list_lookup_alter in Hb.
    destruct (decide (k < i)%nat) as [Hki|Hki];
      destruct (decide (S k < i)%nat) as [Hki'|Hki']; try lia.
    + rewrite decide_False in Ha by lia. rewrite decide_False in Hb by lia. eauto.
    + assert (S k = i) as Hk by lia.
      rewrite decide_False in Ha by lia. rewrite decide_True in Hb by lia.
      destruct (segs !! (i + 1)%nat) as [sn|] eqn:En; [|discriminate].
      simpl in Hb. injection Hb as <-. simpl.
      apply (Hc k a si Ha). rewrite Hk. exact Hsi.
    + destruct (decide ((i + 1)%nat = S k)) as [Hk|Hk].
      * rewrite decide_False in Hb by lia.
        destruct (segs !! (i + 1)%nat) as [sn|] eqn:En; [|discriminate].
        simpl in Ha. injection Ha as <-. simpl.
        apply (Hc (i + 1)%nat sn b En). replace (S (i + 1)) with (S (S k)) by lia. exact Hb.
      * rewrite decide_False in Hb by lia. eauto.
  - apply Nat.ltb_ge in E. assert (i = length segs - 1)%nat as Hil by lia.
    intros k a b Ha Hb.
    assert (S k < i)%nat as Hk.
    { pose proof (lookup_lt_Some _ _ _ Hb) as Hlen.
      rewrite length_delete, length_alter in Hlen; [lia|].
      apply lookup_lt_is_Some. rewrite length_alter. lia. }
    rewrite list_lookup_delete, list_lookup_alter in Ha.
    rewrite list_lookup_delete, list_lookup_alter in Hb.
    rewrite (decide_True (P := (k < i)%nat)) in Ha by lia.
    rewrite (decide_True (P := (S k < i)%nat)) in Hb by lia.
    rewrite decide_False in Ha by lia.
    destruct (decide ((i - 1)%nat = S k)) as [Hk'|Hk'].
    + destruct (segs !! (i - 1)%nat) as [sp|] eqn:Ep; [|discriminate].
      simpl in Hb. injection Hb as <-. simpl.
      apply (Hc k a sp Ha). rewrite <- Hk'. exact Ep.
    + eauto.
Qed.

(** When the loop has ended, no scene is short by its test, or the one
    scene from [a] to [b] is left and is short. *)
Lemma mergeShort64_result (a b : F64.float) (segs : list segment) :
  covers64 a b segs ->
  Forall (fun s => tooShort s = false) (mergeShort segs) \/
  (mergeShort segs = [mkSegment a b] /\ tooShort (mkSegment a b) = true).
Proof.
  intros Hc.
  apply (mergeLoop64_keeps (covers64 a b) (mergeAt64_covers a b) (length segs)) in Hc.
  fold (mergeShort segs) in Hc.
  destruct (mergeStep64_None _ (mergeShort64_stable segs)) as [Hlen|Hall];
    [|left; exact Hall].
  destruct Hc as (f & l & Hf & Hl & Ha & Hb).
  destruct (mergeShort segs) as [|s [|s' rest]]; simpl in *; try discriminate; try lia.
  injection Hf as <-. injection Hl as <-.
  assert (s = mkSegment a b) as -> by (destruct s; simpl in *; congruence).
  destruct (tooShort (mkSegment a b)) eqn:E.
  - right. split; reflexivity.
  - left. constructor; [exact E | constructor].
Qed.

End Scene64Facts.

(** ** Scene splitter in doubles: the minimum duration *)

(** The worked scenario of the scene splitter comes out the same in
    doubles: the kept cuts are [0, 0.4, 5, 9] and the scenes of the
    response are [0-5, 5-9, 9-10]. *)
Lemma scene_scenario_in_doubles :
  let times := [F64.zero; F64.dec 2 1; F64.dec 4 1; F64.ofZ 5; F64.ofZ 9] in
  Scene64.rawSceneTimes times = [F64.zero; F64.dec 4 1; F64.ofZ 5; F64.ofZ 9] /\
  Scene64.smartAnalyze times (F64.ofZ 10) =
    [Scene64.mkSegment F64.zero (F64.ofZ 5);
     Scene64.mkSegment (F64.ofZ 5) (F64.ofZ 9);
     Scene64.mkSegment (F64.ofZ 9) (F64.ofZ 10)].
Proof. split; vm_compute; reflexivity. Qed.

(** C8, as the specification states it, fails.  A trace with the cuts 3.1
    and 4.11 on a video of 10 s: no scene is short by the test of the
    loop (the middle one lasts 1.0100000000000002), so nothing is merged;
    the rounding then makes its end 4.1, and the response holds the scene
    3.1-4.1, whose duration in the arithmetic of the handler is
    0.9999999999999996, below [MIN_DURATION]; the exact difference of the
    two doubles is below 1 as well.  The video is not shorter than the
    minimum and three scenes are returned.  (The doubles of 3.1, 4.11 and
    4.1 are given by mantissa and exponent.) *)
Lemma scene_below_minimum_after_rounding :
  let times := [F64.dec 31 1; F64.dec 411 2] in
  let totalSeconds := F64.ofZ 10 in
  let scene := Scene64.mkSegment (F64.dec 31 1) (F64.dec 41 1) in
  F64.dec 31 1 = SpecFloat.S754_finite false 6980579422424269 (-51) /\
  F64.dec 411 2 = SpecFloat.S754_finite false 4627448617123185 (-50) /\
  F64.dec 41 1 = SpecFloat.S754_finite false 4616189618054758 (-50) /\
  F64.ltb totalSeconds Scene64.MIN_DURATION = false /\
  Scene64.mergeShort (Scene64.rawSegments (Scene64.rawSceneTimes times) totalSeconds) =
    [Scene64.mkSegment F64.zero (F64.dec 31 1);
     Scene64.mkSegment (F64.dec 31 1) (F64.dec 411 2);
     Scene64.mkSegment (F64.dec 411 2) totalSeconds] /\
  Scene64.smartAnalyze times totalSeconds =
    [Scene64.mkSegment F64.zero (F64.dec 31 1); scene;
     Scene64.mkSegment (F64.dec 41 1) totalSeconds] /\
  Scene64.dur scene = SpecFloat.S754_finite false 9007199254740988 (-53) /\
  F64.ltb (Scene64.dur scene) Scene64.MIN_DURATION = true /\
  (exists e s, F64.toQ (Scene64.end_ scene) = Some e /\
               F64.toQ (Scene64.start scene) = Some s /\ (e - s < 1)%Q).
Proof.
  cbv zeta. repeat split; try (vm_compute; reflexivity).
  eexists _, _. split; [vm_compute; reflexivity|]. split; [vm_compute; reflexivity|].
  vm_compute. reflexivity.
Qed.

(** C8, amended.  When the merge loop has ended (and it does end), every
    scene passes the test of the loop: [end - start < MIN_DURATION],
    computed in doubles, is false for it; the one exception is a video
    shorter than the minimum, for which the single scene from 0 to the
    length of the video is left.  The response holds these scenes with both
    bounds rounded to one decimal; the rounding comes after the test, and
    for the rounded scenes the minimum is not kept. *)
Theorem scene_minimum_duration (times : list F64.float) (totalSeconds : F64.float) :
  let merged :=
    Scene64.mergeShort (Scene64.rawSegments (Scene64.rawSceneTimes times) totalSeconds) in
  Scene64.mergeStep merged = None /\
  Scene64.smartAnalyze times totalSeconds = map Scene64.roundSegment merged /\
  (Forall (fun s => F64.ltb (F64.sub (Scene64.end_ s) (Scene64.start s))
                            Scene64.MIN_DURATION = false) merged \/
   (merged = [Scene64.mkSegment F64.zero totalSeconds] /\
    F64.ltb totalSeconds Scene64.MIN_DURATION = true)).
Proof.
  cbv zeta. split; [apply mergeShort64_stable|]. split; [reflexivity|].
  destruct (mergeShort64_result F64.zero totalSeconds _
              (rawSegments64_covers _ totalSeconds (rawSceneTimes64_cuts times)))
    as [Hall | [-> Hshort]].
  - left. exact Hall.
  - right. split; [reflexivity|].
    unfold Scene64.tooShort, Scene64.dur in Hshort. simpl in Hshort.
    rewrite sub_zero in Hshort. exact Hshort.
Qed.

(** ** Text normalisation *)

Section TrimFacts.

Lemma trimStart_suffix (s : ustring) :
  exists pre, s = pre ++ trimStart s /\ Forall (fun c => isWhiteSpace c = true) pre.
Proof.
  induction s as [|c s IH]; simpl.
  - exists []. split; [reflexivity | constructor].
  - destruct (isWhiteSpace c) eqn:E.
    + destruct IH as (pre & Hs & Hp). exists (c :: pre). split.
      * simpl. congruence.
      * constructor; assumption.
    + exists []. split; [reflexivity | constructor].
Qed.

Lemma trimStart_head (s : ustring) (c : N) :
  head (trimStart s) = Some c -> isWhiteSpace c = false.
Proof.
  induction s as [|d s IH]; simpl; [discriminate|].
  destruct (isWhiteSpace d) eqn:E; [exact IH|].
  simpl. intros [= <-]. exact E.
Qed.

Lemma trimStart_fixed (s : ustring) :
  (forall c, head s = Some c -> isWhiteSpace c = false) -> trimStart s = s.
Proof.
  destruct s as [|c s]; simpl; [reflexivity|].
  intros H. rewrite (H c eq_refl). reflexivity.
Qed.

Lemma trimStart_nil (s : ustring) :
  trimStart s = [] <-> Forall (fun c => isWhiteSpace c = true) s.
Proof.
  induction s as [|c s IH]; simpl.
  - split; [constructor | reflexivity].
  - destruct (isWhiteSpace c) eqn:E.
    + rewrite IH. split; intros H.
      * constructor; assumption.
      * inversion H; assumption.
    + split; [discriminate|]. intros H. inversion H. congruence.
Qed.

(** The first character of a trimmed string is not white space. *)
Lemma trim_head (s : ustring) (c : N) :
  head (trim s) = Some c -> isWhiteSpace c = false.
Proof.
  unfold trim. intros H.
  destruct (trimStart_suffix (rev (trimStart s))) as (pre & Hs & _).
  apply (f_equal (@rev N)) in Hs. rewrite rev_involutive, rev_app_distr in Hs.
  apply (trimStart_head s). rewrite Hs.
  destruct (rev (trimStart (rev (trimStart s)))); [discriminate | exact H].
Qed.

Lemma trim_idempotent (s : ustring) : trim (trim s) = trim s.
Proof.
  pose proof (trim_head s) as Hh. unfold trim in *.
  set (b := trimStart (rev (trimStart s))) in *.
  rewrite (trimStart_fixed (rev b)) by exact Hh.
  rewrite rev_involutive. f_equal.
  apply trimStart_fixed. intros c. apply trimStart_head.
Qed.

Lemma trim_nil (s : ustring) :
  trim s = [] <-> Forall (fun c => isWhiteSpace c = true) s.
Proof.
  unfold trim. split.
  - intros H. apply (f_equal (@rev N)) in H. rewrite rev_involutive in H.
    simpl in H. apply trimStart_nil in H. apply Forall_rev in H.
    rewrite rev_involutive in H. apply trimStart_nil.
    destruct (trimStart s) as [|c r] eqn:E; [reflexivity|].
    pose proof (trimStart_head s c) as Hc. rewrite E in Hc.
    specialize (Hc eq_refl). inversion H. congruence.
  - intros H. apply trimStart_nil in H. rewrite H. reflexivity.
Qed.

Lemma trim_Forall (P : N -> Prop) (s : ustring) : Forall P s -> Forall P (trim s).
Proof.
  assert (forall l, Forall P l -> Forall P (trimStart l)) as Hts.
  { intros l Hl. destruct (trimStart_suffix l) as (pre & Hs & _).
    rewrite Hs in Hl. apply Forall_app in Hl. tauto. }
  intros H. unfold trim. apply Forall_rev, Hts, Forall_rev, Hts, H.
Qed.

Lemma Forall_filter_keep {A} (P : A -> Prop) (Q : A -> Prop)
    `{forall x, Decision (Q x)} (l : list A) :
  Forall P l -> Forall P (filter Q l).
Proof.
  induction 1 as [|x l Hx Hl IH]; [constructor|].
  rewrite filter_cons. destruct (decide (Q x)); [constructor|]; assumption.
Qed.

Lemma removeRange_Forall (P : N -> Prop) (lo hi : N) (s : ustring) :
  Forall P s -> Forall P (removeRange lo hi s).
Proof. unfold removeRange. apply Forall_filter_keep. Qed.

Lemma removeRange_outside (lo hi : N) (s : ustring) :
  Forall (fun c => inRange lo hi c = false) (removeRange lo hi s).
Proof.
  unfold removeRange. induction s as [|c s IH]; [constructor|].
  rewrite filter_cons. destruct (decide _); [constructor|]; assumption.
Qed.

Lemma removeRange_fixed (lo hi : N) (s : ustring) :
  Forall (fun c => inRange lo hi c = false) s -> removeRange lo hi s = s.
Proof.
  unfold removeRange. induction 1 as [|c s Hc Hs IH]; [reflexivity|].
  rewrite filter_cons, decide_True by exact Hc. f_equal. exact IH.
Qed.

End TrimFacts.

Section NormalizeFacts.
Import Builder.

Lemma removeRange_Forall_iff (P : N -> Prop) (lo hi : N) (s : ustring) :
  Forall P (removeRange lo hi s) <->
  Forall (fun c => inRange lo hi c = false -> P c) s.
Proof.
  unfold removeRange. induction s as [|c s IH]; [split; constructor|].
  rewrite filter_cons. destruct (decide _) as [E|E].
  - split; intros H; inversion H; subst; constructor; auto; apply IH; auto.
  - split; intros H.
    + constructor; [intros; contradiction | apply IH; exact H].
    + inversion H; subst. apply IH. assumption.
Qed.

Lemma normalizedText_outside (s : ustring) :
  Forall (fun c => inStrippedRange c = false) (normalizedText s).
Proof.
  unfold normalizedText. apply trim_Forall.
  do 6 (apply (proj2 (removeRange_Forall_iff _ _ _ _))).
  apply Forall_forall. intros c _. unfold inStrippedRange.
  intros -> -> -> -> -> ->. reflexivity.
Qed.

Lemma normalizedText_fixed (s : ustring) :
  Forall (fun c => inStrippedRange c = false) s -> normalizedText s = trim s.
Proof.
  intros H. unfold normalizedText.
  assert (forall lo hi, (forall c, inStrippedRange c = false -> inRange lo hi c = false) ->
                        removeRange lo hi s = s) as Hfix.
  { intros lo hi Hc. apply removeRange_fixed. eapply Forall_impl; [exact H|]. exact Hc. }
  unfold inStrippedRange in Hfix.
  rewrite !Hfix; [reflexivity|..]; intros c Hc;
    repeat (apply orb_false_iff in Hc; destruct Hc as [Hc ?]); assumption.
Qed.

Lemma normalizedText_idempotent (s : ustring) :
  normalizedText (normalizedText s) = normalizedText s.
Proof.
  rewrite (normalizedText_fixed (normalizedText s)) by apply normalizedText_outside.
  unfold normalizedText. apply trim_idempotent.
Qed.

Lemma normalizedText_nil (s : ustring) :
  normalizedText s = [] <->
  Forall (fun c => inStrippedRange c || isWhiteSpace c = true) s.
Proof.
  unfold normalizedText. rewrite trim_nil.
  rewrite !removeRange_Forall_iff.
  apply Forall_iff. intros c. unfold inStrippedRange.
  destruct (inRange 0x1F300 0x1F9FF c), (inRange 0x2600 0x26FF c),
    (inRange 0x2700 0x27BF c), (inRange 0xFE00 0xFE0F c),
    (inRange 0x1F000 0x1F02F c), (inRange 0x1F0A0 0x1F0FF c); simpl;
    split; intros H; auto; try discriminate.
Qed.

End NormalizeFacts.

(** Collapsed strings: every white space is a single U+0020 between two
    other characters or at an end. *)
Section CollapseFacts.

Lemma collapseFrom_collapsed (b : bool) (s : ustring) :
  isCollapsed b (collapseFrom b s) = true.
Proof.
  revert b. induction s as [|c s IH]; intros b; simpl; [reflexivity|].
  destruct (isWhiteSpace c) eqn:E.
  - destruct b; [apply IH|]. simpl. rewrite IH. reflexivity.
  - simpl. rewrite E. apply IH.
Qed.

Lemma collapseFrom_fixed (b : bool) (s : ustring) :
  isCollapsed b s = true -> collapseFrom b s = s.
Proof.
  revert b. induction s as [|c s IH]; intros b; simpl; [reflexivity|].
  destruct (isWhiteSpace c) eqn:E.
  - intros H. apply andb_true_iff in H. destruct H as [H H2].
    apply andb_true_iff in H. destruct H as [H0 H1].
    apply negb_true_iff in H1. subst b. apply N.eqb_eq in H0. subst c.
    f_equal. apply IH. exact H2.
  - intros H. f_equal. apply IH. exact H.
Qed.

Lemma isCollapsed_weaken (b : bool) (s : ustring) :
  isCollapsed b s = true -> isCollapsed false s = true.
Proof.
  destruct s as [|c s]; simpl; [reflexivity|].
  destruct (isWhiteSpace c); [|tauto].
  intros H. apply andb_true_iff in H. destruct H as [H H2].
  apply andb_true_iff in H. destruct H as [H0 _]. rewrite H0, H2. reflexivity.
Qed.

Lemma isCollapsed_suffix (b : bool) (pre s : ustring) :
  isCollapsed b (pre ++ s) = true -> isCollapsed false s = true.
Proof.
  revert b. induction pre as [|c pre IH]; intros b; simpl.
  - apply isCollapsed_weaken.
  - destruct (isWhiteSpace c).
    + intros H. apply andb_true_iff in H. destruct H as [_ H]. eapply IH, H.
    + apply IH.
Qed.

Lemma isCollapsed_prefix (b : bool) (s post : ustring) :
  isCollapsed b (s ++ post) = true -> isCollapsed b s = true.
Proof.
  revert b. induction s as [|c s IH]; intros b; simpl; [reflexivity|].
  destruct (isWhiteSpace c).
  - intros H. apply andb_true_iff in H. destruct H as [H H2].
    rewrite H. simpl. eapply IH, H2.
  - apply IH.
Qed.

Lemma trim_prefix (s : ustring) : exists post, trimStart s = trim s ++ post.
Proof.
  unfold trim. destruct (trimStart_suffix (rev (trimStart s))) as (pre & Hs & _).
  exists (rev pre). rewrite <- rev_app_distr, <- Hs, rev_involutive. reflexivity.
Qed.

Lemma trim_collapsed (s : ustring) :
  isCollapsed false s = true -> isCollapsed false (trim s) = true.
Proof.
  intros H. destruct (trimStart_suffix s) as (pre & Hs & _).
  destruct (trim_prefix s) as (post & Hp).
  rewrite Hs in H. apply isCollapsed_suffix in H. rewrite Hp in H.
  eapply isCollapsed_prefix, H.
Qed.

End CollapseFacts.

Section StripFacts.
Context {U : Unicode}.
Import Builder.

Lemma collapseFrom_kept (b : bool) (s : ustring) :
  Forall kept s -> Forall kept (collapseFrom b s).
Proof.
  intros H. revert b. induction H as [|c s Hc Hs IH]; intros b; simpl; [constructor|].
  destruct (isWhiteSpace c) eqn:E.
  - destruct b; [apply IH|]. constructor; [|apply IH].
    split; [reflexivity|]. rewrite orb_true_r. reflexivity.
  - constructor; [exact Hc | apply IH].
Qed.

Lemma stripSymbols_kept (s : ustring) : Forall kept (stripSymbols s).
Proof.
  unfold stripSymbols. apply trim_Forall, collapseFrom_kept.
  pose proof (removeRange_outside 0x1F300 0x1F9FF s) as H.
  induction H as [|c l Hc Hl IH]; [constructor|].
  rewrite filter_cons. destruct (decide _) as [E|E]; [|exact IH].
  constructor; [split; assumption | exact IH].
Qed.

Lemma stripSymbols_idempotent (s : ustring) :
  stripSymbols (stripSymbols s) = stripSymbols s.
Proof.
  pose proof (stripSymbols_kept s) as Hk.
  assert (isCollapsed false (stripSymbols s) = true) as Hc.
  { unfold stripSymbols. apply trim_collapsed, collapseFrom_collapsed. }
  assert (trim (stripSymbols s) = stripSymbols s) as Ht.
  { unfold stripSymbols. apply trim_idempotent. }
  set (r := stripSymbols s) in *. unfold stripSymbols at 1.
  rewrite removeRange_fixed by (eapply Forall_impl; [exact Hk|]; intros c Hkc; apply Hkc).
  assert (filter (fun c => isLetter c || isNumber c || isWhiteSpace c = true) r = r) as ->.
  { clear Hc Ht. induction Hk as [|c l Hc Hl IH]; [reflexivity|].
    rewrite filter_cons, decide_True by apply Hc. f_equal. exact IH. }
  unfold collapseSpaces. rewrite collapseFrom_fixed by exact Hc. exact Ht.
Qed.

End StripFacts.

(** ** Code units and code points *)

Section Utf16Facts.

Lemma isWhiteSpace_bmp (c : N) :
  isWhiteSpace c = true -> (c < 0x10000)%N /\ Utf16.isSurrogate c = false.
Proof.
  unfold isWhiteSpace, Utf16.isSurrogate, inRange. intros H.
  repeat (apply orb_true_iff in H; destruct H as [H|H]);
    try (apply andb_true_iff in H; destruct H as [H1 H2]; apply N.leb_le in H1, H2);
    try apply N.eqb_eq in H;
    (split; [lia | apply andb_false_iff; rewrite !N.leb_gt; lia]).
Qed.

Lemma surrogate_not_space (u : N) : Utf16.isSurrogate u = true -> isWhiteSpace u = false.
Proof.
  intros H. destruct (isWhiteSpace u) eqn:E; [|reflexivity].
  apply isWhiteSpace_bmp in E. destruct E as [_ E]. congruence.
Qed.

Lemma inRange_true (lo hi c : N) : inRange lo hi c = true <-> (lo <= c <= hi)%N.
Proof. unfold inRange. rewrite andb_true_iff, !N.leb_le. reflexivity. Qed.

Lemma inRange_false (lo hi c : N) : inRange lo hi c = false <-> (c < lo \/ hi < c)%N.
Proof. unfold inRange. rewrite andb_false_iff, !N.leb_gt. reflexivity. Qed.

Lemma unitsOf_bmp (c : N) : (c <= 0xFFFF)%N -> Utf16.unitsOf c = [c].
Proof.
  intros H. unfold Utf16.unitsOf.
  destruct (N.ltb_spec 0xFFFF c); [lia | reflexivity].
Qed.

Lemma unitsOf_astral (c : N) :
  (0xFFFF < c)%N -> (c <= 0x10FFFF)%N ->
  exists h l, Utf16.unitsOf c = [h; l] /\ Utf16.isHigh h = true /\ Utf16.isLow l = true /\
              (0x10000 + (h - 0xD800) * 0x400 + (l - 0xDC00))%N = c.
Proof.
  intros Hlo Hhi. unfold Utf16.unitsOf.
  destruct (N.ltb_spec 0xFFFF c) as [_|]; [|lia].
  pose proof (N.div_mod (c - 0x10000) 0x400 ltac:(lia)) as E.
  pose proof (N.mod_lt (c - 0x10000) 0x400 ltac:(lia)) as Hr.
  revert E Hr. generalize ((c - 0x10000) / 0x400)%N ((c - 0x10000) mod 0x400)%N.
  intros q r E Hr. exists (0xD800 + q)%N, (0xDC00 + r)%N.
  unfold Utf16.isHigh, Utf16.isLow. rewrite !inRange_true.
  repeat split; lia.
Qed.

Lemma codePoints_unfold (h l : N) (rest' : list N) :
  Utf16.codePoints (h :: l :: rest') =
  if Utf16.isHigh h && Utf16.isLow l
  then (0x10000 + (h - 0xD800) * 0x400 + (l - 0xDC00))%N :: Utf16.codePoints rest'
  else h :: Utf16.codePoints (l :: rest').
Proof. reflexivity. Qed.

Lemma codePoints_cons (h : N) (rest : list N) :
  (exists l rest', rest = l :: rest' /\ Utf16.isHigh h = true /\ Utf16.isLow l = true /\
      Utf16.codePoints (h :: rest) =
        (0x10000 + (h - 0xD800) * 0x400 + (l - 0xDC00))%N :: Utf16.codePoints rest') \/
  Utf16.codePoints (h :: rest) = h :: Utf16.codePoints rest.
Proof.
  destruct rest as [|l rest']; [right; reflexivity|].
  rewrite codePoints_unfold.
  destruct (Utf16.isHigh h) eqn:Hh; [|right; reflexivity].
  destruct (Utf16.isLow l) eqn:Hl; [|right; reflexivity].
  left. exists l, rest'. auto.
Qed.

Lemma scalar_not_high (c : N) : Utf16.isSurrogate c = false -> Utf16.isHigh c = false.
Proof.
  unfold Utf16.isSurrogate, Utf16.isHigh. rewrite !inRange_false. lia.
Qed.

Lemma units_cons (c : N) (cps : list N) :
  Utf16.units (c :: cps) = Utf16.unitsOf c ++ Utf16.units cps.
Proof. reflexivity. Qed.

(** Reading the code units of scalar values gives the scalar values back. *)
Lemma codePoints_units (cps : list N) :
  Forall Utf16.isScalar cps -> Utf16.codePoints (Utf16.units cps) = cps.
Proof.
  induction 1 as [|c cps [Hc Hs] _ IH]; [reflexivity|].
  rewrite units_cons.
  destruct (N.ltb_spec 0xFFFF c) as [Hlt|Hle].
  - destruct (unitsOf_astral c Hlt Hc) as (h & l & -> & Hh & Hl & E).
    change ([h; l] ++ Utf16.units cps) with (h :: l :: Utf16.units cps).
    destruct (codePoints_cons h (l :: Utf16.units cps))
      as [(l' & rest' & [= <- <-] & _ & _ & ->) | H].
    + rewrite IH, E. reflexivity.
    + rewrite codePoints_unfold, Hh, Hl in H. discriminate H || (injection H as H _; lia).
  - rewrite unitsOf_bmp by lia.
    change ([c] ++ Utf16.units cps) with (c :: Utf16.units cps).
    apply scalar_not_high in Hs.
    destruct (codePoints_cons c (Utf16.units cps))
      as [(l' & rest' & _ & H & _) | ->]; [congruence|].
    rewrite IH. reflexivity.
Qed.

Lemma units_codePoints_upto (n : nat) (s : list N) :
  (length s <= n)%nat -> Utf16.isString s -> Utf16.units (Utf16.codePoints s) = s.
Proof.
  revert s. induction n as [|n IH]; intros s Hn Hs.
  - destruct s; [reflexivity | simpl in Hn; lia].
  - destruct s as [|h rest]; [reflexivity|].
    unfold Utf16.isString in *. inversion Hs as [|? ? Hh Hrest]; subst.
    simpl in Hn.
    destruct (codePoints_cons h rest)
      as [(l & rest' & -> & Hhi & Hlo & ->) | ->].
    + inversion Hrest as [|? ? Hl Hrest']; subst. simpl in Hn.
      rewrite units_cons, IH by (assumption || lia).
      unfold Utf16.isHigh, Utf16.isLow in *. rewrite inRange_true in Hhi, Hlo.
      unfold Utf16.unitsOf.
      destruct (N.ltb_spec 0xFFFF (0x10000 + (h - 0xD800) * 0x400 + (l - 0xDC00))%N); [|lia].
      replace (0x10000 + (h - 0xD800) * 0x400 + (l - 0xDC00) - 0x10000)%N
        with ((l - 0xDC00) + (h - 0xD800) * 0x400)%N by lia.
      rewrite N.div_add, N.Div0.mod_add by lia.
      rewrite N.div_small, N.mod_small by lia.
      simpl. f_equal; [lia | f_equal; lia].
    + rewrite units_cons, IH by (assumption || lia).
      rewrite unitsOf_bmp by lia. reflexivity.
Qed.

(** Writing the code points of a string as code units gives the string
    back. *)
Lemma units_codePoints (s : list N) :
  Utf16.isString s -> Utf16.units (Utf16.codePoints s) = s.
Proof. apply (units_codePoints_upto (length s)). lia. Qed.

Lemma units_nil (cps : list N) : Utf16.units cps = [] <-> cps = [].
Proof.
  split; [|intros ->; reflexivity].
  destruct cps as [|c cps]; [reflexivity|].
  rewrite units_cons. unfold Utf16.unitsOf. destruct (_ <? _)%N; discriminate.
Qed.

Lemma units_isString (cps : list N) :
  Forall Utf16.isScalar cps -> Utf16.isString (Utf16.units cps).
Proof.
  unfold Utf16.isString.
  induction 1 as [|c cps [Hc Hs] _ IH]; [constructor|].
  rewrite units_cons. apply Forall_app. split; [|exact IH].
  destruct (N.ltb_spec 0xFFFF c) as [Hlt|Hle].
  - destruct (unitsOf_astral c Hlt Hc) as (h & l & -> & Hh & Hl & _).
    unfold Utf16.isHigh, Utf16.isLow in *. rewrite inRange_true in Hh, Hl.
    repeat constructor; lia.
  - rewrite unitsOf_bmp by lia. repeat constructor. lia.
Qed.

Lemma units_wellFormed (cps : list N) :
  Forall Utf16.isScalar cps -> Utf16.wellFormed (Utf16.units cps).
Proof.
  intros H. split; [apply units_isString, H|]. rewrite codePoints_units; assumption.
Qed.

Lemma wellFormed_units (s : list N) :
  Utf16.wellFormed s ->
  s = Utf16.units (Utf16.codePoints s) /\ Forall Utf16.isScalar (Utf16.codePoints s).
Proof.
  intros [Hs Hc]. split; [symmetry; apply units_codePoints, Hs | exact Hc].
Qed.

Lemma trimStart_flat_map (g : N -> list N) (cps : list N) :
  Forall (spaceAware g) cps -> trimStart (flat_map g cps) = flat_map g (trimStart cps).
Proof.
  induction 1 as [|c cps [H1 H2] _ IH]; [reflexivity|].
  simpl. destruct (isWhiteSpace c) eqn:E.
  - rewrite H1 by reflexivity. simpl. rewrite E. exact IH.
  - destruct (H2 eq_refl) as (u & r & Hg & Hu).
    change (flat_map g (c :: cps)) with (g c ++ flat_map g cps).
    rewrite Hg. simpl. rewrite Hu. reflexivity.
Qed.

Lemma unitsOf_spaceAware (c : N) :
  Utf16.isScalar c -> spaceAware Utf16.unitsOf c /\ spaceAware (fun x => rev (Utf16.unitsOf x)) c.
Proof.
  intros [Hc Hs]. unfold spaceAware.
  destruct (N.ltb_spec 0xFFFF c) as [Hlt|Hle].
  - destruct (unitsOf_astral c Hlt Hc) as (h & l & E & Hh & Hl & _).
    assert (isWhiteSpace c = false) as Hw.
    { destruct (isWhiteSpace c) eqn:W; [|reflexivity]. apply isWhiteSpace_bmp in W. lia. }
    assert (isWhiteSpace h = false /\ isWhiteSpace l = false) as [Wh Wl].
    { unfold Utf16.isHigh, Utf16.isLow in *. rewrite inRange_true in Hh, Hl.
      split; apply surrogate_not_space; apply inRange_true; lia. }
    rewrite E. split; (split; [congruence|]); intros _; simpl; eauto.
  - rewrite unitsOf_bmp by lia.
    split; (split; [reflexivity|]); intros W; simpl; eauto.
Qed.

Lemma rev_flat_map {A B} (g : A -> list B) (l : list A) :
  rev (flat_map g l) = flat_map (fun x => rev (g x)) (rev l).
Proof.
  induction l as [|a l IH]; [reflexivity|].
  simpl. rewrite rev_app_distr, IH, flat_map_app. simpl. rewrite app_nil_r. reflexivity.
Qed.

Lemma trimStart_keeps (P : N -> Prop) (s : list N) : Forall P s -> Forall P (trimStart s).
Proof.
  induction 1 as [|c s Hc Hs IH]; [constructor|].
  simpl. destruct (isWhiteSpace c); [exact IH | constructor; assumption].
Qed.

(** [trim] on the code units is [trim] on the code points. *)
Lemma trim_units (cps : list N) :
  Forall Utf16.isScalar cps -> trim (Utf16.units cps) = Utf16.units (trim cps).
Proof.
  intros H. unfold trim, Utf16.units.
  rewrite trimStart_flat_map
    by (eapply Forall_impl; [exact H | intros c Hc; apply unitsOf_spaceAware, Hc]).
  rewrite rev_flat_map.
  rewrite trimStart_flat_map.
  - rewrite rev_flat_map. apply flat_map_ext. intros c. apply rev_involutive.
  - eapply Forall_impl; [apply Forall_rev, trimStart_keeps, H|].
    intros c Hc. apply unitsOf_spaceAware, Hc.
Qed.

Lemma collapseFrom_units (b : bool) (cps : list N) :
  Forall Utf16.isScalar cps ->
  collapseFrom b (Utf16.units cps) = Utf16.units (collapseFrom b cps).
Proof.
  intros H. revert b. induction H as [|c cps Hc _ IH]; intros b; [reflexivity|].
  rewrite units_cons.
  destruct (unitsOf_spaceAware c Hc) as [[H1 H2] _].
  simpl. destruct (isWhiteSpace c) eqn:W.
  - rewrite H1 by reflexivity. simpl. rewrite W.
    destruct b; rewrite IH; reflexivity.
  - rewrite units_cons, <- IH.
    destruct Hc as [Hc Hs]. destruct (N.ltb_spec 0xFFFF c) as [Hlt|Hle].
    + destruct (unitsOf_astral c Hlt Hc) as (h & l & -> & Hh & Hl & _).
      assert (isWhiteSpace h = false /\ isWhiteSpace l = false) as [Wh Wl].
      { unfold Utf16.isHigh, Utf16.isLow in *. rewrite inRange_true in Hh, Hl.
        split; apply surrogate_not_space; apply inRange_true; lia. }
      simpl. rewrite Wh, Wl. reflexivity.
    + rewrite unitsOf_bmp by lia. simpl. rewrite W. reflexivity.
Qed.

Lemma collapseFrom_scalar (b : bool) (s : list N) :
  Forall Utf16.isScalar s -> Forall Utf16.isScalar (collapseFrom b s).
Proof.
  intros H. revert b. induction H as [|c s Hc _ IH]; intros b; [constructor|].
  simpl. destruct (isWhiteSpace c); [destruct b|]; auto.
  constructor; [|apply IH]. split; [lia | reflexivity].
Qed.

(** A [replace] with a [u]-flagged class, on the code units of scalar
    values, filters the scalar values. *)
Lemma replaceClass_units (inClass : N -> bool) (cps : list N) :
  Forall Utf16.isScalar cps ->
  Utf16.replaceClass inClass (Utf16.units cps) =
  Utf16.units (filter (fun c => inClass c = false) cps).
Proof. intros H. unfold Utf16.replaceClass. rewrite codePoints_units by exact H. reflexivity. Qed.

Lemma removeRange_units (lo hi : N) (cps : list N) :
  Forall Utf16.isScalar cps ->
  Utf16.removeRange lo hi (Utf16.units cps) = Utf16.units (removeRange lo hi cps).
Proof. apply replaceClass_units. Qed.

Lemma filter_keeps {A} (P : A -> Prop) `{!forall x, Decision (P x)} (Q : A -> Prop)
    (l : list A) : Forall Q l -> Forall Q (filter P l).
Proof.
  induction 1 as [|a l Ha _ IH]; [constructor|].
  rewrite filter_cons. destruct (decide (P a)); [constructor|]; assumption.
Qed.

(** On the code units of scalar values the normalisation of the code is
    the normalisation of the builder, which reads code points. *)
Lemma normalizedText_units (cps : list N) :
  Forall Utf16.isScalar cps ->
  Utf16.normalizedText (Utf16.units cps) = Utf16.units (Builder.normalizedText cps).
Proof.
  intros H. unfold Utf16.normalizedText, Builder.normalizedText.
  rewrite !removeRange_units by (repeat apply removeRange_Forall; exact H).
  apply trim_units. repeat apply removeRange_Forall. exact H.
Qed.

Lemma normalizedText_scalar (cps : list N) :
  Forall Utf16.isScalar cps -> Forall Utf16.isScalar (Builder.normalizedText cps).
Proof.
  intros H. unfold Builder.normalizedText.
  apply trim_Forall. repeat apply removeRange_Forall. exact H.
Qed.

Section WithUnicode.
Context {U : Unicode}.

Lemma stripSymbols_units (cps : list N) :
  Forall Utf16.isScalar cps ->
  Utf16.stripSymbols (Utf16.units cps) = Utf16.units (Builder.stripSymbols cps).
Proof.
  intros H. unfold Utf16.stripSymbols, Builder.stripSymbols.
  rewrite removeRange_units by exact H.
  rewrite replaceClass_units by (apply removeRange_Forall; exact H).
  assert (filter (fun c => negb (isLetter c || isNumber c || isWhiteSpace c) = false)
            (removeRange 0x1F300 0x1F9FF cps) =
          filter (fun c => isLetter c || isNumber c || isWhiteSpace c = true)
            (removeRange 0x1F300 0x1F9FF cps)) as ->.
  { apply list_filter_iff. intros c. apply negb_false_iff. }
  unfold collapseSpaces.
  rewrite collapseFrom_units by (apply filter_keeps, removeRange_Forall; exact H).
  apply trim_units, collapseFrom_scalar, filter_keeps, removeRange_Forall. exact H.
Qed.

Lemma stripSymbols_scalar (cps : list N) :
  Forall Utf16.isScalar cps -> Forall Utf16.isScalar (Builder.stripSymbols cps).
Proof.
  intros H. unfold Builder.stripSymbols, collapseSpaces.
  apply trim_Forall, collapseFrom_scalar, filter_keeps, removeRange_Forall. exact H.
Qed.

End WithUnicode.

End Utf16Facts.

(** ** Segment builder: what every stage preserves *)

Section BuilderInvariants.
Context {U : Unicode}.
Import Builder.
Local Open Scope Q_scope.

Lemma Qle_bool_false (a b : Q) : Qle_bool a b = false -> b < a.
Proof.
  intros H. apply Qnot_le_lt. intros Hle. apply Qle_bool_iff in Hle. congruence.
Qed.

Section OneFrame.
Variable P : textEntry -> Prop.
Variable ts : Q.
Hypothesis P_fresh : forall n pos vx vy,
  detected n -> P (mkText n ts (ts + frameInterval) pos vx vy false None).
Hypothesis P_extend : forall e, P e -> closed e = false -> P (set_end (ts + frameInterval) e).
Hypothesis P_xy : forall e vx vy, P e -> P (set_xy vx vy e).
Hypothesis P_close : forall e, P e -> closed e = false -> start e < ts -> P (close_at ts e).

Lemma addDetection_Forall n isObject tx ty pos texts :
  detected n -> Forall P texts -> Forall P (addDetection ts n isObject tx ty pos texts).
Proof.
  intros Hn H. unfold addDetection.
  destruct (findIndex _ texts) as [k|] eqn:F.
  - destruct (findIndex_Some _ _ _ F) as (e & He & Hp). rewrite He.
    destruct (Qle_bool _ _).
    + apply Forall_alter; [exact H|]. intros e' He' HP. rewrite He in He'.
      injection He' as <-. unfold sameOpenText in Hp.
      apply andb_true_iff in Hp. destruct Hp as [Hc _].
      apply negb_true_iff in Hc.
      destruct (isObject && _); [apply P_xy|]; apply P_extend; assumption.
    + apply Forall_app. split; [exact H|]. constructor; [|constructor].
      apply P_fresh. exact Hn.
  - apply Forall_app. split; [exact H|]. constructor; [|constructor].
    apply P_fresh. exact Hn.
Qed.

Lemma normalizedText_detected (s : ustring) :
  normalizedText s <> [] -> detected (normalizedText s).
Proof. intros H. split; [exact H | eauto]. Qed.

Lemma onText_Forall textPosition t texts texts' :
  onText ts textPosition t texts = Some texts' -> Forall P texts -> Forall P texts'.
Proof.
  unfold onText. destruct t as [|s|txt tx ty pos|].
  - intros [= <-]. auto.
  - destruct s as [|c s]; [intros [= <-]; auto|].
    destruct (normalizedText (c :: s)) as [|d n] eqn:E; intros [= <-]; auto.
    intros H. apply addDetection_Forall; [|exact H].
    rewrite <- E. apply normalizedText_detected. rewrite E. discriminate.
  - destruct (normalizedText (default [] txt)) as [|d n] eqn:E; intros [= <-]; auto.
    intros H. apply addDetection_Forall; [|exact H].
    rewrite <- E. apply normalizedText_detected. rewrite E. discriminate.
  - discriminate.
Qed.

Lemma forEachText_Forall textPosition raw texts :
  Forall P texts -> Forall P (forEachText ts textPosition raw texts).1.
Proof.
  revert texts. induction raw as [|t raw IH]; intros texts H; simpl; [exact H|].
  destruct (onText ts textPosition t texts) as [texts'|] eqn:E; [|exact H].
  apply IH. eapply onText_Forall; eauto.
Qed.

Lemma closeIfGone_P current e : P e -> P (closeIfGone ts current e).
Proof.
  intros H. unfold closeIfGone. destruct (closed e) eqn:Ec; [exact H|].
  destruct (negb _ && negb (Qle_bool ts (start e))) eqn:E; [|exact H].
  apply andb_true_iff in E. destruct E as [_ E]. apply negb_true_iff in E.
  apply P_close; auto. apply Qle_bool_false. exact E.
Qed.

Lemma onFrame_Forall_at (f : frame) (texts : list textEntry) :
  timestamp f = ts -> Forall P texts -> Forall P (onFrame texts f).
Proof.
  intros Hts H. unfold onFrame. destruct (result f) as [|raw tp]; [exact H|].
  rewrite Hts.
  pose proof (forEachText_Forall tp raw texts H) as H1.
  destruct (forEachText ts tp raw texts) as [texts' ok]. simpl in H1.
  destruct ok; [|exact H1].
  destruct (currentTextsNormalized raw) as [cur|]; [|exact H1].
  apply Forall_fmap. eapply Forall_impl; [exact H1|].
  intros e He. simpl. apply closeIfGone_P. exact He.
Qed.

End OneFrame.

(** The later stages: filter, sort and final merge. *)
Section LaterStages.
Variable P : textEntry -> Prop.
Hypothesis P_merge : forall m t,
  P m -> P t ->
  P (set_end (Math_max (end_ m) (end_ t)) (set_start (Math_min (start m) (start t)) m)).

Lemma insertByStart_Forall t sorted :
  P t -> Forall P sorted -> Forall P (insertByStart t sorted).
Proof.
  intros Ht. induction 1 as [|s l Hs Hl IH]; simpl.
  - constructor; [exact Ht | constructor].
  - destruct (Qle_bool _ _); constructor; auto.
Qed.

Lemma sortByStart_Forall l : Forall P l -> Forall P (sortByStart l).
Proof.
  unfold sortByStart.
  assert (Forall P (@nil textEntry)) as Hnil by constructor.
  revert Hnil. generalize (@nil textEntry).
  induction l as [|t l IH]; intros acc Hacc H; simpl; [exact Hacc|].
  inversion H; subst. apply IH; [|assumption].
  apply insertByStart_Forall; assumption.
Qed.

Lemma mergeInto_Forall merged t :
  Forall P merged -> P t -> Forall P (mergeInto merged t).
Proof.
  intros H Ht. unfold mergeInto. destruct (findIndex _ merged) as [k|].
  - apply Forall_alter; [exact H|]. intros m Hm HP. apply P_merge; assumption.
  - apply Forall_app. split; [exact H|]. constructor; [exact Ht | constructor].
Qed.

Lemma merge_Forall l acc :
  Forall P acc -> Forall P l -> Forall P (fold_left mergeInto l acc).
Proof.
  revert acc. induction l as [|t l IH]; intros acc Hacc H; simpl; [exact Hacc|].
  inversion H; subst. apply IH; [|assumption]. apply mergeInto_Forall; assumption.
Qed.

Lemma analyze_Forall frames :
  Forall P (collected frames) -> Forall P (analyze frames).
Proof.
  intros H. unfold analyze. apply merge_Forall; [constructor|].
  apply sortByStart_Forall. apply Forall_filter_keep. exact H.
Qed.

End LaterStages.

End BuilderInvariants.

Section Sorting.
Context {U : Unicode}.
Import Builder.
Local Open Scope Q_scope.

(** Sorting. *)
Lemma insertByStart_starts (t : textEntry) (sorted : list textEntry) :
  StronglySorted Qle (map start sorted) ->
  StronglySorted Qle (map start (insertByStart t sorted)).
Proof.
  induction sorted as [|s l IH]; intros Hs; simpl.
  - repeat constructor.
  - inversion Hs as [|x xs Hl Hall]; subst.
    destruct (Qle_bool (start s) (start t)) eqn:E; simpl.
    + constructor; [apply IH; exact Hl|].
      apply Qle_bool_iff in E. clear IH Hs Hl.
      induction l as [|s' l IHl]; simpl.
      * constructor; [exact E | constructor].
      * inversion Hall; subst. destruct (Qle_bool (start s') (start t)); simpl.
        -- constructor; [assumption | apply IHl; assumption].
        -- constructor; [exact E | constructor; assumption].
    + apply Qle_bool_false in E. constructor; [exact Hs|].
      constructor; [lra|]. eapply Forall_impl; [exact Hall|]. intros q Hq. simpl in Hq. lra.
Qed.

Lemma sortByStart_sorted (l : list textEntry) :
  StronglySorted Qle (map start (sortByStart l)).
Proof.
  unfold sortByStart.
  assert (StronglySorted Qle (map start (@nil textEntry))) as Hnil by constructor.
  revert Hnil. generalize (@nil textEntry).
  induction l as [|t l IH]; intros acc Hacc; simpl; [exact Hacc|].
  apply IH. apply insertByStart_starts. exact Hacc.
Qed.

End Sorting.

(** ** Segment builder: normal forms and the closing contract *)

Section BuilderContracts.
Context {U : Unicode}.
Import Builder.
Local Open Scope Q_scope.

Lemma fold_onFrame_Forall (P : textEntry -> Prop) (frames : list frame) :
  (forall f acc, Forall P acc -> Forall P (onFrame acc f)) ->
  forall acc, Forall P acc -> Forall P (fold_left onFrame frames acc).
Proof.
  intros Hstep. induction frames as [|f frames IH]; intros acc H; simpl; [exact H|].
  apply IH, Hstep, H.
Qed.

Lemma onFrame_goodText (f : frame) (acc : list textEntry) :
  Forall goodText acc -> Forall goodText (onFrame acc f).
Proof.
  apply (onFrame_Forall_at goodText (timestamp f)); try reflexivity.
  - intros n pos vx vy [Hn [s ->]]. split; [exact Hn|].
    simpl. apply normalizedText_idempotent.
  - intros e He _. exact He.
  - intros e vx vy He. exact He.
  - intros e He _ _. exact He.
Qed.

Lemma collected_goodText (frames : list frame) : Forall goodText (collected frames).
Proof.
  unfold collected. destruct (last frames) as [lastF|]; [|constructor].
  apply Forall_fmap.
  eapply Forall_impl; [apply fold_onFrame_Forall; [apply onFrame_goodText | constructor]|].
  intros t Ht. simpl. unfold closeAtEnd. destruct (closed t); exact Ht.
Qed.

Lemma analyze_goodText (frames : list frame) : Forall goodText (analyze frames).
Proof.
  apply analyze_Forall; [|apply collected_goodText].
  intros m t Hm _. exact Hm.
Qed.

Lemma closesBy_mono (n n' : Z) (t : textEntry) :
  (n <= n')%Z -> closesBy n t -> closesBy n' t.
Proof.
  unfold closesBy, frameInterval. intros Hn (H1 & H2 & H3).
  assert (inject_Z (n - 1) <= inject_Z (n' - 1)) by (rewrite <- Zle_Qle; lia).
  repeat split; lra.
Qed.

Lemma onFrame_closesBy (f : frame) (acc : list textEntry) :
  Forall (closesBy (frameNum f)) acc -> Forall (closesBy (frameNum f)) (onFrame acc f).
Proof.
  apply (onFrame_Forall_at (closesBy (frameNum f)) (timestamp f)); try reflexivity;
    unfold closesBy, timestamp, frameInterval; simpl.
  - intros. repeat split; lra.
  - intros e (H1 & H2 & H3) _. repeat split; lra.
  - intros e vx vy He. exact He.
  - intros e (H1 & H2 & H3) _ Hlt. repeat split; lra.
Qed.

Lemma last_default {A B} (g : A -> B) (a : A) (l : list A) (d : B) :
  default d (g <$> last (a :: l)) = default (g a) (g <$> last l).
Proof.
  destruct l as [|b l]; [reflexivity|].
  change (last (a :: b :: l)) with (last (b :: l)).
  destruct (last (b :: l)) as [x|] eqn:E; [reflexivity|].
  apply last_None in E. discriminate.
Qed.

Lemma fold_onFrame_closesBy (frames : list frame) (n0 : Z) (acc : list textEntry) :
  Sorted Z.le (n0 :: map frameNum frames) ->
  Forall (closesBy n0) acc ->
  Forall (closesBy (default n0 (frameNum <$> last frames))) (fold_left onFrame frames acc).
Proof.
  revert n0 acc. induction frames as [|f frames IH]; intros n0 acc Hs H; simpl; [exact H|].
  inversion Hs as [|? ? Hs' Hd]; subst. inversion Hd; subst.
  rewrite last_default.
  apply IH; [exact Hs'|]. apply onFrame_closesBy.
  eapply Forall_impl; [exact H|]. intros t. apply closesBy_mono. assumption.
Qed.

Lemma collected_closed (frames : list frame) (lastF : frame) :
  framesInOrder frames -> last frames = Some lastF ->
  Forall (fun t => start t < end_ t /\ end_ t <= timestamp lastF + frameInterval)
         (collected frames).
Proof.
  unfold framesInOrder. intros Hs Hl. unfold collected. rewrite Hl.
  destruct frames as [|f frames]; [discriminate|].
  assert (Forall (closesBy (frameNum lastF)) (fold_left onFrame (f :: frames) [])) as H.
  { pose proof (fold_onFrame_closesBy (f :: frames) (frameNum f) []) as H.
    rewrite Hl in H. apply H; [|constructor].
    constructor; [exact Hs | constructor; lia]. }
  apply Forall_fmap. eapply Forall_impl; [exact H|].
  intros t (H1 & H2 & H3). simpl. unfold closeAtEnd, timestamp, frameInterval in *.
  destruct (closed t); simpl; split; lra.
Qed.

Lemma Math_min_le (a b : Q) : Math_min a b <= a.
Proof.
  unfold Math_min. destruct (Qle_bool a b) eqn:E; [lra|].
  apply Qle_bool_false in E. lra.
Qed.

Lemma Math_max_ge (a b : Q) : a <= Math_max a b.
Proof.
  unfold Math_max. destruct (Qle_bool a b) eqn:E; [|lra].
  apply Qle_bool_iff in E. exact E.
Qed.

Lemma Math_max_lub (a b c : Q) : a <= c -> b <= c -> Math_max a b <= c.
Proof. unfold Math_max. destruct (Qle_bool a b); auto. Qed.

End BuilderContracts.

Section ScalarTexts.
Context {U : Unicode}.
Import Builder.
Local Open Scope Q_scope.

Lemma addDetection_scalar ts n isObject tx ty pos texts :
  Forall Utf16.isScalar n -> Forall scalarText texts ->
  Forall scalarText (addDetection ts n isObject tx ty pos texts).
Proof.
  intros Hn H. unfold addDetection.
  assert (Forall scalarText
            (texts ++ [mkText n ts (ts + frameInterval) pos
                         (if isObject then num_or tx 50 else 50)
                         (if isObject then num_or ty 50 else 50) false None])) as Hfresh.
  { apply Forall_app. split; [exact H|]. constructor; [exact Hn | constructor]. }
  destruct (findIndex _ texts) as [k|]; [|exact Hfresh].
  destruct (texts !! k) as [e|]; [|exact H].
  destruct (Qle_bool _ _); [|exact Hfresh].
  apply Forall_alter; [exact H|]. intros e' _ He'.
  destruct (isObject && _); exact He'.
Qed.

Lemma onText_scalar ts textPosition t texts texts' :
  rawWellFormed t -> onText ts textPosition t texts = Some texts' ->
  Forall scalarText texts -> Forall scalarText texts'.
Proof.
  unfold onText, rawWellFormed. destruct t as [|s|txt tx ty pos|]; intros Ht.
  - intros [= <-]. auto.
  - destruct s as [|c s]; [intros [= <-]; auto|].
    pose proof (normalizedText_scalar _ Ht) as Hn.
    destruct (normalizedText (c :: s)) as [|d n]; intros [= <-]; auto.
    apply addDetection_scalar, Hn.
  - pose proof (normalizedText_scalar _ Ht) as Hn.
    destruct (normalizedText (default [] txt)) as [|d n]; intros [= <-]; auto.
    apply addDetection_scalar, Hn.
  - discriminate.
Qed.

Lemma forEachText_scalar ts textPosition raw texts :
  Forall rawWellFormed raw -> Forall scalarText texts ->
  Forall scalarText (forEachText ts textPosition raw texts).1.
Proof.
  intros Hraw. revert texts. induction Hraw as [|t raw Ht _ IH]; intros texts H; simpl;
    [exact H|].
  destruct (onText ts textPosition t texts) as [texts'|] eqn:E; [|exact H].
  apply IH. eapply onText_scalar; eauto.
Qed.

Lemma onFrame_scalar (f : frame) (texts : list textEntry) :
  frameWellFormed f -> Forall scalarText texts -> Forall scalarText (onFrame texts f).
Proof.
  unfold frameWellFormed, onFrame. intros Hf H.
  destruct (result f) as [|raw tp]; [exact H|].
  pose proof (forEachText_scalar (timestamp f) tp raw texts Hf H) as H1.
  destruct (forEachText (timestamp f) tp raw texts) as [texts' ok]. simpl in H1.
  destruct ok; [|exact H1].
  destruct (currentTextsNormalized raw) as [cur|]; [|exact H1].
  apply Forall_fmap. eapply Forall_impl; [exact H1|].
  intros e He. simpl. unfold closeIfGone.
  destruct (closed e); [exact He|]. destruct (_ && _); exact He.
Qed.

Lemma fold_onFrame_scalar (frames : list frame) (acc : list textEntry) :
  Forall frameWellFormed frames -> Forall scalarText acc ->
  Forall scalarText (fold_left onFrame frames acc).
Proof.
  intros Hf. revert acc. induction Hf as [|f frames Hf _ IH]; intros acc H; simpl;
    [exact H|].
  apply IH, onFrame_scalar; assumption.
Qed.

Lemma analyze_scalar (frames : list frame) :
  Forall frameWellFormed frames -> Forall scalarText (analyze frames).
Proof.
  intros Hf. apply analyze_Forall.
  - intros m t Hm _. exact Hm.
  - unfold collected. destruct (last frames) as [lastF|]; [|constructor].
    apply Forall_fmap.
    eapply Forall_impl; [apply fold_onFrame_scalar; [exact Hf | constructor]|].
    intros t Ht. simpl. unfold closeAtEnd. destruct (closed t); exact Ht.
Qed.

End ScalarTexts.



(** C6. With the frames in the order of their numbers, every text segment
    of the response ends no later than the last frame's timestamp plus one
    frame interval, and no earlier than it starts. *)
Theorem closing_contract {U : Unicode} (frames : list Builder.frame)
    (lastFrame : Builder.frame) :
  framesInOrder frames -> last frames = Some lastFrame ->
  Forall (fun t => (Builder.end_ t <= Builder.timestamp lastFrame + Builder.frameInterval /\
                    Builder.start t <= Builder.end_ t)%Q)
         (Builder.analyze frames).
Proof.
  intros Hs Hl.
  eapply Forall_impl;
    [apply (analyze_Forall
              (fun t => (Builder.start t < Builder.end_ t /\
                         Builder.end_ t <= Builder.timestamp lastFrame + Builder.frameInterval)%Q))|].
  - intros m t [H1 H2] [H3 H4]. simpl. split.
    + pose proof (Math_min_le (Builder.start m) (Builder.start t)).
      pose proof (Math_max_ge (Builder.end_ m) (Builder.end_ t)). lra.
    + apply Math_max_lub; assumption.
  - apply collected_closed; assumption.
  - intros t [H1 H2]. simpl in *. split; lra.
Qed.

Lemma closing_contract_witness :
  framesInOrder saleFrames /\
  Forall (fun t => (Builder.end_ t <=
                      Builder.timestamp (seen 6 ["SALE"%string]) + Builder.frameInterval /\
                    Builder.start t <= Builder.end_ t)%Q)
         (@Builder.analyze asciiTables saleFrames).
Proof.
  assert (framesInOrder saleFrames) as Hs.
  { unfold framesInOrder, saleFrames. simpl. repeat constructor; lia. }
  split; [exact Hs|].
  apply (@closing_contract asciiTables saleFrames (seen 6 ["SALE"%string]) Hs).
  reflexivity.
Defined.

(** ** Segment builder: the merge contract *)

Section MergeContract.
Context {U : Unicode}.
Import Builder.
Local Open Scope Q_scope.

Lemma ustring_eqb_refl (a : ustring) : ustring_eqb a a = true.
Proof. unfold ustring_eqb. apply bool_decide_eq_true. reflexivity. Qed.

Lemma Qle_bool_true (a b : Q) : a <= b -> Qle_bool a b = true.
Proof. apply Qle_bool_iff. Qed.

Lemma Qle_bool_lt (a b : Q) : b < a -> Qle_bool a b = false.
Proof.
  intros H. destruct (Qle_bool a b) eqn:E; [|reflexivity].
  apply Qle_bool_iff in E. lra.
Qed.

Lemma keepByText_text (t t' : textEntry) :
  text t = text t' -> keepByText t = keepByText t'.
Proof. unfold keepByText. intros ->. reflexivity. Qed.

Lemma onText_string ts tp (s : ustring) texts :
  s <> [] -> normalizedText s = s ->
  onText ts tp (RString s) texts =
  Some (addDetection ts s false None None (str_or tp "center") texts).
Proof.
  intros Hne Hn. unfold onText. destruct s as [|c r]; [contradiction|].
  rewrite Hn. reflexivity.
Qed.

(** Frames in which one text [s], already in normal form, is read or not. *)
Section OneText.
Variable s : ustring.
Hypothesis s_nonempty : s <> [].
Hypothesis s_normal : normalizedText s = s.

Lemma onFrame_absent (texts : list textEntry) (k : Z) :
  onFrame texts (absentFrame k) = map (closeIfGone (timestamp (absentFrame k)) []) texts.
Proof. reflexivity. Qed.

Lemma onFrame_seen (texts : list textEntry) (k : Z) :
  onFrame texts (seenFrame s k) =
  map (closeIfGone (timestamp (seenFrame s k)) [stripForCompare s])
      (addDetection (timestamp (seenFrame s k)) s false None None "center" texts).
Proof.
  unfold onFrame, seenFrame. cbn [result forEachText].
  rewrite onText_string by assumption. reflexivity.
Qed.

Lemma closeIfGone_visible (ts : Q) (e : textEntry) :
  text e = s -> closeIfGone ts [stripForCompare s] e = e.
Proof.
  intros H. unfold closeIfGone. destruct (closed e); [reflexivity|].
  simpl. rewrite H, ustring_eqb_refl. reflexivity.
Qed.

Lemma closeIfGone_closed (ts : Q) (cur : list ustring) (e : textEntry) :
  closed e = true -> closeIfGone ts cur e = e.
Proof. intros H. unfold closeIfGone. rewrite H. reflexivity. Qed.

Lemma closeIfGone_gone (ts : Q) (e : textEntry) :
  closed e = false -> start e < ts -> closeIfGone ts [] e = close_at ts e.
Proof.
  intros Hc Hlt. unfold closeIfGone. rewrite Hc. simpl.
  rewrite Qle_bool_lt by exact Hlt. reflexivity.
Qed.

Lemma addDetection_nil (ts : Q) :
  addDetection ts s false None None "center" [] = [freshAt s ts].
Proof. reflexivity. Qed.

Lemma addDetection_closed (ts : Q) (e : textEntry) :
  closed e = true ->
  addDetection ts s false None None "center" [e] = [e; freshAt s ts].
Proof.
  intros Hc. unfold addDetection. simpl. unfold sameOpenText. rewrite Hc. reflexivity.
Qed.

Lemma addDetection_open (ts : Q) (e : textEntry) :
  closed e = false -> text e = s -> ts - end_ e <= frameInterval ->
  addDetection ts s false None None "center" [e] = [set_end (ts + frameInterval) e].
Proof.
  intros Hc Ht Hgap. unfold addDetection. simpl. unfold sameOpenText.
  rewrite Hc, Ht, ustring_eqb_refl. simpl.
  rewrite Qle_bool_true by exact Hgap. reflexivity.
Qed.

(** A run of frames without text leaves closed entries as they are. *)
Lemma absent_run_closed (ks : list Z) (texts : list textEntry) :
  Forall (fun e => closed e = true) texts ->
  fold_left onFrame (map absentFrame ks) texts = texts.
Proof.
  intros H. induction ks as [|k ks IH]; simpl; [reflexivity|].
  rewrite onFrame_absent.
  replace (map (closeIfGone (timestamp (absentFrame k)) []) texts) with texts; [exact IH|].
  clear IH. induction H as [|e l He Hl IH]; [reflexivity|].
  simpl. rewrite closeIfGone_closed by exact He. f_equal. exact IH.
Qed.

(** The frames after the last sighting and the closing at the end of the
    stream: the entry that is still open gets its end one frame interval
    after the frame [j] it was last seen in. *)
Lemma tail_run (pre : list textEntry) (l : textEntry) (j n : nat) :
  (j <= n)%nat ->
  Forall (fun e => closed e = true) pre ->
  closed l = false -> start l < frameTime (S j) ->
  exists l',
    map (closeAtEnd (Z.of_nat n))
        (fold_left onFrame (map absentFrame (map Z.of_nat (seq (S j) (n - j)))) (pre ++ [l]))
      = pre ++ [l'] /\
    text l' = text l /\ start l' = start l /\ end_ l' == frameTime j + frameInterval.
Proof.
  intros Hn Hpre Hc Hlt.
  assert (forall v, map (closeAtEnd v) pre = pre) as HpreEnd.
  { intros v. clear -Hpre. induction Hpre as [|e r He Hr IH]; [reflexivity|].
    simpl. unfold closeAtEnd at 1. rewrite He. f_equal. exact IH. }
  destruct (n - j)%nat as [|r] eqn:E.
  - assert (n = j) as -> by lia. simpl.
    rewrite map_app, HpreEnd. simpl. unfold closeAtEnd. rewrite Hc.
    eexists. split; [reflexivity|]. split; [reflexivity|]. split; [reflexivity|].
    simpl. unfold frameTime, frameInterval. lra.
  - simpl. rewrite onFrame_absent, map_app. simpl.
    rewrite closeIfGone_gone by assumption.
    replace (map (closeIfGone (timestamp (absentFrame (Z.of_nat (S j)))) []) pre) with pre.
    2:{ clear -Hpre. induction Hpre as [|e r' He Hr IH]; [reflexivity|].
        simpl. rewrite closeIfGone_closed by exact He. f_equal. exact IH. }
    rewrite absent_run_closed.
    2:{ apply Forall_app. split; [exact Hpre|]. constructor; [reflexivity | constructor]. }
    rewrite map_app, HpreEnd. simpl.
    eexists. split; [reflexivity|]. split; [reflexivity|]. split; [reflexivity|].
    simpl end_. unfold timestamp, absentFrame, frameTime, frameInterval. simpl frameNum.
    rewrite Nat2Z.inj_succ.
    replace (Z.succ (Z.of_nat j) - 1)%Z with ((Z.of_nat j - 1) + 1)%Z by lia.
    rewrite inject_Z_plus. change (inject_Z 1) with 1. lra.
Qed.

Lemma frameTime_S (k : nat) : frameTime (S k) == frameTime k + 0.5.
Proof.
  unfold frameTime. rewrite Nat2Z.inj_succ.
  replace (Z.succ (Z.of_nat k) - 1)%Z with ((Z.of_nat k - 1) + 1)%Z by lia.
  rewrite inject_Z_plus. change (inject_Z 1) with 1. lra.
Qed.

Lemma frameTime_le (k m : nat) : (k <= m)%nat -> frameTime k <= frameTime m.
Proof.
  intros H. unfold frameTime.
  assert (inject_Z (Z.of_nat k - 1) <= inject_Z (Z.of_nat m - 1)) by (rewrite <- Zle_Qle; lia).
  lra.
Qed.

Lemma frameTime_plus (k d : nat) :
  frameTime (k + d) == frameTime k + inject_Z (Z.of_nat d) * 0.5.
Proof.
  unfold frameTime. rewrite Nat2Z.inj_add.
  replace (Z.of_nat k + Z.of_nat d - 1)%Z with ((Z.of_nat k - 1) + Z.of_nat d)%Z by lia.
  rewrite inject_Z_plus. lra.
Qed.

Lemma absent_range (i j a len : nat) :
  (forall k, (a <= k < a + len)%nat -> k <> i /\ k <> j) ->
  map (sightingFrame s i j) (seq a len) = map absentFrame (map Z.of_nat (seq a len)).
Proof.
  intros H. rewrite map_map. apply map_ext_in. intros k Hk.
  apply in_seq in Hk. destruct (H k Hk) as [Hi Hj].
  unfold sightingFrame, absentFrame.
  apply Nat.eqb_neq in Hi, Hj. rewrite Hi, Hj. reflexivity.
Qed.

Lemma sightingFrames_split (i j n : nat) :
  (1 <= i)%nat -> (i < j)%nat -> (j <= n)%nat ->
  sightingFrames s i j n =
    map absentFrame (map Z.of_nat (seq 1 (i - 1))) ++
    seenFrame s (Z.of_nat i) ::
    map absentFrame (map Z.of_nat (seq (S i) (j - i - 1))) ++
    seenFrame s (Z.of_nat j) ::
    map absentFrame (map Z.of_nat (seq (S j) (n - j))).
Proof.
  intros Hi Hij Hjn. unfold sightingFrames.
  replace n with ((i - 1) + (1 + ((j - i - 1) + (1 + (n - j)))))%nat at 1 by lia.
  rewrite !seq_app, !map_app.
  replace (1 + (i - 1))%nat with i by lia.
  replace (i + 1)%nat with (S i) by lia.
  replace (S i + (j - i - 1))%nat with j by lia.
  replace (j + 1)%nat with (S j) by lia.
  rewrite (absent_range i j 1 (i - 1)) by (intros; lia).
  rewrite (absent_range i j (S i) (j - i - 1)) by (intros; lia).
  rewrite (absent_range i j (S j) (n - j)) by (intros; lia).
  cbn [seq map]. unfold sightingFrame, seenFrame.
  rewrite !Nat.eqb_refl, orb_true_r. reflexivity.
Qed.

Lemma sightingFrames_last (i j n : nat) :
  (1 <= n)%nat -> frameNum <$> last (sightingFrames s i j n) = Some (Z.of_nat n).
Proof.
  intros Hn. unfold sightingFrames.
  replace n with ((n - 1) + 1)%nat at 1 by lia.
  rewrite seq_app, map_app. simpl. rewrite last_snoc. simpl.
  do 2 f_equal. lia.
Qed.

Lemma fold_cons (f : frame) (fs : list frame) (acc : list textEntry) :
  fold_left onFrame (f :: fs) acc = fold_left onFrame fs (onFrame acc f).
Proof. reflexivity. Qed.

Lemma step_first (k : nat) :
  onFrame [] (seenFrame s (Z.of_nat k)) = [freshAt s (frameTime k)].
Proof.
  rewrite onFrame_seen, addDetection_nil.
  change (timestamp (seenFrame s (Z.of_nat k))) with (frameTime k).
  cbn [map]. rewrite closeIfGone_visible by reflexivity. reflexivity.
Qed.

Lemma step_extend (k : nat) (e : textEntry) :
  closed e = false -> text e = s -> frameTime k - end_ e <= frameInterval ->
  onFrame [e] (seenFrame s (Z.of_nat k)) = [set_end (frameTime k + frameInterval) e].
Proof.
  intros Hc Ht Hgap. rewrite onFrame_seen.
  change (timestamp (seenFrame s (Z.of_nat k))) with (frameTime k).
  rewrite addDetection_open by assumption.
  cbn [map]. rewrite closeIfGone_visible by exact Ht. reflexivity.
Qed.

Lemma step_reopen (k : nat) (e : textEntry) :
  closed e = true -> text e = s ->
  onFrame [e] (seenFrame s (Z.of_nat k)) = [e; freshAt s (frameTime k)].
Proof.
  intros Hc Ht. rewrite onFrame_seen.
  change (timestamp (seenFrame s (Z.of_nat k))) with (frameTime k).
  rewrite addDetection_closed by assumption.
  cbn [map]. rewrite !closeIfGone_visible by (exact Ht || reflexivity). reflexivity.
Qed.

Lemma step_gone (k : nat) (e : textEntry) :
  closed e = false -> start e < frameTime k ->
  onFrame [e] (absentFrame (Z.of_nat k)) = [close_at (frameTime k) e].
Proof.
  intros Hc Hlt. rewrite onFrame_absent.
  change (timestamp (absentFrame (Z.of_nat k))) with (frameTime k).
  cbn [map]. rewrite closeIfGone_gone by assumption. reflexivity.
Qed.

(** The sightings are in consecutive frames: one entry. *)
Lemma collected_adjacent (i n : nat) :
  (1 <= i)%nat -> (S i <= n)%nat ->
  exists e,
    collected (sightingFrames s i (S i) n) = [e] /\
    text e = s /\ start e = frameTime i /\
    end_ e == frameTime (S i) + frameInterval.
Proof.
  intros Hi Hn.
  pose proof (sightingFrames_last i (S i) n ltac:(lia)) as Hl.
  unfold collected. destruct (last (sightingFrames s i (S i) n)) as [lastF|]; [|discriminate].
  injection Hl as ->.
  rewrite sightingFrames_split by lia.
  replace (S i - i - 1)%nat with 0%nat by lia. cbn [seq map app].
  rewrite fold_left_app, absent_run_closed by constructor.
  rewrite !fold_cons, step_first.
  rewrite step_extend; [|reflexivity|reflexivity|].
  2:{ cbn [end_ freshAt]. pose proof (frameTime_S i). unfold frameInterval. lra. }
  destruct (tail_run [] (set_end (frameTime (S i) + frameInterval) (freshAt s (frameTime i)))
              (S i) n) as (l' & Hrun & Ht & Hs & He).
  - exact Hn.
  - constructor.
  - reflexivity.
  - cbn [start set_end freshAt]. pose proof (frameTime_S i).
    pose proof (frameTime_S (S i)). lra.
  - cbn [app] in Hrun. rewrite Hrun. exists l'.
    split; [reflexivity|]. split; [exact Ht|]. split; [exact Hs | exact He].
Qed.

(** At least one frame without the text lies between the sightings: the
    first entry is closed at the frame after the first sighting and a
    second entry is opened at the second sighting. *)
Lemma collected_apart (i j n : nat) :
  (1 <= i)%nat -> (S (S i) <= j)%nat -> (j <= n)%nat ->
  exists e,
    collected (sightingFrames s i j n) =
      [close_at (frameTime (S i)) (freshAt s (frameTime i)); e] /\
    text e = s /\ start e = frameTime j /\ end_ e == frameTime j + frameInterval.
Proof.
  intros Hi Hj Hn.
  pose proof (sightingFrames_last i j n ltac:(lia)) as Hl.
  unfold collected. destruct (last (sightingFrames s i j n)) as [lastF|]; [|discriminate].
  injection Hl as ->.
  rewrite sightingFrames_split by lia.
  replace (j - i - 1)%nat with (S (j - i - 2)) by lia. cbn [seq map app].
  rewrite fold_left_app, absent_run_closed by constructor.
  rewrite !fold_cons, step_first.
  rewrite step_gone; [|reflexivity|].
  2:{ cbn [start freshAt]. pose proof (frameTime_S i). lra. }
  rewrite fold_left_app.
  rewrite absent_run_closed by (constructor; [reflexivity | constructor]).
  rewrite fold_cons, step_reopen by reflexivity.
  destruct (tail_run [close_at (frameTime (S i)) (freshAt s (frameTime i))]
              (freshAt s (frameTime j)) j n) as (l' & Hrun & Ht & Hs & He).
  - exact Hn.
  - constructor; [reflexivity | constructor].
  - reflexivity.
  - cbn [start freshAt]. pose proof (frameTime_S j). lra.
  - cbn [app] in Hrun. rewrite Hrun. exists l'.
    split; [reflexivity|]. split; [exact Ht|]. split; [exact Hs | exact He].
Qed.

Hypothesis s_kept : keepByText (entryOf s) = true.

Lemma sightingFrames_length (i j n : nat) : length (sightingFrames s i j n) = n.
Proof. unfold sightingFrames. rewrite length_map, length_seq. reflexivity. Qed.

Lemma keepText_short (n : nat) (e : textEntry) :
  text e = s -> end_ e - start e <= inject_Z (Z.of_nat n) * 0.5 * 0.7 ->
  keepText n e = true.
Proof.
  intros Ht Hd. unfold keepText.
  rewrite (keepByText_text e (entryOf s)) by exact Ht.
  rewrite s_kept, Qle_bool_true by exact Hd. reflexivity.
Qed.

Lemma analyze_single (frames : list frame) (e : textEntry) :
  collected frames = [e] -> keepText (length frames) e = true -> analyze frames = [e].
Proof.
  intros Hc Hk. unfold analyze. rewrite Hc.
  rewrite filter_cons, decide_True by exact Hk. rewrite filter_nil. reflexivity.
Qed.

Lemma analyze_pair (frames : list frame) (e1 e2 : textEntry) :
  collected frames = [e1; e2] ->
  keepText (length frames) e1 = true -> keepText (length frames) e2 = true ->
  start e1 <= start e2 ->
  analyze frames = mergeInto [e1] e2.
Proof.
  intros Hc Hk1 Hk2 Hle. unfold analyze. rewrite Hc.
  rewrite !filter_cons, !decide_True by assumption. rewrite filter_nil.
  unfold sortByStart. cbn [fold_left insertByStart].
  rewrite Qle_bool_true by exact Hle. reflexivity.
Qed.

Lemma mergeInto_far (e1 e2 : textEntry) :
  end_ e1 + 0.5 < start e2 -> mergeInto [e1] e2 = [e1; e2].
Proof.
  intros H. unfold mergeInto. cbn [findIndex]. unfold mergeable.
  rewrite (Qle_bool_lt (start e2) (end_ e1)) by lra.
  rewrite (Qle_bool_lt (start e2 - end_ e1) 0.5) by lra.
  rewrite !andb_false_r. reflexivity.
Qed.

Lemma mergeInto_near (e1 e2 : textEntry) :
  text e1 = text e2 -> end_ e1 < start e2 -> start e2 - end_ e1 <= 0.5 ->
  start e1 <= start e2 -> end_ e1 <= end_ e2 ->
  mergeInto [e1] e2 = [set_end (end_ e2) e1].
Proof.
  intros Ht H1 H2 H3 H4. unfold mergeInto. cbn [findIndex]. unfold mergeable.
  rewrite Ht, ustring_eqb_refl.
  rewrite (Qle_bool_lt (start e2) (end_ e1)) by lra.
  rewrite (Qle_bool_lt (start e2 - end_ e1) 0) by lra.
  rewrite (Qle_bool_true (start e2 - end_ e1) 0.5) by lra.
  cbn [andb orb negb fmap option_fmap option_map alter list_alter].
  unfold Math_min, Math_max.
  rewrite (Qle_bool_true (start e1) (start e2)) by exact H3.
  rewrite (Qle_bool_true (end_ e1) (end_ e2)) by exact H4.
  destruct e1; reflexivity.
Qed.

Lemma inject_nat_le (a b : nat) :
  (a <= b)%nat -> inject_Z (Z.of_nat a) <= inject_Z (Z.of_nat b).
Proof. intros H. rewrite <- Zle_Qle. lia. Qed.

(** The contract for two sightings [i < j] among frames 1 to [n]. *)
Lemma two_sightings (i j n : nat) :
  (1 <= i)%nat -> (i < j)%nat -> (j <= n)%nat -> (3 <= n)%nat ->
  (frameTime j - frameTime i <= 2 * frameInterval ->
   exists e, analyze (sightingFrames s i j n) = [e] /\
             spans e s (frameTime i) (frameTime j + frameInterval)) /\
  (2 * frameInterval < frameTime j - frameTime i ->
   exists e1 e2, analyze (sightingFrames s i j n) = [e1; e2] /\
                 spans e1 s (frameTime i) (frameTime i + frameInterval) /\
                 spans e2 s (frameTime j) (frameTime j + frameInterval) /\
                 end_ e1 <= start e2).
Proof.
  intros Hi Hij Hjn Hn.
  pose proof (inject_nat_le 3 n Hn) as Hn3. change (inject_Z (Z.of_nat 3)) with 3 in Hn3.
  pose proof (frameTime_S i) as HSi.
  assert (Hlen := sightingFrames_length i j n).
  destruct (Nat.eq_dec j (S i)) as [->|Hne].
  - (* consecutive frames *)
    destruct (collected_adjacent i n Hi Hjn) as (e & Hc & Ht & Hs & He).
    split.
    + intros _. exists e. split.
      * apply analyze_single; [exact Hc|]. rewrite Hlen.
        apply keepText_short; [exact Ht|]. rewrite Hs, He. unfold frameInterval. lra.
      * split; [exact Ht|]. split; [rewrite Hs; reflexivity | exact He].
    + unfold frameInterval. intros Hg. exfalso. lra.
  - destruct (collected_apart i j n Hi ltac:(lia) Hjn) as (e & Hc & Ht & Hs & He).
    set (c := close_at (frameTime (S i)) (freshAt s (frameTime i))) in *.
    pose proof (frameTime_S (S i)) as HSSi.
    pose proof (frameTime_le (S (S i)) j ltac:(lia)) as Hj2.
    assert (analyze (sightingFrames s i j n) = mergeInto [c] e) as Ha.
    { apply analyze_pair; [exact Hc|..]; rewrite ?Hlen.
      - apply keepText_short; [reflexivity|]. cbn [end_ start c close_at freshAt]. lra.
      - apply keepText_short; [exact Ht|]. rewrite Hs, He. unfold frameInterval. lra.
      - rewrite Hs. cbn [start c close_at freshAt]. lra. }
    destruct (Nat.eq_dec j (S (S i))) as [->|Hne2].
    + (* one frame between the sightings: the final pass merges them *)
      split.
      * intros _. exists (set_end (end_ e) c). split.
        -- rewrite Ha. apply mergeInto_near.
           ++ rewrite Ht. reflexivity.
           ++ rewrite Hs. cbn [end_ c close_at]. lra.
           ++ rewrite Hs. cbn [end_ c close_at]. lra.
           ++ rewrite Hs. cbn [start c close_at freshAt]. lra.
           ++ rewrite He. cbn [end_ c close_at]. unfold frameInterval. lra.
        -- split; [reflexivity|]. split; [reflexivity | exact He].
      * unfold frameInterval. intros Hg. exfalso. lra.
    + pose proof (frameTime_le (S (S (S i))) j ltac:(lia)) as Hj3.
      pose proof (frameTime_S (S (S i))) as HSSSi.
      split.
      * unfold frameInterval. intros Hg. exfalso. lra.
      * intros _. exists c, e. split.
        -- rewrite Ha. apply mergeInto_far. rewrite Hs. cbn [end_ c close_at]. lra.
        -- split; [|split].
           ++ split; [reflexivity|]. split; [reflexivity|].
              cbn [end_ c close_at]. unfold frameInterval. lra.
           ++ split; [exact Ht|]. split; [rewrite Hs; reflexivity | exact He].
           ++ rewrite Hs. cbn [end_ c close_at]. lra.
Qed.

Lemma step_closed (k : Z) (e : textEntry) :
  closed e = true -> onFrame [e] (absentFrame k) = [e].
Proof.
  intros Hc. rewrite onFrame_absent. cbn [map].
  rewrite closeIfGone_closed by exact Hc. reflexivity.
Qed.

End OneText.

Lemma sale_ascii : isAscii (ustr "SALE").
Proof. unfold isAscii. repeat constructor. Qed.

Lemma sale_kept : keepByText (entryOf (ustr "SALE")) = true.
Proof.
  unfold keepByText. cbn [text entryOf].
  rewrite (toLowerCase_ascii _ sale_ascii). vm_compute. reflexivity.
Qed.

Lemma sale_normal : normalizedText (ustr "SALE") = ustr "SALE".
Proof. vm_compute. reflexivity. Qed.

Lemma sale_nonempty : ustr "SALE" <> [].
Proof. discriminate. Qed.

(** The end-to-end example: sightings in frames 1, 2 and 6 of six frames. *)
Lemma sale_collected :
  collected saleFrames =
    [close_at (frameTime 3)
       (set_end (frameTime 2 + frameInterval) (freshAt (ustr "SALE") (frameTime 1)));
     finish_at (inject_Z (6 - 1) * 0.5 + 0.5) (freshAt (ustr "SALE") (frameTime 6))].
Proof.
  unfold collected. change (last saleFrames) with (Some (seen 6 ["SALE"%string])).
  cbn [frameNum seen].
  change saleFrames with
    [seenFrame (ustr "SALE") (Z.of_nat 1); seenFrame (ustr "SALE") (Z.of_nat 2);
     absentFrame (Z.of_nat 3); absentFrame 4; absentFrame 5;
     seenFrame (ustr "SALE") (Z.of_nat 6)].
  pose proof sale_nonempty as Hne. pose proof sale_normal as Hn.
  rewrite !fold_cons. cbn [fold_left].
  rewrite (step_first _ Hne Hn).
  rewrite (step_extend _ Hne Hn); [|reflexivity|reflexivity|qdecide].
  rewrite step_gone; [|reflexivity|qdecide].
  rewrite !step_closed by reflexivity.
  rewrite (step_reopen _ Hne Hn) by reflexivity.
  reflexivity.
Qed.

Lemma sale_scenario :
  exists e1 e2,
    analyze saleFrames = [e1; e2] /\
    spans e1 (ustr "SALE") 0 1 /\ spans e2 (ustr "SALE") 2.5 3.
Proof.
  eexists _, _. split.
  - rewrite (analyze_pair _ _ _ sale_collected).
    + apply mergeInto_far. qdecide.
    + apply (keepText_short _ sale_kept); [reflexivity | qdecide].
    + apply (keepText_short _ sale_kept); [reflexivity | qdecide].
    + qdecide.
  - split; (split; [reflexivity | split; qdecide]).
Qed.

End MergeContract.

(** ** Segment builder: the other texts of the frames

    The segments that carry a text [s] do not depend on the other texts
    read in the frames, as long as none of them is taken for [s]; nor on
    the format the readings of [s] come in.  Every stage of the builder
    run on the frames as they are is followed by the same stage run on
    frames that hold the readings of [s] alone. *)

Section OtherTexts.
Context {U : Unicode}.
Import Builder.
Local Open Scope Q_scope.

Variable s : ustring.
Hypothesis s_nonempty : s <> [].
Hypothesis s_normal : normalizedText s = s.

Lemma segmentsOf_cons_s (e : textEntry) (l : list textEntry) :
  text e = s -> segmentsOf s (e :: l) = e :: segmentsOf s l.
Proof. intros H. unfold segmentsOf. rewrite filter_cons, decide_True by exact H. reflexivity. Qed.

Lemma segmentsOf_cons_other (e : textEntry) (l : list textEntry) :
  text e <> s -> segmentsOf s (e :: l) = segmentsOf s l.
Proof. intros H. unfold segmentsOf. rewrite filter_cons, decide_False by exact H. reflexivity. Qed.

Lemma segmentsOf_app (l l' : list textEntry) :
  segmentsOf s (l ++ l') = segmentsOf s l ++ segmentsOf s l'.
Proof. apply filter_app. Qed.

Lemma segmentsOf_alter_other (g : textEntry -> textEntry) (k : nat) (l : list textEntry)
    (e : textEntry) :
  l !! k = Some e -> text e <> s -> text (g e) <> s ->
  segmentsOf s (alter g k l) = segmentsOf s l.
Proof.
  revert k. induction l as [|a l IH]; intros k Hk He Hg; [discriminate|].
  destruct k as [|k]; simpl in Hk.
  - injection Hk as ->. simpl.
    rewrite !segmentsOf_cons_other by assumption. reflexivity.
  - simpl. destruct (decide (text a = s)) as [Ea|Ea].
    + rewrite !segmentsOf_cons_s by exact Ea. f_equal. apply (IH k); assumption.
    + rewrite !segmentsOf_cons_other by exact Ea. apply (IH k); assumption.
Qed.

Lemma sameTiming_refl (e : textEntry) : sameTiming e e.
Proof. repeat split. Qed.

Lemma aloof_other (n : ustring) : aloof s n -> n <> s.
Proof. intros [H _] ->. apply H. reflexivity. Qed.

Lemma ustring_eqb_ne (a b : ustring) : a <> b -> ustring_eqb a b = false.
Proof. intros H. unfold ustring_eqb. apply bool_decide_eq_false. exact H. Qed.

(** An entry that carries [s] is no match for a text aloof from [s], and
    an entry with such a text is no match for [s]. *)
Lemma sameOpenText_aloof (n : ustring) (e : textEntry) :
  text e = s -> aloof s n -> sameOpenText n e = false.
Proof.
  intros He [H1 H2]. unfold sameOpenText. rewrite He.
  rewrite (ustring_eqb_ne s n) by (intros E; apply H1; rewrite E; reflexivity).
  rewrite (ustring_eqb_ne (toLowerCase s) (toLowerCase n)) by congruence.
  rewrite (ustring_eqb_ne (stripForCompare s) (stripForCompare n)) by congruence.
  apply andb_false_r.
Qed.

Lemma sameOpenText_s_aloof (e : textEntry) :
  aloof s (text e) -> sameOpenText s e = false.
Proof.
  intros [H1 H2]. unfold sameOpenText.
  rewrite (ustring_eqb_ne (text e) s) by (intros E; apply H1; rewrite E; reflexivity).
  rewrite (ustring_eqb_ne (toLowerCase (text e)) (toLowerCase s)) by exact H1.
  rewrite (ustring_eqb_ne (stripForCompare (text e)) (stripForCompare s)) by exact H2.
  apply andb_false_r.
Qed.

Lemma sameOpenText_same (n : ustring) (e e1 : textEntry) :
  sameTiming e e1 -> sameOpenText n e = sameOpenText n e1.
Proof. intros (Ht & _ & _ & Hc). unfold sameOpenText. rewrite Ht, Hc. reflexivity. Qed.

(** A search that only entries with [s] can answer finds the same entry in
    the segments that carry [s], and a change at the place found is a
    change of that segment. *)
Lemma findIndex_sim (p p1 : textEntry -> bool) (texts texts1 : list textEntry) :
  Forall2 sameTiming (segmentsOf s texts) texts1 ->
  Forall (fun e => text e <> s -> p e = false) texts ->
  (forall e e1, text e = s -> sameTiming e e1 -> p e = p1 e1) ->
  match findIndex p texts, findIndex p1 texts1 with
  | Some k, Some k1 =>
      exists e e1, texts !! k = Some e /\ texts1 !! k1 = Some e1 /\
        text e = s /\ sameTiming e e1 /\
        forall g g1, (forall x, text (g x) = text x) -> sameTiming (g e) (g1 e1) ->
          Forall2 sameTiming (segmentsOf s (alter g k texts)) (alter g1 k1 texts1)
  | None, None => True
  | _, _ => False
  end.
Proof.
  revert texts1. induction texts as [|e l IH]; intros texts1 Hsim Hp Hpp.
  - apply Forall2_nil_inv_l in Hsim. rewrite Hsim. exact I.
  - apply Forall_cons in Hp. destruct Hp as [He Hl].
    destruct (decide (text e = s)) as [Es|Es].
    + rewrite segmentsOf_cons_s in Hsim by exact Es.
      apply Forall2_cons_inv_l in Hsim. destruct Hsim as (e1 & l1 & Hsame & Hrest & ->).
      cbn [findIndex]. rewrite <- (Hpp e e1 Es Hsame). destruct (p e) eqn:Ep.
      * exists e, e1. repeat split; try assumption; try apply Hsame.
        intros g g1 Hg Hgg. cbn [alter list_alter].
        rewrite segmentsOf_cons_s by (rewrite Hg; exact Es).
        constructor; assumption.
      * specialize (IH l1 Hrest Hl Hpp).
        destruct (findIndex p l) as [k|], (findIndex p1 l1) as [k1|];
          cbn [fmap option_fmap option_map]; try exact IH.
        destruct IH as (x & x1 & Hx & Hx1 & Hxs & Hxx & Halt).
        exists x, x1. repeat split; try assumption; try apply Hxx.
        intros g g1 Hg Hgg. cbn [alter list_alter].
        rewrite segmentsOf_cons_s by exact Es.
        constructor; [exact Hsame | apply Halt; assumption].
    + rewrite segmentsOf_cons_other in Hsim by exact Es.
      cbn [findIndex]. rewrite (He Es).
      specialize (IH texts1 Hsim Hl Hpp).
      destruct (findIndex p l) as [k|], (findIndex p1 texts1) as [k1|];
        cbn [fmap option_fmap option_map]; try exact IH.
      destruct IH as (x & x1 & Hx & Hx1 & Hxs & Hxx & Halt).
      exists x, x1. repeat split; try assumption; try apply Hxx.
      intros g g1 Hg Hgg. cbn [alter list_alter].
      rewrite segmentsOf_cons_other by exact Es.
      apply Halt; assumption.
Qed.

(** *** The loop over the frames *)

Lemma othersAloof_alter (g : textEntry -> textEntry) (k : nat) (texts : list textEntry) :
  (forall x, text (g x) = text x) -> othersAloof s texts -> othersAloof s (alter g k texts).
Proof.
  intros Hg H. apply Forall_alter; [exact H|]. intros x _ Hx. rewrite Hg. exact Hx.
Qed.

Lemma othersAloof_map (g : textEntry -> textEntry) (texts : list textEntry) :
  (forall x, text (g x) = text x) -> othersAloof s texts -> othersAloof s (map g texts).
Proof.
  intros Hg H. apply Forall_fmap. eapply Forall_impl; [exact H|].
  intros x Hx. simpl. rewrite Hg. exact Hx.
Qed.

(** A reading of [s]. *)
Lemma addDetection_sim ts isObject tx ty pos (texts texts1 : list textEntry) :
  Forall2 sameTiming (segmentsOf s texts) texts1 -> othersAloof s texts ->
  Forall2 sameTiming (segmentsOf s (addDetection ts s isObject tx ty pos texts))
                     (addDetection ts s false None None "center" texts1) /\
  othersAloof s (addDetection ts s isObject tx ty pos texts).
Proof.
  intros Hsim Hinv.
  assert (forall x : textEntry,
             text ((fun e => let e' := set_end (ts + frameInterval) e in
                      if isObject && bool_decide (is_Some tx)
                      then set_xy (if isObject then num_or tx 50 else 50)
                                  (if isObject then num_or ty 50 else 50) e'
                      else e') x) = text x) as Hg.
  { intros x. cbv zeta. destruct (isObject && _); reflexivity. }
  split.
  - pose proof (findIndex_sim (sameOpenText s) (sameOpenText s) texts texts1 Hsim) as H.
    unfold addDetection.
    destruct (findIndex (sameOpenText s) texts) as [k|],
             (findIndex (sameOpenText s) texts1) as [k1|].
    + destruct H as (e & e1 & He & He1 & Es & Hsame & Halt).
      * eapply Forall_impl; [exact Hinv|]. intros x [Hx|Hx] Hne; [contradiction|].
        apply sameOpenText_s_aloof. exact Hx.
      * intros x x1 _. apply sameOpenText_same.
      * rewrite He, He1. destruct Hsame as (Ht & Hst & Hen & Hc). rewrite Hen.
        destruct (Qle_bool _ _).
        -- apply Halt; [exact Hg|]. cbv zeta. cbn [andb].
           destruct (isObject && _); repeat split; assumption.
        -- rewrite segmentsOf_app. apply Forall2_app; [exact Hsim|].
           rewrite segmentsOf_cons_s by reflexivity. repeat constructor.
    + exfalso. apply H.
      * eapply Forall_impl; [exact Hinv|]. intros x [Hx|Hx] Hne; [contradiction|].
        apply sameOpenText_s_aloof. exact Hx.
      * intros x x1 _. apply sameOpenText_same.
    + exfalso. apply H.
      * eapply Forall_impl; [exact Hinv|]. intros x [Hx|Hx] Hne; [contradiction|].
        apply sameOpenText_s_aloof. exact Hx.
      * intros x x1 _. apply sameOpenText_same.
    + rewrite segmentsOf_app. apply Forall2_app; [exact Hsim|].
      rewrite segmentsOf_cons_s by reflexivity. repeat constructor.
  - unfold addDetection.
    assert (forall fresh : textEntry, text fresh = s -> othersAloof s (texts ++ [fresh]))
      as Hfresh.
    { intros fresh Hf. apply Forall_app. split; [exact Hinv|].
      constructor; [left; exact Hf | constructor]. }
    destruct (findIndex (sameOpenText s) texts) as [k|]; [|apply Hfresh; reflexivity].
    destruct (texts !! k) as [e|]; [|exact Hinv].
    destruct (Qle_bool _ _); [|apply Hfresh; reflexivity].
    apply othersAloof_alter; [exact Hg | exact Hinv].
Qed.

(** A reading of a text aloof from [s]. *)
Lemma addDetection_other ts (n : ustring) isObject tx ty pos (texts : list textEntry) :
  aloof s n -> othersAloof s texts ->
  segmentsOf s (addDetection ts n isObject tx ty pos texts) = segmentsOf s texts /\
  othersAloof s (addDetection ts n isObject tx ty pos texts).
Proof.
  intros Hn Hinv. unfold addDetection.
  assert (forall fresh : textEntry, text fresh = n ->
            segmentsOf s (texts ++ [fresh]) = segmentsOf s texts /\
            othersAloof s (texts ++ [fresh])) as Hfresh.
  { intros fresh Hf. split.
    - rewrite segmentsOf_app, segmentsOf_cons_other, app_nil_r; [reflexivity|].
      rewrite Hf. apply aloof_other, Hn.
    - apply Forall_app. split; [exact Hinv|].
      constructor; [right; rewrite Hf; exact Hn | constructor]. }
  destruct (findIndex (sameOpenText n) texts) as [k|] eqn:F; [|apply Hfresh; reflexivity].
  destruct (findIndex_Some _ _ _ F) as (e & He & Hp). rewrite He.
  assert (text e <> s) as Hes.
  { intros Es. rewrite (sameOpenText_aloof n e Es Hn) in Hp. discriminate. }
  destruct (Qle_bool _ _); [|apply Hfresh; reflexivity].
  split.
  - apply (segmentsOf_alter_other _ k texts e He Hes).
    cbv zeta. destruct (isObject && _); exact Hes.
  - apply othersAloof_alter; [|exact Hinv].
    intros x. cbv zeta. destruct (isObject && _); reflexivity.
Qed.

Lemma toLowerCase_nil : toLowerCase [] = [].
Proof. rewrite toLowerCase_ascii by constructor. reflexivity. Qed.

(** The callback of [forEach] on a text that is not taken for [s]. *)
Lemma onText_other ts tp (t : rawText) (texts : list textEntry) :
  unrelated s t -> othersAloof s texts ->
  exists texts', onText ts tp t texts = Some texts' /\
                 segmentsOf s texts' = segmentsOf s texts /\ othersAloof s texts'.
Proof.
  intros Ht Hinv. destruct t as [|u|txt tx ty pos|]; simpl in Ht; try contradiction.
  - destruct Ht as [_ Hn]. unfold onText.
    destruct u as [|c u]; [eauto|].
    destruct (normalizedText (c :: u)) as [|d n] eqn:E; [eauto|].
    eexists. split; [reflexivity|]. apply addDetection_other; assumption.
  - destruct Ht as [_ Hn]. unfold onText.
    destruct (normalizedText (default [] txt)) as [|d n] eqn:E; [eauto|].
    eexists. split; [reflexivity|]. apply addDetection_other; assumption.
Qed.

(** The callback of [forEach] on a reading of [s]. *)
Lemma onText_reading ts tp (t : rawText) (texts : list textEntry) :
  reads s t ->
  exists isObject tx ty pos,
    onText ts tp t texts = Some (addDetection ts s isObject tx ty pos texts).
Proof.
  intros Ht. destruct t as [|u|txt tx ty pos|]; simpl in Ht; try contradiction.
  - subst u. rewrite onText_string by assumption. eauto.
  - rewrite Ht. unfold onText. change (default [] (Some s)) with s. rewrite s_normal.
    destruct s as [|c r] eqn:Es; [contradiction|]. eauto.
Qed.

Lemma forEachText_others ts tp (raw : list rawText) (texts : list textEntry) :
  Forall (unrelated s) raw -> othersAloof s texts ->
  exists texts', forEachText ts tp raw texts = (texts', true) /\
                 segmentsOf s texts' = segmentsOf s texts /\ othersAloof s texts'.
Proof.
  intros Hraw. revert texts. induction Hraw as [|t raw Ht _ IH]; intros texts Hinv.
  - exists texts. repeat split. exact Hinv.
  - destruct (onText_other ts tp t texts Ht Hinv) as (texts' & E & Hseg & Hinv').
    cbn [forEachText]. rewrite E.
    destruct (IH texts' Hinv') as (texts'' & E' & Hseg' & Hinv'').
    exists texts''. split; [exact E'|]. split; [congruence | exact Hinv''].
Qed.

Lemma forEachText_app ts tp (raw1 raw2 : list rawText) (texts texts' : list textEntry) :
  forEachText ts tp raw1 texts = (texts', true) ->
  forEachText ts tp (raw1 ++ raw2) texts = forEachText ts tp raw2 texts'.
Proof.
  revert texts. induction raw1 as [|t raw1 IH]; intros texts H.
  - simpl in H. injection H as ->. reflexivity.
  - cbn [forEachText app] in *.
    destruct (onText ts tp t texts) as [texts0|]; [|discriminate].
    apply IH. exact H.
Qed.

(** The [forEach] of a frame in which [s] is read once. *)
Lemma forEachText_reading ts tp (pre post : list rawText) (t : rawText)
    (texts texts1 : list textEntry) :
  reads s t -> Forall (unrelated s) pre -> Forall (unrelated s) post ->
  Forall2 sameTiming (segmentsOf s texts) texts1 -> othersAloof s texts ->
  exists texts',
    forEachText ts tp (pre ++ t :: post) texts = (texts', true) /\
    Forall2 sameTiming (segmentsOf s texts')
                       (addDetection ts s false None None "center" texts1) /\
    othersAloof s texts'.
Proof.
  intros Ht Hpre Hpost Hsim Hinv.
  destruct (forEachText_others ts tp pre texts Hpre Hinv) as (texts0 & E0 & Hseg0 & Hinv0).
  rewrite (forEachText_app _ _ _ _ _ _ E0). cbn [forEachText].
  destruct (onText_reading ts tp t texts0 Ht) as (isObject & tx & ty & pos & ->).
  rewrite <- Hseg0 in Hsim.
  destruct (addDetection_sim ts isObject tx ty pos texts0 texts1 Hsim Hinv0) as [Hsim1 Hinv1].
  destruct (forEachText_others ts tp post _ Hpost Hinv1) as (texts2 & E2 & Hseg2 & Hinv2).
  exists texts2. split; [exact E2|]. split; [rewrite Hseg2; exact Hsim1 | exact Hinv2].
Qed.

(** The keys of the frame: that of [s] is among them when [s] is read. *)
Lemma currentTexts_others (raw : list rawText) :
  Forall (unrelated s) raw ->
  exists cur, currentTextsNormalized raw = Some cur /\ stripForCompare s ∉ cur.
Proof.
  induction 1 as [|t raw Ht _ (cur & E & Hcur)].
  - exists []. split; [reflexivity | apply not_elem_of_nil].
  - destruct t as [|u|txt tx ty pos|]; simpl in Ht; try contradiction;
      destruct Ht as [Hk _]; cbn [currentTextsNormalized]; rewrite E;
      eexists; (split; [reflexivity|]);
      intros Hin; apply elem_of_cons in Hin; destruct Hin as [Hin|Hin];
      solve [apply Hk; symmetry; exact Hin | contradiction].
Qed.

Lemma currentTexts_reading (pre post : list rawText) (t : rawText) :
  reads s t -> Forall (unrelated s) pre -> Forall (unrelated s) post ->
  exists cur, currentTextsNormalized (pre ++ t :: post) = Some cur /\
              stripForCompare s ∈ cur.
Proof.
  intros Ht Hpre Hpost.
  destruct (currentTexts_others post Hpost) as (cpost & Epost & _).
  assert (exists cur, currentTextsNormalized (t :: post) = Some cur /\
                      stripForCompare s ∈ cur) as (c0 & E0 & H0).
  { destruct t as [|u|txt tx ty pos|]; simpl in Ht; try contradiction;
      cbn [currentTextsNormalized]; rewrite Epost; subst;
      eexists; (split; [reflexivity|]); apply elem_of_cons; left; reflexivity. }
  clear Ht. induction Hpre as [|p pre Hp _ (cur & E & Hcur)].
  - exists c0. split; assumption.
  - destruct p as [|u|txt tx ty pos|]; simpl in Hp; try contradiction;
      cbn [currentTextsNormalized app]; rewrite E;
      eexists; (split; [reflexivity|]); apply elem_of_cons; right; exact Hcur.
Qed.

Lemma existsb_key (k : ustring) (cur : list ustring) :
  existsb (ustring_eqb k) cur = bool_decide (k ∈ cur).
Proof.
  induction cur as [|c cur IH]; [reflexivity|].
  cbn [existsb]. rewrite IH. unfold ustring_eqb.
  destruct (decide (k = c)) as [->|Hne].
  - rewrite bool_decide_eq_true_2 by reflexivity.
    symmetry. apply bool_decide_eq_true. apply elem_of_cons. left. reflexivity.
  - rewrite bool_decide_eq_false_2 by exact Hne. cbn [orb].
    apply bool_decide_ext. rewrite elem_of_cons. tauto.
Qed.

(** Closing what is no longer seen looks at the key of [s] alone. *)
Lemma closeIfGone_sim ts (cur cur1 : list ustring) (texts texts1 : list textEntry) :
  (stripForCompare s ∈ cur <-> stripForCompare s ∈ cur1) ->
  Forall2 sameTiming (segmentsOf s texts) texts1 ->
  Forall2 sameTiming (segmentsOf s (map (closeIfGone ts cur) texts))
                     (map (closeIfGone ts cur1) texts1).
Proof.
  intros Hcur. revert texts1. induction texts as [|e l IH]; intros texts1 Hsim.
  - apply Forall2_nil_inv_l in Hsim. rewrite Hsim. constructor.
  - assert (text (closeIfGone ts cur e) = text e) as Htext.
    { unfold closeIfGone. destruct (closed e); [reflexivity|].
      destruct (_ && _); reflexivity. }
    cbn [map]. destruct (decide (text e = s)) as [Es|Es].
    + rewrite segmentsOf_cons_s in Hsim by exact Es.
      apply Forall2_cons_inv_l in Hsim. destruct Hsim as (e1 & l1 & Hsame & Hrest & ->).
      rewrite segmentsOf_cons_s by (rewrite Htext; exact Es).
      cbn [map]. constructor; [|apply IH; exact Hrest].
      destruct Hsame as (Ht & Hst & Hen & Hc).
      unfold closeIfGone. rewrite <- Hc, <- Ht, <- Hst, Es.
      destruct (closed e) eqn:Ec; [repeat split; simpl; congruence|].
      rewrite !existsb_key, (bool_decide_ext _ _ Hcur).
      destruct (_ && _); repeat split; simpl; congruence.
    + rewrite segmentsOf_cons_other in Hsim by exact Es.
      rewrite segmentsOf_cons_other by (rewrite Htext; exact Es).
      apply IH. exact Hsim.
Qed.

Lemma closeIfGone_text ts (cur : list ustring) (e : textEntry) :
  text (closeIfGone ts cur e) = text e.
Proof.
  unfold closeIfGone. destruct (closed e); [reflexivity|].
  destruct (_ && _); reflexivity.
Qed.

(** One frame, as it is and with the readings of [s] alone. *)
Lemma onFrame_sim (i j k : nat) (f : frame) (texts texts1 : list textEntry) :
  sightingAmong s i j k f ->
  Forall2 sameTiming (segmentsOf s texts) texts1 -> othersAloof s texts ->
  Forall2 sameTiming (segmentsOf s (onFrame texts f))
                     (onFrame texts1 (sightingFrame s i j k)) /\
  othersAloof s (onFrame texts f).
Proof.
  intros (Hnum & raw & tp & Hres & Hraw) Hsim Hinv.
  unfold onFrame. rewrite Hres. cbn [result sightingFrame].
  assert (timestamp f = timestamp (sightingFrame s i j k)) as Hts
    by (unfold timestamp; rewrite Hnum; reflexivity).
  rewrite Hts. set (ts := timestamp (sightingFrame s i j k)).
  destruct ((k =? i)%nat || (k =? j)%nat).
  - destruct Hraw as (pre & t & post & -> & Ht & Hpre & Hpost).
    destruct (forEachText_reading ts tp pre post t texts texts1 Ht Hpre Hpost Hsim Hinv)
      as (texts' & -> & Hsim' & Hinv').
    destruct (currentTexts_reading pre post t Ht Hpre Hpost) as (cur & -> & Hcur).
    cbn [forEachText]. rewrite onText_string by assumption.
    cbn [str_or currentTextsNormalized fmap option_fmap option_map].
    split.
    + apply closeIfGone_sim; [|exact Hsim'].
      split; intros _; [apply elem_of_cons; left; reflexivity | exact Hcur].
    + apply othersAloof_map; [apply closeIfGone_text | exact Hinv'].
  - destruct (forEachText_others ts tp raw texts Hraw Hinv) as (texts' & -> & Hseg & Hinv').
    destruct (currentTexts_others raw Hraw) as (cur & -> & Hcur).
    cbn [forEachText currentTextsNormalized].
    split.
    + apply closeIfGone_sim; [|rewrite Hseg; exact Hsim].
      split; [intros H; contradiction | intros H; apply elem_of_nil in H; contradiction].
    + apply othersAloof_map; [apply closeIfGone_text | exact Hinv'].
Qed.

Lemma fold_onFrame_sim (i j : nat) (ks : list nat) (frames : list frame)
    (texts texts1 : list textEntry) :
  Forall2 (sightingAmong s i j) ks frames ->
  Forall2 sameTiming (segmentsOf s texts) texts1 -> othersAloof s texts ->
  Forall2 sameTiming (segmentsOf s (fold_left onFrame frames texts))
                     (fold_left onFrame (map (sightingFrame s i j) ks) texts1) /\
  othersAloof s (fold_left onFrame frames texts).
Proof.
  intros Hf. revert texts texts1.
  induction Hf as [|k f ks frames Hk _ IH]; intros texts texts1 Hsim Hinv.
  - split; assumption.
  - cbn [fold_left map].
    destruct (onFrame_sim i j k f texts texts1 Hk Hsim Hinv) as [Hsim' Hinv'].
    apply IH; assumption.
Qed.

(** *** The stages after the loop *)

Lemma Forall2_last {A B} (P : A -> B -> Prop) (l : list A) (l' : list B) :
  Forall2 P l l' ->
  match last l, last l' with
  | Some a, Some b => P a b
  | None, None => True
  | _, _ => False
  end.
Proof.
  induction 1 as [|a b l l' Hab Hl IH]; [exact I|].
  destruct Hl as [|a' b' l l' Hab' Hl]; [exact Hab|].
  change (last (a :: a' :: l)) with (last (a' :: l)).
  change (last (b :: b' :: l')) with (last (b' :: l')). exact IH.
Qed.

Lemma map_sim (g g1 : textEntry -> textEntry) (texts texts1 : list textEntry) :
  (forall x, text (g x) = text x) ->
  (forall x x1, sameTiming x x1 -> sameTiming (g x) (g1 x1)) ->
  Forall2 sameTiming (segmentsOf s texts) texts1 ->
  Forall2 sameTiming (segmentsOf s (map g texts)) (map g1 texts1).
Proof.
  intros Hg Hgg. revert texts1. induction texts as [|e l IH]; intros texts1 Hsim.
  - apply Forall2_nil_inv_l in Hsim. rewrite Hsim. constructor.
  - cbn [map]. destruct (decide (text e = s)) as [Es|Es].
    + rewrite segmentsOf_cons_s in Hsim by exact Es.
      apply Forall2_cons_inv_l in Hsim. destruct Hsim as (e1 & l1 & Hsame & Hrest & ->).
      rewrite segmentsOf_cons_s by (rewrite Hg; exact Es).
      cbn [map]. constructor; [apply Hgg, Hsame | apply IH, Hrest].
    + rewrite segmentsOf_cons_other in Hsim by exact Es.
      rewrite segmentsOf_cons_other by (rewrite Hg; exact Es).
      apply IH, Hsim.
Qed.

Lemma closeAtEnd_text (n : Z) (e : textEntry) : text (closeAtEnd n e) = text e.
Proof. unfold closeAtEnd. destruct (closed e); reflexivity. Qed.

Lemma closeAtEnd_same (n : Z) (e e1 : textEntry) :
  sameTiming e e1 -> sameTiming (closeAtEnd n e) (closeAtEnd n e1).
Proof.
  intros (Ht & Hst & Hen & Hc). unfold closeAtEnd. rewrite <- Hc.
  destruct (closed e) eqn:Ec; repeat split; simpl; congruence.
Qed.

(** The entries when the loop has ended and the open ones are closed. *)
Lemma collected_sim (i j n : nat) (frames : list frame) :
  sightingsAmong s i j n frames ->
  Forall2 sameTiming (segmentsOf s (collected frames))
                     (collected (sightingFrames s i j n)) /\
  othersAloof s (collected frames).
Proof.
  intros Hf. unfold sightingsAmong in Hf.
  assert (Forall2 (fun f f1 => frameNum f = frameNum f1) frames (sightingFrames s i j n))
    as Hnum.
  { unfold sightingFrames. apply Forall2_fmap_r. apply Forall2_flip.
    eapply Forall2_impl; [exact Hf|]. intros k f [Hk _]. exact Hk. }
  apply Forall2_last in Hnum.
  destruct (fold_onFrame_sim i j (seq 1 n) frames [] [] Hf) as [Hsim Hinv];
    [constructor | constructor|].
  unfold collected. fold (sightingFrames s i j n) in Hsim.
  destruct (last frames) as [lastF|], (last (sightingFrames s i j n)) as [lastF1|];
    try contradiction.
  - rewrite Hnum. split.
    + apply map_sim; [apply closeAtEnd_text | apply closeAtEnd_same | exact Hsim].
    + apply othersAloof_map; [apply closeAtEnd_text | exact Hinv].
  - split; constructor.
Qed.

Lemma keepText_same (n : nat) (e e1 : textEntry) :
  sameTiming e e1 -> keepText n e = keepText n e1.
Proof.
  intros (Ht & Hst & Hen & _). unfold keepText.
  rewrite (keepByText_text e e1 Ht), Hst, Hen. reflexivity.
Qed.

Lemma filter_sim (n : nat) (texts texts1 : list textEntry) :
  Forall2 sameTiming (segmentsOf s texts) texts1 ->
  Forall2 sameTiming (segmentsOf s (filter (fun t => keepText n t = true) texts))
                     (filter (fun t => keepText n t = true) texts1).
Proof.
  revert texts1. induction texts as [|e l IH]; intros texts1 Hsim.
  - apply Forall2_nil_inv_l in Hsim. rewrite Hsim. constructor.
  - rewrite filter_cons. destruct (decide (text e = s)) as [Es|Es].
    + rewrite segmentsOf_cons_s in Hsim by exact Es.
      apply Forall2_cons_inv_l in Hsim. destruct Hsim as (e1 & l1 & Hsame & Hrest & ->).
      rewrite filter_cons. rewrite <- (keepText_same n e e1 Hsame).
      destruct (decide (keepText n e = true)) as [Hk|Hk].
      * rewrite segmentsOf_cons_s by exact Es. constructor; [exact Hsame | apply IH, Hrest].
      * apply IH, Hrest.
    + rewrite segmentsOf_cons_other in Hsim by exact Es.
      destruct (decide (keepText n e = true)) as [Hk|Hk].
      * rewrite segmentsOf_cons_other by exact Es. apply IH, Hsim.
      * apply IH, Hsim.
Qed.

(** Sorting: an entry is put before the first one that starts later. *)
Lemma insertByStart_other (t : textEntry) (sorted : list textEntry) :
  text t <> s -> segmentsOf s (insertByStart t sorted) = segmentsOf s sorted.
Proof.
  intros Ht. induction sorted as [|a l IH]; cbn [insertByStart].
  - apply segmentsOf_cons_other, Ht.
  - destruct (Qle_bool (start a) (start t)).
    + destruct (decide (text a = s)) as [Ea|Ea].
      * rewrite !segmentsOf_cons_s by exact Ea. f_equal. exact IH.
      * rewrite !segmentsOf_cons_other by exact Ea. exact IH.
    + apply segmentsOf_cons_other, Ht.
Qed.

Lemma insertByStart_first (t : textEntry) (l : list textEntry) :
  Forall (fun x => start t < start x) l -> insertByStart t l = t :: l.
Proof.
  intros H. destruct H as [|a l Ha _]; [reflexivity|].
  cbn [insertByStart]. rewrite Qle_bool_lt by exact Ha. reflexivity.
Qed.

Lemma segmentsOf_later (q : Q) (l l1 : list textEntry) :
  Forall (fun x => q < start x) l ->
  Forall2 sameTiming (segmentsOf s l) l1 -> Forall (fun x => q < start x) l1.
Proof.
  intros H Hsim.
  assert (Forall (fun x => q < start x) (segmentsOf s l)) as H'
    by (apply Forall_filter_keep; exact H).
  clear H. revert H'. induction Hsim as [|x x1 l0 l1 Hx _ IH]; intros H'; [constructor|].
  apply Forall_cons in H'. destruct H' as [Hq H'].
  constructor; [|apply IH, H'].
  destruct Hx as (_ & Hst & _). rewrite <- Hst. exact Hq.
Qed.

Lemma insertByStart_sim (t t1 : textEntry) (sorted sorted1 : list textEntry) :
  text t = s -> sameTiming t t1 ->
  StronglySorted Qle (map start sorted) ->
  Forall2 sameTiming (segmentsOf s sorted) sorted1 ->
  Forall2 sameTiming (segmentsOf s (insertByStart t sorted)) (insertByStart t1 sorted1).
Proof.
  intros Ht Hsame. revert sorted1.
  induction sorted as [|a l IH]; intros sorted1 Hs Hsim.
  - apply Forall2_nil_inv_l in Hsim. rewrite Hsim. cbn [insertByStart].
    rewrite segmentsOf_cons_s by exact Ht. constructor; [exact Hsame | constructor].
  - cbn [map] in Hs. apply StronglySorted_inv in Hs. destruct Hs as [Hl Hall].
    cbn [insertByStart].
    destruct (Qle_bool (start a) (start t)) eqn:E.
    + destruct (decide (text a = s)) as [Ea|Ea].
      * rewrite segmentsOf_cons_s in Hsim by exact Ea.
        apply Forall2_cons_inv_l in Hsim. destruct Hsim as (a1 & l1 & Ha & Hrest & ->).
        rewrite segmentsOf_cons_s by exact Ea. cbn [insertByStart].
        destruct Ha as (Hat & Hast & Haen & Hac). destruct Hsame as (Htt & Htst & Hten & Htc).
        rewrite <- Hast, <- Htst, E.
        constructor; [repeat split; assumption|].
        apply IH; [exact Hl | exact Hrest].
      * rewrite segmentsOf_cons_other in Hsim by exact Ea.
        rewrite segmentsOf_cons_other by exact Ea.
        apply IH; [exact Hl | exact Hsim].
    + apply Qle_bool_false in E.
      rewrite segmentsOf_cons_s by exact Ht.
      rewrite insertByStart_first.
      * constructor; [exact Hsame | exact Hsim].
      * destruct Hsame as (_ & Htst & _). rewrite <- Htst.
        apply (segmentsOf_later (start t) (a :: l) sorted1); [|exact Hsim].
        constructor; [exact E|].
        rewrite Forall_fmap in Hall. eapply Forall_impl; [exact Hall|].
        intros x Hx. simpl in Hx. lra.
Qed.

Lemma sortInto_sim (texts : list textEntry) :
  forall acc acc1 texts1,
    StronglySorted Qle (map start acc) ->
    Forall2 sameTiming (segmentsOf s acc) acc1 ->
    Forall2 sameTiming (segmentsOf s texts) texts1 ->
    Forall2 sameTiming
      (segmentsOf s (fold_left (fun sorted t => insertByStart t sorted) texts acc))
      (fold_left (fun sorted t => insertByStart t sorted) texts1 acc1).
Proof.
  induction texts as [|t l IH]; intros acc acc1 texts1 Hs Hacc Hsim.
  - apply Forall2_nil_inv_l in Hsim. rewrite Hsim. exact Hacc.
  - cbn [fold_left]. destruct (decide (text t = s)) as [Et|Et].
    + rewrite segmentsOf_cons_s in Hsim by exact Et.
      apply Forall2_cons_inv_l in Hsim. destruct Hsim as (t1 & l1 & Ht & Hrest & ->).
      cbn [fold_left]. apply IH; [| |exact Hrest].
      * apply insertByStart_starts, Hs.
      * apply insertByStart_sim; assumption.
    + rewrite segmentsOf_cons_other in Hsim by exact Et.
      apply IH; [| |exact Hsim].
      * apply insertByStart_starts, Hs.
      * rewrite insertByStart_other by exact Et. exact Hacc.
Qed.

Lemma sortByStart_sim (texts texts1 : list textEntry) :
  Forall2 sameTiming (segmentsOf s texts) texts1 ->
  Forall2 sameTiming (segmentsOf s (sortByStart texts)) (sortByStart texts1).
Proof. intros H. apply sortInto_sim; [constructor | constructor | exact H]. Qed.

(** The merge pass joins only entries with the same key. *)
Lemma mergeable_same (t t1 m m1 : textEntry) :
  sameTiming t t1 -> sameTiming m m1 -> mergeable t m = mergeable t1 m1.
Proof.
  intros (Ht & Hst & Hen & _) (Hmt & Hmst & Hmen & _). unfold mergeable.
  rewrite Ht, Hst, Hen, Hmt, Hmst, Hmen. reflexivity.
Qed.

Lemma mergeable_aloof (t m : textEntry) :
  stripForCompare (text m) <> stripForCompare (text t) -> mergeable t m = false.
Proof.
  intros H. unfold mergeable. rewrite ustring_eqb_ne by exact H. reflexivity.
Qed.

Lemma mergeInto_sim (t t1 : textEntry) (merged merged1 : list textEntry) :
  text t = s -> sameTiming t t1 ->
  Forall2 sameTiming (segmentsOf s merged) merged1 -> othersAloof s merged ->
  Forall2 sameTiming (segmentsOf s (mergeInto merged t)) (mergeInto merged1 t1).
Proof.
  intros Ht Hsame Hsim Hinv. unfold mergeInto.
  pose proof (findIndex_sim (mergeable t) (mergeable t1) merged merged1 Hsim) as H.
  destruct (findIndex (mergeable t) merged) as [k|],
           (findIndex (mergeable t1) merged1) as [k1|].
  - destruct H as (e & e1 & He & He1 & Es & Hee & Halt).
    + eapply Forall_impl; [exact Hinv|]. intros x [Hx|[_ Hx]] Hne; [contradiction|].
      apply mergeable_aloof. rewrite Ht. exact Hx.
    + intros x x1 _ Hx. apply mergeable_same; assumption.
    + apply Halt; [reflexivity|].
      destruct Hee as (Het & Hest & Heen & Hec). destruct Hsame as (Htt & Htst & Hten & Htc).
      repeat split; simpl; congruence.
  - exfalso. apply H.
    + eapply Forall_impl; [exact Hinv|]. intros x [Hx|[_ Hx]] Hne; [contradiction|].
      apply mergeable_aloof. rewrite Ht. exact Hx.
    + intros x x1 _ Hx. apply mergeable_same; assumption.
  - exfalso. apply H.
    + eapply Forall_impl; [exact Hinv|]. intros x [Hx|[_ Hx]] Hne; [contradiction|].
      apply mergeable_aloof. rewrite Ht. exact Hx.
    + intros x x1 _ Hx. apply mergeable_same; assumption.
  - rewrite segmentsOf_app, segmentsOf_cons_s by exact Ht.
    apply Forall2_app; [exact Hsim | constructor; [exact Hsame | constructor]].
Qed.

Lemma mergeInto_other (t : textEntry) (merged : list textEntry) :
  aloof s (text t) -> othersAloof s merged ->
  segmentsOf s (mergeInto merged t) = segmentsOf s merged /\
  othersAloof s (mergeInto merged t).
Proof.
  intros Ht Hinv. unfold mergeInto.
  destruct (findIndex (mergeable t) merged) as [k|] eqn:F.
  - destruct (findIndex_Some _ _ _ F) as (e & He & Hp).
    assert (text e <> s) as Hes.
    { intros Es. rewrite mergeable_aloof in Hp; [discriminate|].
      rewrite Es. destruct Ht as [_ Ht]. congruence. }
    split.
    + apply (segmentsOf_alter_other _ k merged e He Hes). exact Hes.
    + apply othersAloof_alter; [reflexivity | exact Hinv].
  - split.
    + rewrite segmentsOf_app, segmentsOf_cons_other, app_nil_r; [reflexivity|].
      apply aloof_other, Ht.
    + apply Forall_app. split; [exact Hinv|]. constructor; [right; exact Ht | constructor].
Qed.

Lemma mergeInto_keeps (t : textEntry) (merged : list textEntry) :
  text t = s -> othersAloof s merged -> othersAloof s (mergeInto merged t).
Proof.
  intros Ht Hinv. unfold mergeInto.
  destruct (findIndex (mergeable t) merged) as [k|].
  - apply othersAloof_alter; [reflexivity | exact Hinv].
  - apply Forall_app. split; [exact Hinv|]. constructor; [left; exact Ht | constructor].
Qed.

Lemma merge_sim (texts texts1 merged merged1 : list textEntry) :
  othersAloof s texts -> Forall2 sameTiming (segmentsOf s texts) texts1 ->
  othersAloof s merged -> Forall2 sameTiming (segmentsOf s merged) merged1 ->
  Forall2 sameTiming (segmentsOf s (fold_left mergeInto texts merged))
                     (fold_left mergeInto texts1 merged1).
Proof.
  revert texts1 merged merged1.
  induction texts as [|t l IH]; intros texts1 merged merged1 Hinv Hsim Hm Hmsim.
  - apply Forall2_nil_inv_l in Hsim. rewrite Hsim. exact Hmsim.
  - apply Forall_cons in Hinv. destruct Hinv as [Ht Hinv]. cbn [fold_left].
    destruct (decide (text t = s)) as [Et|Et].
    + rewrite segmentsOf_cons_s in Hsim by exact Et.
      apply Forall2_cons_inv_l in Hsim. destruct Hsim as (t1 & l1 & Htt & Hrest & ->).
      cbn [fold_left]. apply IH; [exact Hinv | exact Hrest | |].
      * apply mergeInto_keeps; assumption.
      * apply mergeInto_sim; assumption.
    + rewrite segmentsOf_cons_other in Hsim by exact Et.
      destruct Ht as [Ht|Ht]; [contradiction|].
      destruct (mergeInto_other t merged Ht Hm) as [Hseg Hm'].
      apply IH; [exact Hinv | exact Hsim | exact Hm' | rewrite Hseg; exact Hmsim].
Qed.

(** The segments that carry [s] in the response are, in text and times,
    the segments of the response to the readings of [s] alone. *)
Lemma analyze_sim (i j n : nat) (frames : list frame) :
  sightingsAmong s i j n frames ->
  Forall2 sameTiming (segmentsOf s (analyze frames)) (analyze (sightingFrames s i j n)).
Proof.
  intros Hf. destruct (collected_sim i j n frames Hf) as [Hsim Hinv].
  assert (length frames = n) as Hlen.
  { apply Forall2_length in Hf. rewrite length_seq in Hf. symmetry. exact Hf. }
  unfold analyze. rewrite Hlen, sightingFrames_length.
  apply merge_sim; [| | constructor | constructor].
  - apply sortByStart_Forall. apply Forall_filter_keep. exact Hinv.
  - apply sortByStart_sim. apply filter_sim. exact Hsim.
Qed.

Lemma sameTiming_spans (e e1 : textEntry) (a b : Q) :
  sameTiming e e1 -> spans e1 s a b -> spans e s a b.
Proof.
  intros (Ht & Hst & Hen & _) (H1 & H2 & H3). unfold spans.
  rewrite Ht, Hst, Hen. repeat split; assumption.
Qed.

Hypothesis s_kept : keepByText (entryOf s) = true.

(** The contract for two sightings [i < j] among frames 1 to [n] that
    hold other texts as well. *)
Lemma two_sightings_among (i j n : nat) (frames : list frame) :
  (1 <= i)%nat -> (i < j)%nat -> (j <= n)%nat -> (3 <= n)%nat ->
  sightingsAmong s i j n frames ->
  (frameTime j - frameTime i <= 2 * frameInterval ->
   exists e, segmentsOf s (analyze frames) = [e] /\
             spans e s (frameTime i) (frameTime j + frameInterval)) /\
  (2 * frameInterval < frameTime j - frameTime i ->
   exists e1 e2, segmentsOf s (analyze frames) = [e1; e2] /\
                 spans e1 s (frameTime i) (frameTime i + frameInterval) /\
                 spans e2 s (frameTime j) (frameTime j + frameInterval) /\
                 end_ e1 <= start e2).
Proof.
  intros Hi Hij Hjn Hn Hf.
  pose proof (analyze_sim i j n frames Hf) as Hsim.
  destruct (two_sightings s s_nonempty s_normal s_kept i j n Hi Hij Hjn Hn) as [Hnear Hfar].
  split; intros Hg.
  - destruct (Hnear Hg) as (e1 & E & Hspan). rewrite E in Hsim.
    apply Forall2_cons_inv_r in Hsim. destruct Hsim as (e & l & He & Hl & ->).
    apply Forall2_nil_inv_r in Hl. subst l.
    exists e. split; [reflexivity|]. apply (sameTiming_spans e e1); assumption.
  - destruct (Hfar Hg) as (c1 & c2 & E & Hs1 & Hs2 & Hle). rewrite E in Hsim.
    apply Forall2_cons_inv_r in Hsim. destruct Hsim as (e1 & l & He1 & Hl & ->).
    apply Forall2_cons_inv_r in Hl. destruct Hl as (e2 & l' & He2 & Hl' & ->).
    apply Forall2_nil_inv_r in Hl'. subst l'.
    exists e1, e2. split; [reflexivity|].
    split; [apply (sameTiming_spans e1 c1); assumption|].
    split; [apply (sameTiming_spans e2 c2); assumption|].
    destruct He1 as (_ & _ & Hen & _). destruct He2 as (_ & Hst & _).
    rewrite Hen, Hst. exact Hle.
Qed.

End OtherTexts.



(** ** Job coordinator *)

Section CoordinatorFacts.
Context {U : Unicode}.
Import Coordinator.

(** *** Translation fallback *)

Lemma renderFrom_lookup (j : job) (tr : list jval) (lang : string)
    (items : list textItem) (k i : nat) (t : textItem) (track : list rendering) :
  renderFrom j tr lang k items = Some track -> items !! i = Some t ->
  exists r, track !! i = Some r /\
            resolveText (uppercase j) (translatedText tr (k + i) lang) t
              = Some (renderedText r).
Proof.
  revert k i track. induction items as [|t0 items IH]; intros k i track Hr Hi.
  - discriminate.
  - simpl in Hr.
    destruct (resolveText (uppercase j) (translatedText tr k lang) t0) as [v|] eqn:E;
      [|discriminate].
    destruct (renderFrom j tr lang (S k) items) as [rest|] eqn:Er; [|discriminate].
    simpl in Hr. injection Hr as <-. destruct i as [|i].
    + injection Hi as <-. rewrite Nat.add_0_r.
      eexists. split; [reflexivity|]. rewrite E.
      destruct (String.eqb _ _); reflexivity.
    + simpl in Hi. destruct (IH (S k) i rest Er Hi) as (r & Hl & Hres).
      exists r. split; [exact Hl|].
      replace (k + S i)%nat with (S k + i)%nat by lia. exact Hres.
Qed.

Lemma renderFrom_total (j : job) (tr : list jval) (lang : string)
    (items : list textItem) (k : nat) :
  uppercase j = false -> is_Some (renderFrom j tr lang k items).
Proof.
  intros Hu. revert k. induction items as [|t items IH]; intros k; simpl; [eauto|].
  unfold resolveText. rewrite Hu.
  destruct (IH (S k)) as [rest ->]. simpl. eauto.
Qed.

Lemma renderFrom_untranslated (j : job) (lang : string) (items : list textItem) (k : nat) :
  is_Some (renderFrom j [] lang k items).
Proof.
  revert k. induction items as [|t items IH]; intros k; simpl; [eauto|].
  unfold translatedText. rewrite lookup_nil. simpl. unfold resolveText.
  destruct (IH (S k)) as [rest ->]. destruct (uppercase j); simpl; eauto.
Qed.

End CoordinatorFacts.

(** C2, as the specification states it, fails: in the all-caps mode of a
    job ([uppercase]) the fallback text is upper-cased like every other
    text, so for the source text "sale" without an Italian translation the
    rendered text is "SALE".  The input is ASCII, where the tables are those
    of Unicode. *)
Lemma fallback_differs_in_uppercase :
  exists j track r,
    Coordinator.createJob "gen-1" (demoRequest Coordinator.NoArray true) = Some j /\
    @Coordinator.renderLanguage asciiTables j [] "IT" = Some track /\
    track !! 0%nat = Some r /\
    Coordinator.renderedText r <> Coordinator.JStr (ustr "sale").
Proof.
  eexists _, _, _. split; [reflexivity|]. split; [vm_compute; reflexivity|].
  split; [reflexivity|]. vm_compute. discriminate.
Qed.

(** C2, amended.  For every segment index [i] and language for which the
    parsed response has no entry (in particular for every pair when the
    response did not parse, the array then being empty), the text rendered
    for that pair is the segment's source text, upper-cased when the job is
    in all-caps mode and verbatim otherwise.  Every pair is resolved from
    its own entry alone, and a track is always produced when the job is not
    in all-caps mode or when nothing was translated. *)
Theorem translation_fallback {U : Unicode} :
  (forall (j : Coordinator.job) tr lang i t track,
      Coordinator.texts j !! i = Some t ->
      Coordinator.translatedText tr i lang = None ->
      Coordinator.renderLanguage j tr lang = Some track ->
      Coordinator.renderedText <$> track !! i =
        Some (Coordinator.JStr (if Coordinator.uppercase j
                                then toUpperCase (Coordinator.text t)
                                else Coordinator.text t))) /\
  (forall i lang, Coordinator.translatedText [] i lang = None) /\
  (forall (j : Coordinator.job) tr lang i t track,
      Coordinator.texts j !! i = Some t ->
      Coordinator.renderLanguage j tr lang = Some track ->
      exists r, track !! i = Some r /\
                Coordinator.resolveText (Coordinator.uppercase j)
                  (Coordinator.translatedText tr i lang) t
                  = Some (Coordinator.renderedText r)) /\
  (forall (j : Coordinator.job) tr lang,
      Coordinator.uppercase j = false -> is_Some (Coordinator.renderLanguage j tr lang)) /\
  (forall (j : Coordinator.job) lang, is_Some (Coordinator.renderLanguage j [] lang)).
Proof.
  split; [|split; [|split; [|split]]].
  - intros j tr lang i t track Ht Hnone Hr.
    destruct (renderFrom_lookup j tr lang _ 0 i t track Hr Ht) as (r & Hl & Hres).
    rewrite Hl. simpl in *. rewrite Hnone in Hres. unfold Coordinator.resolveText in Hres.
    destruct (Coordinator.uppercase j); injection Hres as <-; reflexivity.
  - intros i lang. unfold Coordinator.translatedText. rewrite lookup_nil. reflexivity.
  - intros j tr lang i t track Ht Hr.
    exact (renderFrom_lookup j tr lang _ 0 i t track Hr Ht).
  - intros j tr lang Hu. apply renderFrom_total. exact Hu.
  - intros j lang. apply renderFrom_untranslated.
Qed.

Section StatusFacts.
Context {U : Unicode}.
Import Coordinator.

Lemma followsb_follows (a b : status) : followsb a b = true -> follows a b.
Proof.
  destruct a, b; intros H; try discriminate H; try apply follows_same.
  all: first
    [ eapply (follows_abort _ _ 0%nat); [reflexivity | lia | solve [auto]]
    | eapply (follows_abort _ _ 1%nat); [reflexivity | lia | solve [auto]]
    | eapply (follows_abort _ _ 2%nat); [reflexivity | lia | solve [auto]]
    | eapply (follows_abort _ _ 3%nat); [reflexivity | lia | solve [auto]]
    | eapply (follows_later _ _ 0%nat 1%nat); [reflexivity | reflexivity | lia]
    | eapply (follows_later _ _ 0%nat 2%nat); [reflexivity | reflexivity | lia]
    | eapply (follows_later _ _ 0%nat 3%nat); [reflexivity | reflexivity | lia]
    | eapply (follows_later _ _ 0%nat 4%nat); [reflexivity | reflexivity | lia]
    | eapply (follows_later _ _ 1%nat 2%nat); [reflexivity | reflexivity | lia]
    | eapply (follows_later _ _ 1%nat 3%nat); [reflexivity | reflexivity | lia]
    | eapply (follows_later _ _ 1%nat 4%nat); [reflexivity | reflexivity | lia]
    | eapply (follows_later _ _ 2%nat 3%nat); [reflexivity | reflexivity | lia]
    | eapply (follows_later _ _ 2%nat 4%nat); [reflexivity | reflexivity | lia]
    | eapply (follows_later _ _ 3%nat 4%nat); [reflexivity | reflexivity | lia] ].
Qed.

Lemma mainLine_rank (i : nat) (a : status) : mainLine !! i = Some a -> rank a = i.
Proof.
  destruct i as [|[|[|[|[|i]]]]]; simpl; intros H; try discriminate H;
    injection H as <-; reflexivity.
Qed.

Lemma follows_followsb (a b : status) : follows a b -> followsb a b = true.
Proof.
  intros H. unfold followsb. destruct H as [s | a b i k Ha Hb Hik | a b i Ha Hi Hb].
  - rewrite Nat.eqb_refl. reflexivity.
  - apply mainLine_rank in Ha as Ra. apply mainLine_rank in Hb as Rb.
    assert (k < 5)%nat by (apply lookup_lt_Some in Hb; exact Hb).
    rewrite Ra, Rb. apply orb_true_iff. left. apply orb_true_iff. right.
    apply andb_true_iff. split; [apply Nat.ltb_lt | apply Nat.leb_le]; lia.
  - apply mainLine_rank in Ha as Ra. rewrite Ra.
    apply orb_true_iff. right. apply andb_true_iff.
    split; [apply Nat.ltb_lt; exact Hi|]. destruct Hb as [-> | ->]; reflexivity.
Qed.

Lemma follows_trans (a b c : status) : follows a b -> follows b c -> follows a c.
Proof.
  intros H1 H2. apply follows_followsb in H1, H2. apply followsb_follows.
  destruct a, b, c; try discriminate H1; try discriminate H2; reflexivity.
Qed.

(** [error] and [cancelled] are left by no transition; neither is [done]. *)
Lemma follows_terminal (a b : status) :
  a = Done \/ a = Error \/ a = Cancelled -> follows a b -> b = a.
Proof.
  intros Ha H. apply follows_followsb in H.
  destruct Ha as [-> | [-> | ->]]; destruct b; try discriminate H; reflexivity.
Qed.

Lemma loopHead_status (langIdx : nat) (d : driver) :
  jobStatus (theJob d) = Generating ->
  consistent (loopHead langIdx d) /\
  followsb Generating (jobStatus (theJob (loopHead langIdx d))) = true.
Proof.
  intros Hs. unfold loopHead.
  destruct (LANGUAGES (theJob d) !! langIdx) as [lang|].
  - destruct (cancelled (theJob d)).
    + split; [right; right; reflexivity | reflexivity].
    + destruct (renderLanguage _ _ _).
      * unfold consistent. simpl. rewrite Hs. split; reflexivity.
      * split; [right; left; reflexivity | reflexivity].
  - split; [left; reflexivity | reflexivity].
Qed.

Lemma cancel_status (j : job) : jobStatus (cancel j) = jobStatus j.
Proof. unfold cancel. destruct (jobStatus j) eqn:E; simpl; congruence. Qed.

Lemma step_status (d : driver) (e : event) :
  consistent d ->
  consistent (step d e) /\
  followsb (jobStatus (theJob d)) (jobStatus (theJob (step d e))) = true.
Proof.
  intros Hc.
  assert (followsb (jobStatus (theJob d)) (jobStatus (theJob d)) = true) as Hrefl.
  { unfold followsb. rewrite Nat.eqb_refl. reflexivity. }
  destruct e as [parsed | msg | | msg | | ].
  - (* the translation request returned *)
    unfold step. unfold consistent in Hc.
    destruct (at_ d) eqn:Ea; try (split; [unfold consistent; rewrite Ea; exact Hc | exact Hrefl]).
    rewrite Hc. destruct (cancelled (theJob d)).
    + split; [right; right; reflexivity | reflexivity].
    + match goal with |- context [loopHead 0 ?d'] =>
        destruct (loopHead_status 0 d' eq_refl) as [H1 H2] end.
      split; [exact H1|].
      apply follows_followsb. eapply follows_trans; apply followsb_follows; [|exact H2].
      reflexivity.
  - unfold step. unfold consistent in Hc.
    destruct (at_ d) eqn:Ea; try (split; [unfold consistent; rewrite Ea; exact Hc | exact Hrefl]).
    rewrite Hc. split; [right; left; reflexivity | reflexivity].
  - unfold step. unfold consistent in Hc.
    destruct (at_ d) eqn:Ea; try (split; [unfold consistent; rewrite Ea; exact Hc | exact Hrefl]).
    destruct (LANGUAGES (theJob d) !! langIdx);
      [|split; [unfold consistent; rewrite Ea; exact Hc | exact Hrefl]].
    split; [exact Hc | exact Hrefl].
  - unfold step. unfold consistent in Hc.
    destruct (at_ d) eqn:Ea; try (split; [unfold consistent; rewrite Ea; exact Hc | exact Hrefl]).
    rewrite Hc. split; [right; left; reflexivity | reflexivity].
  - unfold step. unfold consistent in Hc.
    destruct (at_ d) eqn:Ea; try (split; [unfold consistent; rewrite Ea; exact Hc | exact Hrefl]).
    rewrite Hc. apply loopHead_status. exact Hc.
  - unfold step. split.
    + unfold consistent in *. simpl. rewrite cancel_status.
      destruct (at_ d); exact Hc.
    + simpl. rewrite cancel_status. exact Hrefl.
Qed.

Lemma statuses_sorted (d : driver) (events : list event) :
  consistent d -> StronglySorted follows (statuses d events).
Proof.
  revert d. induction events as [|e events IH]; intros d Hc.
  - repeat constructor.
  - destruct (step_status d e Hc) as [Hc' Hf]. apply followsb_follows in Hf.
    specialize (IH (step d e) Hc').
    unfold statuses in *. simpl. constructor; [exact IH|].
    destruct events as [|e' events]; simpl in *.
    + constructor; [exact Hf | constructor].
    + inversion IH as [|x l Hl Hall]; subst. constructor; [exact Hf|].
      eapply Forall_impl; [exact Hall|]. intros s Hs. simpl in Hs.
      eapply follows_trans; eassumption.
Qed.

Lemma states_consistent (d : driver) (events : list event) :
  consistent d -> Forall consistent (states d events).
Proof.
  revert d. induction events as [|e events IH]; intros d Hc; simpl.
  - constructor; [exact Hc | constructor].
  - constructor; [exact Hc|]. apply IH. apply step_status. exact Hc.
Qed.

Lemma created_consistent (jobId : string) (rq : request) (j : job) :
  createJob jobId rq = Some j ->
  consistent (started j) /\ jobStatus j = Translating /\
  countries j = Some (selectedCountries (rq_countries rq)) /\
  outputs j = ∅ /\ cancelled j = false /\ completed j = 0%nat.
Proof.
  unfold createJob. destruct (rq_videoClean rq); [discriminate|].
  destruct (rq_texts rq); [discriminate|].
  destruct (rq_videoExists rq); [|discriminate].
  intros [= <-]. repeat split.
Qed.

End StatusFacts.

Section RunFacts.
Context {U : Unicode}.
Import Coordinator.

Lemma step_finished (d : driver) (e : event) :
  at_ d = Finished ->
  at_ (step d e) = Finished /\
  jobStatus (theJob (step d e)) = jobStatus (theJob d) /\
  outputs (theJob (step d e)) = outputs (theJob d) /\
  rendered (step d e) = rendered d.
Proof.
  intros Hf. unfold step. rewrite Hf. destruct e; simpl; repeat split; try exact Hf.
  - apply cancel_status.
  - unfold cancel. destruct (jobStatus (theJob d)); reflexivity.
Qed.

Lemma run_finished (d : driver) (events : list event) :
  at_ d = Finished ->
  at_ (run d events) = Finished /\
  jobStatus (theJob (run d events)) = jobStatus (theJob d) /\
  outputs (theJob (run d events)) = outputs (theJob d) /\
  rendered (run d events) = rendered d.
Proof.
  revert d. induction events as [|e events IH]; intros d Hf; [repeat split; exact Hf|].
  destruct (step_finished d e Hf) as (H1 & H2 & H3 & H4).
  destruct (IH (step d e) H1) as (I1 & I2 & I3 & I4).
  unfold run in *. simpl. repeat split; congruence.
Qed.

Lemma selected_supported (l : list countryElt) :
  Forall (fun c => In c ALL_COUNTRIES)
         (omap eltCode (filter (fun c => isSupported c = true) l)).
Proof.
  induction l as [|c l IH]; [constructor|].
  rewrite filter_cons. destruct (decide _) as [E|E]; [|exact IH].
  destruct c as [s|]; [|discriminate E]. simpl. constructor; [|exact IH].
  unfold isSupported in E. apply existsb_exists in E. destruct E as (x & Hx & Heq).
  apply String.eqb_eq in Heq. subst x. exact Hx.
Qed.

Lemma selected_none (l : list countryElt) :
  Forall (fun c => isSupported c = false) l ->
  omap eltCode (filter (fun c => isSupported c = true) l) = [].
Proof.
  induction 1 as [|c l Hc Hl IH]; [reflexivity|].
  rewrite filter_cons, decide_False by congruence. exact IH.
Qed.

End RunFacts.

(** Within one run of the server: for every job the [generate] handler
    creates and every sequence of events of the job (returns and failures
    of the awaited calls, cancel requests), the statuses a poll can see are
    in the order of the state machine, and no event changes the status of a
    job that is in error or cancelled. *)
Theorem job_status_monotone {U : Unicode} (jobId : string) (rq : Coordinator.request)
    (j : Coordinator.job) (events : list Coordinator.event) :
  Coordinator.createJob jobId rq = Some j ->
  StronglySorted Coordinator.follows (Coordinator.statuses (Coordinator.started j) events) /\
  (forall s e,
      In s (Coordinator.states (Coordinator.started j) events) ->
      Coordinator.jobStatus (Coordinator.theJob s) = Coordinator.Error \/
      Coordinator.jobStatus (Coordinator.theJob s) = Coordinator.Cancelled ->
      Coordinator.jobStatus (Coordinator.theJob (Coordinator.step s e)) =
        Coordinator.jobStatus (Coordinator.theJob s)).
Proof.
  intros Hc. apply created_consistent in Hc. destruct Hc as [Hc _]. split.
  - apply statuses_sorted. exact Hc.
  - intros s e Hin Ht.
    pose proof (states_consistent _ events Hc) as Hall.
    rewrite Forall_forall in Hall. apply list_elem_of_In in Hin.
    destruct (step_status s e (Hall s Hin)) as [_ Hf].
    apply followsb_follows in Hf. apply follows_terminal in Hf; [exact Hf|].
    destruct Ht; auto.
Qed.

Lemma job_status_monotone_witness :
  Coordinator.createJob "gen-1" (demoRequest Coordinator.NoArray false) = Some demoCreated /\
  StronglySorted Coordinator.follows
    (@Coordinator.statuses asciiTables (Coordinator.started demoCreated) demoEvents).
Proof.
  split; [reflexivity|].
  apply (@job_status_monotone asciiTables "gen-1"
           (demoRequest Coordinator.NoArray false) demoCreated demoEvents).
  reflexivity.
Defined.

(** C4, as the specification states it, fails: the encode of a language
    has no error handler of its own.  With Croatian and Czech selected, a
    non-zero exit of the Croatian encode rejects the driver; the handler's
    catch puts the job in status error, and whatever happens afterwards no
    Czech track is written and no Czech output appears. *)
Lemma encode_failure_stops_job :
  let d := @Coordinator.run asciiTables (Coordinator.started twoLanguageJob)
             [Coordinator.TranslationReturned None; Coordinator.EncodeFailed "exit 1";
              Coordinator.EncodeReturned; Coordinator.QCReturned;
              Coordinator.EncodeReturned; Coordinator.QCReturned] in
  Coordinator.jobStatus (Coordinator.theJob d) = Coordinator.Error /\
  Coordinator.at_ d = Coordinator.Finished /\
  Coordinator.outputs (Coordinator.theJob d) !! "CZ"%string = None /\
  map fst (Coordinator.rendered d) = ["HR"%string].
Proof.
  vm_compute. repeat split.
Qed.

(** C4, amended.  If the encode of a language exits non-zero, the job goes
    to status error with the failure's message, the driver stops, the
    outputs of the languages already encoded stay as they are, and no later
    event changes the status, adds an output or writes another track: the
    remaining languages are not processed. *)
Theorem encode_failure_aborts {U : Unicode} (d : Coordinator.driver) (langIdx : nat)
    (msg : string) (events : list Coordinator.event) :
  Coordinator.at_ d = Coordinator.AwaitEncode langIdx ->
  let d' := Coordinator.step d (Coordinator.EncodeFailed msg) in
  Coordinator.jobStatus (Coordinator.theJob d') = Coordinator.Error /\
  Coordinator.error (Coordinator.theJob d') = Some msg /\
  Coordinator.at_ d' = Coordinator.Finished /\
  Coordinator.outputs (Coordinator.theJob d') = Coordinator.outputs (Coordinator.theJob d) /\
  Coordinator.jobStatus (Coordinator.theJob (Coordinator.run d' events)) = Coordinator.Error /\
  Coordinator.outputs (Coordinator.theJob (Coordinator.run d' events)) =
    Coordinator.outputs (Coordinator.theJob d) /\
  Coordinator.rendered (Coordinator.run d' events) = Coordinator.rendered d.
Proof.
  intros Ha d'.
  assert (d' = Coordinator.fail msg d) as Hd.
  { unfold d', Coordinator.step. rewrite Ha. reflexivity. }
  rewrite Hd.
  destruct (run_finished (Coordinator.fail msg d) events eq_refl) as (_ & H2 & H3 & H4).
  rewrite H2, H3, H4. repeat split.
Qed.

Lemma encode_failure_aborts_witness :
  let d := @Coordinator.run asciiTables (Coordinator.started twoLanguageJob)
             [Coordinator.TranslationReturned None] in
  Coordinator.at_ d = Coordinator.AwaitEncode 0 /\
  Coordinator.jobStatus
    (Coordinator.theJob
       (@Coordinator.run asciiTables
          (@Coordinator.step asciiTables d (Coordinator.EncodeFailed "exit 1"))
          [Coordinator.EncodeReturned; Coordinator.QCReturned])) =
    Coordinator.Error.
Proof.
  split; [reflexivity|].
  apply (@encode_failure_aborts asciiTables _ 0%nat "exit 1"
           [Coordinator.EncodeReturned; Coordinator.QCReturned]).
  reflexivity.
Defined.


(** C9.  The handler is headed "Delete a job (only if author matches)"
    and its refusal says that one can delete only one's own creatives, yet
    the author check is made only when both identities are non-empty.  A
    caller who supplies no author deletes the job recorded for "ANA": the
    answer is a success and the record, the persisted record and the output
    files are gone.  Likewise a caller "BOB" deletes a job that has no
    recorded author.  The input is ASCII, where the tables are those of
    Unicode. *)
Lemma delete_without_matching_author :
  (let r := @Coordinator.deleteJob asciiTables "gen-1" None
              (demoServer (Some (ustr "ANA"))) in
   r.1 = Coordinator.Success /\
   Coordinator.localizerJobs r.2 !! "gen-1"%string = @None Coordinator.job /\
   Coordinator.jobsFile r.2 !! "gen-1"%string = @None Coordinator.job /\
   Coordinator.generated r.2 !! "gen-1"%string = @None (list ustring)) /\
  (let r := @Coordinator.deleteJob asciiTables "gen-1" (Some (ustr "BOB"))
              (demoServer None) in
   r.1 = Coordinator.Success /\
   Coordinator.localizerJobs r.2 !! "gen-1"%string = @None Coordinator.job).
Proof.
  unfold Coordinator.deleteJob, demoServer. cbn [Coordinator.localizerJobs].
  rewrite !lookup_singleton_eq. cbn.
  rewrite !delete_singleton_eq. repeat split.
Qed.

(** What the [delete] handler does on an existing job: it refuses
    exactly when the recorded author and the caller-supplied author, both
    upper-cased, are both non-empty and differ, and then changes nothing;
    in every other case it removes the job from the registry and from the
    persisted records, and removes the job's output directory. *)
Theorem delete_authorization {U : Unicode} (srv : Coordinator.server) (jobId : string)
    (author : option ustring) (j : Coordinator.job) :
  Coordinator.localizerJobs srv !! jobId = Some j ->
  let r := Coordinator.deleteJob jobId author srv in
  (r.1 = Coordinator.Forbidden <->
     Coordinator.jobAuthor j <> [] /\ Coordinator.requestAuthor author <> [] /\
     Coordinator.jobAuthor j <> Coordinator.requestAuthor author) /\
  (r.1 = Coordinator.Forbidden -> r.2 = srv) /\
  (r.1 <> Coordinator.Forbidden ->
     r.1 = Coordinator.Success /\
     Coordinator.localizerJobs r.2 = delete jobId (Coordinator.localizerJobs srv) /\
     Coordinator.jobsFile r.2 = delete jobId (Coordinator.localizerJobs srv) /\
     Coordinator.localizerJobs r.2 !! jobId = @None Coordinator.job /\
     Coordinator.jobsFile r.2 !! jobId = @None Coordinator.job /\
     Coordinator.generated r.2 = delete (Coordinator.id j) (Coordinator.generated srv)).
Proof.
  intros Hj r. unfold r, Coordinator.deleteJob. rewrite Hj.
  assert (forall s : ustring, Coordinator.nonEmpty s = true <-> s <> []) as Hne.
  { intros [|c s]; simpl; split; intros H; congruence. }
  set (A := Coordinator.jobAuthor j). set (R := Coordinator.requestAuthor author).
  destruct (Coordinator.nonEmpty A && Coordinator.nonEmpty R && negb (ustring_eqb A R)) eqn:E;
    cbn [fst snd].
  - apply andb_true_iff in E. destruct E as [E E3].
    apply andb_true_iff in E. destruct E as [E1 E2].
    apply Hne in E1. apply Hne in E2. apply negb_true_iff in E3.
    unfold ustring_eqb in E3. apply bool_decide_eq_false in E3.
    split; [split; [intros _; auto | reflexivity]|].
    split; [reflexivity|]. intros H. contradiction.
  - split; [split; [discriminate|]|].
    + intros (H1 & H2 & H3). apply Hne in H1. apply Hne in H2.
      rewrite H1, H2 in E. simpl in E. apply negb_false_iff in E.
      unfold ustring_eqb in E. apply bool_decide_eq_true in E. contradiction.
    + split; [discriminate|]. intros _.
      repeat split; apply lookup_delete_eq.
Qed.

Lemma delete_authorization_witness :
  Coordinator.localizerJobs (demoServer (Some (ustr "ana"))) !! "gen-1"%string
    = Some (demoJob "gen-1" (Some (ustr "ana"))) /\
  (@Coordinator.deleteJob asciiTables "gen-1" (Some (ustr "Bob"))
     (demoServer (Some (ustr "ana")))).1 = Coordinator.Forbidden.
Proof.
  assert (Coordinator.localizerJobs (demoServer (Some (ustr "ana")))
            !! "gen-1"%string
          = Some (demoJob "gen-1" (Some (ustr "ana")))) as Hl.
  { apply lookup_singleton_eq. }
  split; [exact Hl|].
  apply (@delete_authorization asciiTables _ "gen-1" (Some (ustr "Bob")) _ Hl).
  vm_compute. repeat split; discriminate.
Defined.

(** ** Statuses across restarts of the server *)

Section ProcessFacts.
Context {U : Unicode}.
Import Coordinator.

Lemma follows_refl (a : status) : follows a a.
Proof. apply follows_same. Qed.

Lemma finished_or_running (p : point) : {p = Finished} + {p <> Finished}.
Proof. destruct p; [right; discriminate..|left; reflexivity]. Qed.

Lemma running_status (d : driver) :
  at_ d <> Finished -> consistent d ->
  jobStatus (theJob d) = Translating \/ jobStatus (theJob d) = Generating.
Proof.
  intros Hf Hc. unfold consistent in Hc. destruct (at_ d); auto. contradiction.
Qed.

Lemma terminal_not_running (s : status) :
  terminal s -> s <> Translating /\ s <> Generating.
Proof. intros [-> | [-> | ->]]; split; discriminate. Qed.

(** The record after an event of a job whose driver runs: the job as the
    event leaves it, or else the driver still runs and the record is the
    old one or the job as it was before the event. *)
Lemma savedBy_cases (d : driver) (e : event) (sv : job) :
  at_ d <> Finished ->
  Process.savedBy d e sv = theJob (step d e) \/
  (at_ (step d e) <> Finished /\
   (Process.savedBy d e sv = sv \/ Process.savedBy d e sv = theJob d)).
Proof.
  intros Hrun. unfold Process.savedBy.
  assert (forall d', at_ d' = at_ d -> at_ d' <> Finished) as Hsame
    by (intros d' E; rewrite E; exact Hrun).
  destruct e as [parsed|msg| |msg| |].
  - destruct (at_ d) eqn:Ea; try contradiction.
    + destruct (at_ (step d (TranslationReturned parsed))) eqn:Ed; auto;
        right; (split; [discriminate|left; reflexivity]).
    + right. split; [|left; reflexivity]. unfold step. rewrite Ea. rewrite Ea. discriminate.
    + right. split; [|left; reflexivity]. unfold step. rewrite Ea. rewrite Ea. discriminate.
  - destruct (at_ d) eqn:Ea; try contradiction; auto;
      right; (split; [|left; reflexivity]); unfold step; rewrite Ea; rewrite Ea; discriminate.
  - right. split; [|left; destruct (at_ d); reflexivity].
    unfold step. destruct (at_ d) eqn:Ea; try contradiction; try (rewrite Ea; discriminate).
    destruct (LANGUAGES (theJob d) !! langIdx); [discriminate|rewrite Ea; discriminate].
  - destruct (at_ d) eqn:Ea; try contradiction; auto;
      right; (split; [|left; reflexivity]); unfold step; rewrite Ea; rewrite Ea; discriminate.
  - destruct (at_ d) eqn:Ea; try contradiction.
    + right. split; [|left; reflexivity]. unfold step. rewrite Ea. rewrite Ea. discriminate.
    + right. split; [|left; reflexivity]. unfold step. rewrite Ea. rewrite Ea. discriminate.
    + destruct (at_ (step d QCReturned)) eqn:Ed; auto;
        right; (split; [discriminate|right; reflexivity]).
  - destruct (jobStatus (theJob d)); auto;
      right; (split; [|left; destruct (at_ d); reflexivity]); apply Hsame; reflexivity.
Qed.

(** One event keeps the record in step with the job. *)
Lemma step_recorded (s : Process.state) (ev : Process.event) :
  recorded s -> recorded (Process.step s ev).
Proof.
  intros (Hf & Ht & Hc). destruct ev as [e| |].
  - destruct (finished_or_running (at_ (Process.running s))) as [Hfin|Hrun].
    + destruct (step_finished (Process.running s) e Hfin) as (H1 & H2 & _).
      assert (Process.status (Process.step s (Process.OfJob e)) = Process.status s) as Hst
        by exact H2.
      unfold recorded. rewrite Hst. cbn [Process.step Process.running Process.saved].
      assert (Process.savedBy (Process.running s) e (Process.saved s) = Process.saved s \/
              jobStatus (Process.savedBy (Process.running s) e (Process.saved s)) =
                Process.status s) as [E|E].
      { unfold Process.savedBy. rewrite Hfin.
        destruct e; auto. destruct (jobStatus (theJob (Process.running s))); auto. }
      * rewrite E. split; [exact Hf|]. split; [exact Ht|]. intros H. contradiction.
      * rewrite E. split; [apply follows_refl|]. split; [reflexivity|].
        intros H. contradiction.
    + specialize (Hc Hrun).
      destruct (step_status (Process.running s) e Hc) as [Hc' Hfo].
      apply followsb_follows in Hfo.
      unfold recorded, Process.status in *.
      cbn [Process.step Process.running Process.saved].
      assert (at_ (step (Process.running s) e) <> Finished ->
              ~ terminal (jobStatus (theJob (step (Process.running s) e)))) as Hnt.
      { intros Hn Hx. apply terminal_not_running in Hx.
        destruct (running_status _ Hn Hc'); tauto. }
      destruct (savedBy_cases (Process.running s) e (Process.saved s) Hrun)
        as [E|(Hn & [E|E])]; rewrite E.
      * split; [apply follows_refl|]. split; [reflexivity|]. intros _. exact Hc'.
      * split; [eapply follows_trans; [exact Hf|exact Hfo]|].
        split; [intros Hx; destruct (Hnt Hn Hx)|]. intros _. exact Hc'.
      * split; [exact Hfo|].
        split; [intros Hx; destruct (Hnt Hn Hx)|]. intros _. exact Hc'.
  - unfold recorded, Process.status. cbn. split; [apply follows_refl|].
    split; [reflexivity|exact Hc].
  - unfold recorded, Process.status. cbn. split; [apply follows_refl|].
    split; [reflexivity|]. intros H. contradiction.
Qed.

Lemma states_recorded (s : Process.state) (events : list Process.event) :
  recorded s -> Forall recorded (Process.states s events).
Proof.
  revert s. induction events as [|ev events IH]; intros s Hr; simpl.
  - constructor; [exact Hr|constructor].
  - constructor; [exact Hr|]. apply IH. apply step_recorded. exact Hr.
Qed.

Lemma states_lookup_S (s : Process.state) (events : list Process.event) (i : nat)
    (a b : Process.state) (ev : Process.event) :
  Process.states s events !! i = Some a ->
  Process.states s events !! S i = Some b ->
  events !! i = Some ev -> b = Process.step a ev.
Proof.
  revert s i. induction events as [|e events IH]; intros s i Ha Hb He; [discriminate|].
  destruct i as [|i]; simpl in *.
  - injection Ha as <-. injection He as <-.
    destruct events; simpl in Hb; injection Hb as <-; reflexivity.
  - eapply IH; eassumption.
Qed.

(** What one event does to the status. *)
Lemma step_status_recorded (s : Process.state) (ev : Process.event) :
  recorded s ->
  (ev <> Process.Restart -> follows (Process.status s) (Process.status (Process.step s ev))) /\
  (ev = Process.Restart ->
     Process.status (Process.step s ev) = jobStatus (Process.saved s) /\
     follows (Process.status (Process.step s ev)) (Process.status s)) /\
  (terminal (Process.status s) -> Process.status (Process.step s ev) = Process.status s).
Proof.
  intros (Hf & Ht & Hc).
  assert (ev <> Process.Restart ->
          follows (Process.status s) (Process.status (Process.step s ev))) as Hmono.
  { intros Hne. destruct ev as [e| |]; [| apply follows_refl | contradiction].
    unfold Process.status. cbn [Process.step Process.running].
    destruct (finished_or_running (at_ (Process.running s))) as [Hfin|Hrun].
    - destruct (step_finished (Process.running s) e Hfin) as (_ & H2 & _).
      rewrite H2. apply follows_refl.
    - apply followsb_follows. apply step_status. apply Hc. exact Hrun. }
  split; [exact Hmono|]. split.
  - intros ->. split; [reflexivity|]. exact Hf.
  - intros Hterm. destruct ev as [e| |].
    + apply follows_terminal; [exact Hterm|]. apply Hmono. discriminate.
    + reflexivity.
    + unfold Process.status at 1. cbn. apply Ht. exact Hterm.
Qed.

Lemma started_recorded (jobId : string) (rq : request) (j : job) :
  createJob jobId rq = Some j -> recorded (Process.started j).
Proof.
  intros Hc. apply created_consistent in Hc. destruct Hc as (Hc & Hs & _).
  unfold recorded, Process.status. cbn. split; [apply follows_refl|].
  split; [reflexivity|]. intros _. exact Hc.
Qed.

End ProcessFacts.



(** * Further properties *)

(** ** Scene splitter: the cuts kept and the tiling of the timeline *)

(** X1.  In the arithmetic of the handler: the raw cut list begins with 0,
    every cut after it is a number above zero, and between consecutive
    kept cuts [b - a >= 0.3] holds as the loop computes it, whatever values
    the trace holds and in whatever order. *)
Theorem raw_cuts_spaced (times : list F64.float) :
  cuts64 (Scene64.rawSceneTimes times) /\
  spaced64 (Scene64.rawSceneTimes times).
Proof.
  split; [apply rawSceneTimes64_cuts|].
  apply collect64_spaced. intros i a b Ha Hb. destruct i; discriminate.
Qed.

(** X2.  The scenes of the response tile the timeline: there is at
    least one, the first begins at (rounded) 0, the last ends at the
    (rounded) length of the video, and each scene begins exactly where the
    one before it ends; there are never more scenes than cut times plus
    one. *)
Theorem scenes_tile (times : list F64.float) (totalSeconds : F64.float) :
  (exists first final,
      head (Scene64.smartAnalyze times totalSeconds) = Some first /\
      last (Scene64.smartAnalyze times totalSeconds) = Some final /\
      Scene64.start first = Scene64.round1 F64.zero /\
      Scene64.end_ final = Scene64.round1 totalSeconds) /\
  contiguous64 (Scene64.smartAnalyze times totalSeconds) /\
  (length (Scene64.smartAnalyze times totalSeconds) <= 1 + length times)%nat.
Proof.
  unfold Scene64.smartAnalyze.
  set (raw := Scene64.rawSegments (Scene64.rawSceneTimes times) totalSeconds).
  pose proof (rawSceneTimes64_cuts times) as Hcuts.
  split; [|split].
  - pose proof (rawSegments64_covers _ totalSeconds Hcuts) as Hc. fold raw in Hc.
    apply (mergeLoop64_keeps _ (mergeAt64_covers F64.zero totalSeconds) (length raw)) in Hc.
    fold (Scene64.mergeShort raw) in Hc.
    destruct Hc as (f & l & Hf & Hl & Ha & Hb).
    exists (Scene64.roundSegment f), (Scene64.roundSegment l).
    rewrite head_lookup, last_lookup, length_map, !list_lookup_fmap.
    replace (pred (length (Scene64.mergeShort raw)))
      with (length (Scene64.mergeShort raw) - 1)%nat by lia.
    rewrite Hf, Hl. simpl. rewrite Ha, Hb. repeat split.
  - pose proof (rawSegments64_contiguous _ totalSeconds Hcuts) as Hc. fold raw in Hc.
    apply (mergeLoop64_keeps _ mergeAt64_contiguous (length raw)) in Hc.
    fold (Scene64.mergeShort raw) in Hc.
    intros i a b Ha Hb. rewrite list_lookup_fmap in Ha, Hb.
    destruct (Scene64.mergeShort raw !! i) as [a'|] eqn:Ea; [|discriminate].
    destruct (Scene64.mergeShort raw !! S i) as [b'|] eqn:Eb; [|discriminate].
    simpl in Ha, Hb. injection Ha as <-. injection Hb as <-. simpl.
    f_equal. exact (Hc i a' b' Ea Eb).
  - rewrite length_map. unfold Scene64.mergeShort.
    pose proof (mergeLoop64_length (length raw) raw).
    pose proof (collect64_length [F64.zero] times) as Hcl.
    fold (Scene64.rawSceneTimes times) in Hcl.
    assert (length raw = length (Scene64.rawSceneTimes times)) as Hr
      by apply rawSegments64_length.
    simpl in Hcl. lia.
Qed.

(** ** Segment builder: order, filter and grid of the response *)

Section BuilderOutput.
Context {U : Unicode}.
Import Builder.
Local Open Scope Q_scope.

Lemma filter_holds {A} (P : A -> Prop) `{forall x, Decision (P x)} (l : list A) :
  Forall P (filter P l).
Proof.
  induction l as [|x l IH]; [constructor|].
  rewrite filter_cons. destruct (decide (P x)); [constructor|]; assumption.
Qed.

Lemma analyze_kept (frames : list frame) :
  Forall (fun t => keepByText t = true) (analyze frames).
Proof.
  unfold analyze. apply merge_Forall; [| constructor |].
  - intros m t Hm _. rewrite <- Hm. apply keepByText_text. reflexivity.
  - apply sortByStart_Forall.
    eapply Forall_impl; [apply filter_holds|].
    intros t Ht. simpl in Ht. unfold keepText in Ht.
    apply andb_true_iff in Ht. tauto.
Qed.

Lemma map_alter_same {A B} (g : A -> B) (f : A -> A) (k : nat) (l : list A) :
  (forall x, l !! k = Some x -> g (f x) = g x) -> map g (alter f k l) = map g l.
Proof.
  revert k. induction l as [|a l IH]; intros k H; [reflexivity|].
  destruct k as [|k]; simpl.
  - f_equal. apply H. reflexivity.
  - f_equal. apply IH. intros x Hx. apply H. exact Hx.
Qed.

Lemma mergeInto_starts (merged : list textEntry) (t : textEntry) :
  Forall (fun q => q <= start t) (map start merged) ->
  map start (mergeInto merged t) = map start merged \/
  map start (mergeInto merged t) = map start merged ++ [start t].
Proof.
  intros Hle. unfold mergeInto. destruct (findIndex _ merged) as [k|].
  - left. apply map_alter_same. intros m Hm. simpl. unfold Math_min.
    rewrite Qle_bool_true; [reflexivity|].
    rewrite Forall_forall in Hle. apply Hle.
    apply list_elem_of_fmap. exists m. split; [reflexivity|].
    eapply list_elem_of_lookup_2. exact Hm.
  - right. rewrite map_app. reflexivity.
Qed.

Lemma sorted_snoc (l : list Q) (q : Q) :
  StronglySorted Qle l -> Forall (fun x => x <= q) l -> StronglySorted Qle (l ++ [q]).
Proof.
  induction 1 as [|x l Hl IH Hall]; intros Hle; simpl.
  - repeat constructor.
  - inversion Hle; subst. constructor; [apply IH; assumption|].
    apply Forall_app. split; [exact Hall|]. constructor; [assumption | constructor].
Qed.

Lemma merge_sorted (l acc : list textEntry) :
  StronglySorted Qle (map start acc) ->
  StronglySorted Qle (map start l) ->
  Forall (fun t => Forall (fun q => q <= start t) (map start acc)) l ->
  StronglySorted Qle (map start (fold_left mergeInto l acc)).
Proof.
  revert acc. induction l as [|t l IH]; intros acc Hacc Hl Hle; simpl; [exact Hacc|].
  inversion Hle as [|? ? Ht Hrest]; subst.
  inversion Hl as [|? ? Hl' Hall]; subst.
  assert (Forall (fun t' => start t <= start t') l) as Hall'.
  { clear -Hall. induction l as [|a l IH]; [constructor|].
    inversion Hall; subst. constructor; [assumption | apply IH; assumption]. }
  destruct (mergeInto_starts acc t Ht) as [E|E].
  - apply IH; rewrite ?E; assumption.
  - apply IH; rewrite ?E; [apply sorted_snoc; assumption | assumption |].
    rewrite Forall_forall in Hrest, Hall'. apply Forall_forall. intros t' Ht'.
    apply Forall_app. split; [apply Hrest; exact Ht'|].
    constructor; [apply Hall'; exact Ht' | constructor].
Qed.

(** The grid. *)
Lemma onGrid_step (n : Z) : onGrid (inject_Z n * 0.5 + frameInterval).
Proof.
  exists (n + 1)%Z. rewrite inject_Z_plus. change (inject_Z 1) with 1.
  unfold frameInterval. lra.
Qed.

Lemma onGrid_at (n : Z) : onGrid (inject_Z n * 0.5).
Proof. exists n. unfold frameInterval. lra. Qed.

Lemma onFrame_gridded (f : frame) (acc : list textEntry) :
  Forall gridded acc -> Forall gridded (onFrame acc f).
Proof.
  apply (onFrame_Forall_at gridded (timestamp f)); try reflexivity;
    unfold gridded, timestamp; simpl.
  - intros. split; [apply onGrid_at | apply onGrid_step].
  - intros e [H1 H2] _. split; [exact H1 | apply onGrid_step].
  - intros e vx vy He. exact He.
  - intros e [H1 H2] _ _. split; [exact H1 | apply onGrid_at].
Qed.

Lemma analyze_gridded (frames : list frame) : Forall gridded (analyze frames).
Proof.
  apply analyze_Forall.
  - intros m t [H1 H2] [H3 H4]. unfold gridded. simpl. unfold Math_min, Math_max.
    split; [destruct (Qle_bool (start m) (start t)) | destruct (Qle_bool (end_ m) (end_ t))];
      assumption.
  - unfold collected. destruct (last frames) as [lastF|]; [|constructor].
    apply Forall_fmap.
    eapply Forall_impl; [apply fold_onFrame_Forall; [apply onFrame_gridded | constructor]|].
    intros t [H1 H2]. simpl. unfold closeAtEnd. destruct (closed t); [split; assumption|].
    split; [exact H1|]. simpl. apply (onGrid_step (frameNum lastF - 1)).
Qed.

End BuilderOutput.

(** X3.  No text of the response is a brand name alone, a size label
    alone, a brand with a size, the product slogan, or shorter than three
    code units: every returned segment passes the text tests of the
    filter, also after the final merge. *)
Theorem response_passes_text_filter {U : Unicode} (frames : list Builder.frame) :
  Forall (fun t => Builder.keepByText t = true /\
                   (3 <= js_length (trim (toLowerCase (Builder.text t))))%nat)
         (Builder.analyze frames).
Proof.
  eapply Forall_impl; [apply analyze_kept|].
  intros t Ht. split; [exact Ht|]. unfold Builder.keepByText in Ht.
  apply andb_true_iff in Ht. destruct Ht as [_ Ht].
  apply negb_true_iff, Nat.ltb_ge in Ht. exact Ht.
Qed.

(** X4.  The segments of the response are in non-decreasing order of
    their start times. *)
Theorem response_sorted_by_start {U : Unicode} (frames : list Builder.frame) :
  StronglySorted Qle (map Builder.start (Builder.analyze frames)).
Proof.
  unfold Builder.analyze. apply merge_sorted.
  - constructor.
  - apply sortByStart_sorted.
  - apply Forall_forall. intros t _. constructor.
Qed.

(** X5.  Every start and end time of the response is a whole number of
    frame intervals (0.5 s): the timing never leaves the sampling grid. *)
Theorem response_on_grid {U : Unicode} (frames : list Builder.frame) :
  Forall (fun t => onGrid (Builder.start t) /\ onGrid (Builder.end_ t))
         (Builder.analyze frames).
Proof. apply analyze_gridded. Qed.

(** ** Job coordinator: progress, cancellation and output files *)

Section Progress.
Context {U : Unicode}.
Import Coordinator.

Lemma cancel_fields (j : job) :
  countries (cancel j) = countries j /\ completed (cancel j) = completed j /\
  outputs (cancel j) = outputs j /\ id (cancel j) = id j /\
  name (cancel j) = name j /\ naming (cancel j) = naming j.
Proof. unfold cancel. destruct (jobStatus j); repeat split. Qed.

Lemma outputsAre_cancel (n : nat) (j : job) : outputsAre n j -> outputsAre n (cancel j).
Proof.
  intros H lang. unfold outputsAre, LANGUAGES in *.
  destruct (cancel_fields j) as (-> & _ & -> & _). apply H.
Qed.

Lemma outputsAre_insert (i : nat) (lang : string) (v : ustring) (j : job) :
  LANGUAGES j !! i = Some lang -> outputsAre i j ->
  outputsAre (S i) (with_output lang v (S i) j).
Proof.
  intros Hl H l. unfold outputsAre in *.
  change (LANGUAGES (with_output lang v (S i) j)) with (LANGUAGES j).
  change (outputs (with_output lang v (S i) j)) with (<[lang := v]> (outputs j)).
  rewrite (take_S_r _ _ _ Hl), elem_of_app, list_elem_of_singleton.
  rewrite lookup_insert. destruct (decide (lang = l)) as [->|Hne].
  - split; [intros _; right; reflexivity | intros _; eauto].
  - rewrite H. split; [intros ?; left; assumption | intros [?|?]; [assumption | congruence]].
Qed.

Lemma loopHead_progress (idx : nat) (d : driver) :
  (idx <= length (LANGUAGES (theJob d)))%nat ->
  completed (theJob d) = idx -> outputsAre idx (theJob d) ->
  progress (loopHead idx d).
Proof.
  intros Hle Hc Ho. unfold loopHead.
  destruct (LANGUAGES (theJob d) !! idx) as [lang|] eqn:El.
  - apply lookup_lt_Some in El as Hlt.
    destruct (cancelled (theJob d)).
    + unfold progress, outputsAre, LANGUAGES in *. simpl.
      split; [lia|]. split; [rewrite Hc; exact Ho | discriminate].
    + destruct (renderLanguage _ _ _).
      * unfold progress, outputsAre, LANGUAGES in *. simpl. repeat split; try assumption;
          apply Ho.
      * unfold progress, outputsAre, LANGUAGES in *. simpl.
        split; [lia|]. split; [rewrite Hc; exact Ho | discriminate].
  - apply lookup_ge_None in El.
    unfold progress, outputsAre, LANGUAGES in *. simpl.
    split; [lia|]. split; [rewrite Hc; exact Ho|]. intros _. lia.
Qed.

Lemma step_progress (d : driver) (e : event) :
  consistent d -> progress d -> progress (step d e).
Proof.
  intros Hcons Hp. destruct e as [parsed | msg | | msg | | ]; unfold step.
  - destruct (at_ d) eqn:Ea; try exact Hp.
    unfold progress in Hp. rewrite Ea in Hp. destruct Hp as [Hc Ho].
    destruct (cancelled (theJob d)).
    + unfold progress, outputsAre, LANGUAGES in *. simpl.
      split; [lia|]. split; [rewrite Hc; exact Ho | discriminate].
    + apply loopHead_progress; simpl; [lia | exact Hc | exact Ho].
  - destruct (at_ d) eqn:Ea; try exact Hp.
    unfold progress in Hp. rewrite Ea in Hp. destruct Hp as [Hc Ho].
    unfold progress, outputsAre, LANGUAGES in *. simpl.
    split; [lia|]. split; [rewrite Hc; exact Ho | discriminate].
  - destruct (at_ d) eqn:Ea; try exact Hp.
    unfold progress in Hp. rewrite Ea in Hp. destruct Hp as (Hlt & Hc & Ho).
    destruct (LANGUAGES (theJob d) !! langIdx) as [lang|] eqn:El;
      [|unfold progress; rewrite Ea; tauto].
    pose proof (outputsAre_insert langIdx lang (outVideo (theJob d) lang) (theJob d) El Ho).
    unfold progress. cbn [at_ theJob].
    split; [exact Hlt|]. split; [reflexivity | assumption].
  - destruct (at_ d) eqn:Ea; try exact Hp.
    unfold progress in Hp. rewrite Ea in Hp. destruct Hp as (Hlt & Hc & Ho).
    unfold progress, outputsAre, LANGUAGES in *. simpl.
    split; [lia|]. split; [rewrite Hc; exact Ho | discriminate].
  - destruct (at_ d) eqn:Ea; try exact Hp.
    unfold progress in Hp. rewrite Ea in Hp. destruct Hp as (Hlt & Hc & Ho).
    apply loopHead_progress; [lia | exact Hc | exact Ho].
  - unfold progress in *. cbn [at_ theJob].
    destruct (cancel_fields (theJob d)) as (Hco & Hcm & Hou & _).
    assert (LANGUAGES (cancel (theJob d)) = LANGUAGES (theJob d)) as HL
      by (unfold LANGUAGES; rewrite Hco; reflexivity).
    rewrite HL, Hcm, cancel_status.
    destruct (at_ d); intuition auto using outputsAre_cancel.
Qed.

Lemma run_progress (d : driver) (events : list event) :
  consistent d -> progress d -> consistent (run d events) /\ progress (run d events).
Proof.
  revert d. induction events as [|e events IH]; intros d Hc Hp; [split; assumption|].
  unfold run. simpl. apply IH; [apply step_status; exact Hc | apply step_progress; assumption].
Qed.

Lemma step_languages (d : driver) (e : event) :
  LANGUAGES (theJob (step d e)) = LANGUAGES (theJob d).
Proof.
  unfold LANGUAGES. f_equal.
  destruct e; unfold step, fail, loopHead; simpl;
    repeat match goal with
           | |- context [match ?x with _ => _ end] => destruct x; simpl
           end;
    try reflexivity; apply cancel_fields.
Qed.

Lemma run_languages (d : driver) (events : list event) :
  LANGUAGES (theJob (run d events)) = LANGUAGES (theJob d).
Proof.
  revert d. induction events as [|e events IH]; intros d; [reflexivity|].
  unfold run in *. simpl. rewrite IH. apply step_languages.
Qed.

(** A finished job never changes again. *)
Lemma step_final (d : driver) (e : event) :
  consistent d -> at_ d = Finished -> step d e = d.
Proof.
  intros Hc Hf. unfold consistent in Hc. rewrite Hf in Hc.
  unfold step. rewrite Hf. destruct e; try reflexivity.
  unfold cancel. destruct d as [j p tr r]. simpl in *. subst p.
  destruct Hc as [-> | [-> | ->]]; reflexivity.
Qed.

End Progress.

(** X6.  For a job the [generate] handler creates and any sequence
    of events: the counter [completed] never exceeds the number of the
    job's languages, the languages that have an output are exactly the
    first [completed] ones of the job's list, and a job in status done has
    completed all of them, so each of its languages has an output. *)
Theorem progress_of_job {U : Unicode} (jobId : string) (rq : Coordinator.request)
    (j : Coordinator.job) (events : list Coordinator.event) :
  Coordinator.createJob jobId rq = Some j ->
  let final := Coordinator.theJob (Coordinator.run (Coordinator.started j) events) in
  (Coordinator.completed final <= length (Coordinator.LANGUAGES j))%nat /\
  (forall lang, is_Some (Coordinator.outputs final !! lang) <->
                lang ∈ take (Coordinator.completed final) (Coordinator.LANGUAGES j)) /\
  (Coordinator.jobStatus final = Coordinator.Done ->
     Coordinator.completed final = length (Coordinator.LANGUAGES j) /\
     forall lang, lang ∈ Coordinator.LANGUAGES j ->
                  is_Some (Coordinator.outputs final !! lang)).
Proof.
  intros Hc final. destruct (created_consistent _ _ _ Hc) as (Hcons & _ & _ & Ho & _ & Hcomp).
  assert (progress (Coordinator.started j)) as Hp.
  { unfold progress. simpl. split; [exact Hcomp|]. intros lang.
    rewrite Ho, lookup_empty. simpl. split; [intros [? ?]; discriminate | intros H].
    apply elem_of_nil in H. contradiction. }
  destruct (run_progress _ events Hcons Hp) as [Hc' Hp'].
  pose proof (run_languages (Coordinator.started j) events) as HL. simpl in HL.
  fold final in HL. unfold progress, consistent in Hp', Hc'. unfold outputsAre in Hp'.
  fold final in Hp', Hc'. rewrite HL in Hp'.
  assert ((Coordinator.completed final <= length (Coordinator.LANGUAGES j))%nat /\
          (forall lang, is_Some (Coordinator.outputs final !! lang) <->
                lang ∈ take (Coordinator.completed final) (Coordinator.LANGUAGES j)) /\
          (Coordinator.jobStatus final = Coordinator.Done ->
             Coordinator.completed final = length (Coordinator.LANGUAGES j))) as (H1 & H2 & H3).
  { destruct (Coordinator.at_ (Coordinator.run (Coordinator.started j) events)).
    - destruct Hp' as [E Ho']. rewrite E in *. split; [lia|]. split; [exact Ho'|].
      rewrite Hc'. discriminate.
    - destruct Hp' as (Hlt & E & Ho'). rewrite E in *. split; [lia|]. split; [exact Ho'|].
      rewrite Hc'. discriminate.
    - destruct Hp' as (Hlt & E & Ho'). rewrite E in *. split; [lia|]. split; [exact Ho'|].
      rewrite Hc'. discriminate.
    - exact Hp'. }
  split; [exact H1|]. split; [exact H2|]. intros Hd. split; [apply H3; exact Hd|].
  intros lang Hin. apply H2. rewrite (H3 Hd), firstn_all. exact Hin.
Qed.

Lemma progress_of_job_witness :
  Coordinator.createJob "gen-1" (demoRequest Coordinator.NoArray false) = Some demoCreated /\
  (Coordinator.completed
     (Coordinator.theJob (@Coordinator.run asciiTables (Coordinator.started demoCreated) demoEvents))
   <= length (Coordinator.LANGUAGES demoCreated))%nat.
Proof.
  split; [reflexivity|].
  apply (@progress_of_job asciiTables "gen-1"
           (demoRequest Coordinator.NoArray false) demoCreated demoEvents).
  reflexivity.
Defined.

(** X7.  Once the driver of a job has stopped (status done, error or
    cancelled), no event changes anything in the job: later returns of
    calls cannot occur and a cancel request is refused. *)
Theorem finished_job_is_final {U : Unicode} (d : Coordinator.driver)
    (events : list Coordinator.event) :
  consistent d -> Coordinator.at_ d = Coordinator.Finished ->
  Coordinator.run d events = d.
Proof.
  intros Hc Hf. induction events as [|e events IH]; [reflexivity|].
  unfold Coordinator.run in *. simpl. rewrite (step_final d e Hc Hf). exact IH.
Qed.

Lemma finished_job_is_final_witness :
  let d := @Coordinator.run asciiTables (Coordinator.started twoLanguageJob)
             [Coordinator.TranslationReturned None; Coordinator.EncodeFailed "exit 1"] in
  @Coordinator.run asciiTables d [Coordinator.CancelRequest; Coordinator.EncodeReturned] = d.
Proof.
  apply (@finished_job_is_final asciiTables).
  - right. left. reflexivity.
  - reflexivity.
Defined.

(** X8.  A cancel request that arrives while language number
    [langIdx] is being encoded is only seen at the next pass of the loop:
    the running encode finishes and its output is recorded; then, if
    another language is left, the job stops as cancelled and no further
    track is written, and if it was the last language the job ends as done
    in spite of the request. *)
Theorem cancel_at_iteration_boundary {U : Unicode} (d : Coordinator.driver)
    (langIdx : nat) (lang : string) :
  consistent d ->
  Coordinator.at_ d = Coordinator.AwaitEncode langIdx ->
  Coordinator.LANGUAGES (Coordinator.theJob d) !! langIdx = Some lang ->
  let d' := Coordinator.run d [Coordinator.CancelRequest; Coordinator.EncodeReturned;
                               Coordinator.QCReturned] in
  Coordinator.at_ d' = Coordinator.Finished /\
  Coordinator.outputs (Coordinator.theJob d') =
    <[lang := Coordinator.outVideo (Coordinator.theJob d) lang]>
      (Coordinator.outputs (Coordinator.theJob d)) /\
  Coordinator.rendered d' = Coordinator.rendered d /\
  Coordinator.jobStatus (Coordinator.theJob d') =
    (if (S langIdx <? length (Coordinator.LANGUAGES (Coordinator.theJob d)))%nat
     then Coordinator.Cancelled else Coordinator.Done).
Proof.
  intros Hc Ha Hl d'. unfold consistent in Hc. rewrite Ha in Hc.
  destruct d as [j p tr r]. simpl in Hc, Ha, Hl. subst p.
  set (d1 := Coordinator.mkDriver (Coordinator.with_cancelled j)
               (Coordinator.AwaitEncode langIdx) tr r).
  set (d2 := Coordinator.mkDriver
               (Coordinator.with_output lang (Coordinator.outVideo j lang) (S langIdx)
                  (Coordinator.with_cancelled j))
               (Coordinator.AwaitQC langIdx) tr r).
  assert (Coordinator.step (Coordinator.mkDriver j (Coordinator.AwaitEncode langIdx) tr r)
            Coordinator.CancelRequest = d1) as H1.
  { unfold Coordinator.step, Coordinator.cancel. simpl. rewrite Hc. reflexivity. }
  assert (Coordinator.step d1 Coordinator.EncodeReturned = d2) as H2.
  { unfold Coordinator.step, d1. simpl.
    change (Coordinator.LANGUAGES (Coordinator.with_cancelled j))
      with (Coordinator.LANGUAGES j).
    rewrite Hl. reflexivity. }
  assert (d' = Coordinator.loopHead (S langIdx) d2) as ->.
  { unfold d', Coordinator.run. cbn [fold_left]. rewrite H1, H2. reflexivity. }
  unfold Coordinator.loopHead, d2. cbn [Coordinator.theJob Coordinator.translations
    Coordinator.rendered].
  change (Coordinator.LANGUAGES (Coordinator.with_output _ _ _ _)) with (Coordinator.LANGUAGES j).
  destruct (Coordinator.LANGUAGES j !! S langIdx) as [next|] eqn:En.
  - apply lookup_lt_Some in En as Hlt. apply Nat.ltb_lt in Hlt. rewrite Hlt.
    simpl. repeat split.
  - apply lookup_ge_None in En as Hge.
    assert ((S langIdx <? length (Coordinator.LANGUAGES j))%nat = false) as ->
      by (apply Nat.ltb_ge; exact Hge).
    simpl. repeat split.
Qed.

Lemma cancel_at_iteration_boundary_witness :
  let d := @Coordinator.run asciiTables (Coordinator.started twoLanguageJob)
             [Coordinator.TranslationReturned None] in
  Coordinator.jobStatus
    (Coordinator.theJob
       (@Coordinator.run asciiTables d
          [Coordinator.CancelRequest; Coordinator.EncodeReturned; Coordinator.QCReturned]))
    = Coordinator.Cancelled.
Proof.
  intros d.
  destruct (@cancel_at_iteration_boundary asciiTables d 0%nat "HR"%string) as (_ & _ & _ & H).
  - reflexivity.
  - reflexivity.
  - reflexivity.
  - exact H.
Defined.

Section OutputFiles.
Context {U : Unicode}.
Import Coordinator.

Lemma ustr_injective (a b : string) : ustr a = ustr b -> a = b.
Proof.
  unfold ustr. intros H.
  assert (String.list_ascii_of_string a = String.list_ascii_of_string b) as Hl.
  { revert H. generalize (String.list_ascii_of_string a) (String.list_ascii_of_string b).
    induction l as [|x l IH]; intros [|y l'] H; try discriminate H; [reflexivity|].
    simpl in H. injection H as Hxy Hll. f_equal; [|apply IH; exact Hll].
    rewrite <- (Ascii.ascii_N_embedding x), <- (Ascii.ascii_N_embedding y), Hxy.
    reflexivity. }
  rewrite <- (String.string_of_list_ascii_of_string a),
          <- (String.string_of_list_ascii_of_string b), Hl. reflexivity.
Qed.

Lemma ustr_length (a : string) : length (ustr a) = String.length a.
Proof.
  unfold ustr. rewrite length_map. induction a as [|c a IH]; simpl; congruence.
Qed.

Lemma split_nonempty (s : ustring) : Path.split s <> [].
Proof.
  destruct s as [|c s]; [discriminate|]. cbn [Path.split].
  destruct (c =? 47)%N; [discriminate|]. destruct (Path.split s); discriminate.
Qed.

(** A last argument in one piece is the last segment of the joined path. *)
Lemma split_app_slash (base f : ustring) :
  plain f -> Path.split (base ++ 47%N :: f) = Path.split base ++ [f].
Proof.
  intros Hf. induction base as [|c base IH].
  - cbn [app Path.split N.eqb Pos.eqb]. f_equal.
    induction f as [|d f IHf]; [reflexivity|].
    cbn [Path.split]. apply not_elem_of_cons in Hf. destruct Hf as [Hd Hf].
    destruct (N.eqb_spec d 47) as [E|_]; [congruence|].
    rewrite (IHf Hf). reflexivity.
  - cbn [app Path.split]. rewrite IH.
    destruct (c =? 47)%N; [reflexivity|].
    pose proof (split_nonempty base) as Hne.
    destruct (Path.split base) as [|seg segs]; [contradiction | reflexivity].
Qed.

Lemma keep_proper (allow : bool) (res : list ustring) (f : ustring) :
  f <> [] -> f <> ustr "." -> f <> ustr ".." -> Path.keep allow res f = res ++ [f].
Proof.
  intros H1 H2 H3. unfold Path.keep.
  rewrite !bool_decide_eq_false_2 by assumption. reflexivity.
Qed.

Lemma unsplit_snoc (st : list ustring) (f : ustring) :
  Path.unsplit (st ++ [f]) =
  match st with [] => [] | _ => Path.unsplit st ++ [47%N] end ++ f.
Proof.
  induction st as [|a st IH]; [reflexivity|].
  destruct st as [|b st].
  - cbn [app Path.unsplit]. rewrite <- app_assoc. reflexivity.
  - change (Path.unsplit ((a :: b :: st) ++ [f]))
      with (a ++ 47%N :: Path.unsplit ((b :: st) ++ [f])).
    rewrite IH.
    change (Path.unsplit (a :: b :: st)) with (a ++ 47%N :: Path.unsplit (b :: st)).
    rewrite <- !app_assoc. reflexivity.
Qed.

Lemma last_app_cons {A} (l : list A) (x : A) (l' : list A) (d : A) :
  List.last (l ++ x :: l') d = List.last (x :: l') d.
Proof.
  induction l as [|a l IH]; [reflexivity|].
  cbn [app]. destruct (l ++ x :: l') eqn:E; [destruct l; discriminate|].
  change (List.last (a :: a0 :: l0) d) with (List.last (a0 :: l0) d). exact IH.
Qed.

Lemma last_plain (f : ustring) (c : N) :
  plain (c :: f) -> List.last (c :: f) 0%N <> 47%N.
Proof.
  revert c. induction f as [|d f IH]; intros c H.
  - apply not_elem_of_cons in H. destruct H as [H _]. simpl. congruence.
  - change (List.last (c :: d :: f) 0%N) with (List.last (d :: f) 0%N).
    apply IH. apply not_elem_of_cons in H. destruct H as [_ H]. exact H.
Qed.

(** Joining a directory and a file name in one piece that is not [.] or
    [..] puts the name behind what the directory alone decides. *)
Lemma join_plain (dir : ustring) :
  dir <> [] ->
  exists before, forall f,
    plain f -> f <> [] -> f <> ustr "." -> f <> ustr ".." ->
    Path.join dir f = before ++ f.
Proof.
  intros Hdir. destruct dir as [|first dir]; [contradiction|].
  set (allow := negb (first =? 47)%N).
  set (st := fold_left (Path.keep allow) (Path.split (first :: dir)) []).
  exists ((if (first =? 47)%N then [47%N] else []) ++
          match st with [] => [] | _ => Path.unsplit st ++ [47%N] end).
  intros f Hf H1 H2 H3. destruct f as [|c f]; [contradiction|].
  unfold Path.join, Path.normalize. cbn [app].
  change (first :: dir ++ 47%N :: c :: f) with ((first :: dir) ++ 47%N :: c :: f).
  rewrite last_app_cons.
  change (List.last (47%N :: c :: f) 0%N) with (List.last (c :: f) 0%N).
  destruct (N.eqb_spec (List.last (c :: f) 0%N) 47) as [E|_];
    [exfalso; exact (last_plain f c Hf E)|].
  unfold Path.normalizeString. fold allow.
  rewrite split_app_slash by exact Hf.
  rewrite fold_left_app. cbn [fold_left]. fold st.
  rewrite keep_proper by assumption. rewrite unsplit_snoc.
  destruct (match st with [] => [] | _ => Path.unsplit st ++ [47%N] end ++ c :: f) eqn:E.
  - destruct (match st with [] => [] | _ => Path.unsplit st ++ [47%N] end); discriminate.
  - rewrite app_nil_r, <- E, <- app_assoc. reflexivity.
Qed.

Lemma normalize_nonempty (p : ustring) : Path.normalize p <> [].
Proof.
  unfold Path.normalize. destruct p as [|first p]; [discriminate|].
  destruct (Path.normalizeString _ _) as [|c r].
  - destruct (first =? 47)%N; [discriminate|]. destruct (_ =? 47)%N; discriminate.
  - destruct (first =? 47)%N; discriminate.
Qed.

Lemma join_nonempty (a b : ustring) : Path.join a b <> [].
Proof.
  unfold Path.join. destruct a, b; try discriminate; apply normalize_nonempty.
Qed.

Lemma ustr_app (a b : string) : ustr (a ++ b) = ustr a ++ ustr b.
Proof.
  unfold ustr. induction a as [|c a IH]; [reflexivity|].
  simpl. f_equal. exact IH.
Qed.

Lemma videoName_lang (j : job) (a b : string) : videoName j a = videoName j b -> a = b.
Proof.
  unfold videoName. intros H. destruct (naming j) as [np|].
  - do 4 apply app_inv_head in H. apply app_inv_tail in H.
    apply ustr_injective. exact H.
  - do 2 apply app_inv_head in H. apply ustr_injective. exact H.
Qed.

Lemma mp4_proper (v : ustring) :
  plain v ->
  plain (v ++ ustr ".mp4") /\ v ++ ustr ".mp4" <> [] /\
  v ++ ustr ".mp4" <> ustr "." /\ v ++ ustr ".mp4" <> ustr "..".
Proof.
  intros Hv. split; [|split; [|split]].
  - unfold plain in *. rewrite elem_of_app. intros [H|H]; [contradiction|].
    vm_compute in H. repeat (apply elem_of_cons in H; destruct H as [H|H]; [discriminate|]).
    apply elem_of_nil in H. exact H.
  - intros H. apply (f_equal length) in H. rewrite length_app in H. simpl in H. lia.
  - intros H. apply (f_equal length) in H. rewrite length_app in H. simpl in H. lia.
  - intros H. apply (f_equal length) in H. rewrite length_app in H. simpl in H. lia.
Qed.

End OutputFiles.

(** X9.  Within one job the output file of a language determines the
    language, as long as the file names hold no [/]: two different language
    codes never name the same file, with naming parts or without.  With a
    [/] they can: for the author [/../../x] the files of Croatian and Czech
    are the same, [uploads/generated/x.mp4]. *)
Theorem output_files_distinct (j : Coordinator.job) (a b : string) :
  a <> b -> plain (Coordinator.videoName j a) -> plain (Coordinator.videoName j b) ->
  Coordinator.outVideo j a <> Coordinator.outVideo j b /\
  Coordinator.outVideo climbingJob "HR" = Coordinator.outVideo climbingJob "CZ".
Proof.
  intros Hne Ha Hb. split; [|vm_compute; reflexivity].
  intros H. apply Hne. unfold Coordinator.outVideo in H.
  destruct (join_plain (Coordinator.outputDir j)) as (before & Hjoin);
    [apply join_nonempty|].
  destruct (mp4_proper _ Ha) as (Pa & Na & Da & DDa).
  destruct (mp4_proper _ Hb) as (Pb & Nb & Db & DDb).
  rewrite (Hjoin _ Pa Na Da DDa), (Hjoin _ Pb Nb Db DDb) in H.
  apply app_inv_head, app_inv_tail in H.
  apply (videoName_lang j). exact H.
Qed.

Lemma output_files_distinct_witness :
  "HR"%string <> "CZ"%string /\
  plain (Coordinator.videoName demoCreated "HR") /\
  plain (Coordinator.videoName demoCreated "CZ") /\
  Coordinator.outVideo demoCreated "HR" <> Coordinator.outVideo demoCreated "CZ" /\
  Coordinator.outVideo climbingJob "HR" = Coordinator.outVideo climbingJob "CZ".
Proof.
  assert ("HR"%string <> "CZ"%string) as H0 by discriminate.
  assert (forall l : list N, bool_decide (47%N ∈ l) = false -> plain l) as Hp.
  { intros l E. apply bool_decide_eq_false in E. exact E. }
  assert (plain (Coordinator.videoName demoCreated "HR")) as H1 by (apply Hp; reflexivity).
  assert (plain (Coordinator.videoName demoCreated "CZ")) as H2 by (apply Hp; reflexivity).
  split; [exact H0|]. split; [exact H1|]. split; [exact H2|].
  apply (output_files_distinct demoCreated "HR"%string "CZ"%string H0 H1 H2).
Defined.
(** ** Subtitle times *)

Section AssTime.

Lemma same_eq (x y : F64.float) : F64.same x y = true -> x = y.
Proof.
  destruct x as [a|a| |a m e], y as [b|b| |b n f]; simpl; try discriminate;
    try (intros H; apply Bool.eqb_prop in H; congruence); try reflexivity.
  intros H. apply andb_true_iff in H. destruct H as [H He].
  apply andb_true_iff in H. destruct H as [Hs Hm].
  apply Bool.eqb_prop in Hs. apply Pos.eqb_eq in Hm. apply Z.eqb_eq in He. congruence.
Qed.

(** Every one of the first frame times is written as expected and read
    back as it was: by running both functions on each of them. *)
Lemma firstTimes_checked :
  forallb (fun k => bool_decide (Ass.formatAssTime (Ass.gridTime k) = Some (Ass.written k)) &&
                    Ass.roundTrips (Ass.gridTime k))
          (seq 0 Ass.firstTimes) = true.
Proof. vm_compute. reflexivity. Qed.

Lemma firstTimes_at (k : nat) :
  (k < Ass.firstTimes)%nat ->
  Ass.formatAssTime (Ass.gridTime k) = Some (Ass.written k) /\
  Ass.roundTrips (Ass.gridTime k) = true.
Proof.
  intros Hk. pose proof firstTimes_checked as H.
  rewrite forallb_forall in H. specialize (H k).
  assert (In k (seq 0 Ass.firstTimes)) as Hin by (apply in_seq; lia).
  apply H in Hin. apply andb_true_iff in Hin. destruct Hin as [H1 H2].
  apply bool_decide_eq_true in H1. split; assumption.
Qed.

End AssTime.

(** X10.  In doubles: the time [k * 0.5] of a frame, for the first 1200
    frames (ten minutes of video), survives the subtitle file: reading
    with [parseAssTime] what [formatAssTime] wrote gives the same double
    back. *)
Theorem ass_time_round_trip (k : nat) :
  (k < Ass.firstTimes)%nat ->
  exists written,
    Ass.formatAssTime (Ass.gridTime k) = Some written /\
    Ass.parseAssTime written = Ass.gridTime k.
Proof.
  intros Hk. destruct (firstTimes_at k Hk) as [Hw Hr].
  unfold Ass.roundTrips in Hr. rewrite Hw in Hr.
  exists (Ass.written k). split; [exact Hw | apply same_eq, Hr].
Qed.

Lemma ass_time_round_trip_witness :
  (745 < Ass.firstTimes)%nat /\
  exists written,
    Ass.formatAssTime (Ass.gridTime 745) = Some written /\
    Ass.parseAssTime written = Ass.gridTime 745.
Proof.
  assert (745 < Ass.firstTimes)%nat as H by (vm_compute; lia).
  split; [exact H|]. apply (ass_time_round_trip 745 H).
Defined.

(** X11.  In doubles: for the same frame times [formatAssTime] writes the
    hours, two digits of minutes, two digits of seconds and the hundredths
    00 or 50, separated by [:], [:] and [.]; frame 746, at 372.5 s, is
    written [0:06:12.50]. *)
Theorem ass_time_shape (k : nat) :
  (k < Ass.firstTimes)%nat ->
  let n := N.of_nat k in
  Ass.formatAssTime (Ass.gridTime k) =
    Some (Ass.toString (Z.of_N (n / 7200)) ++ ustr ":" ++
          Ass.two ((n / 120) mod 60) ++ ustr ":" ++
          Ass.two ((n / 2) mod 60) ++ ustr "." ++ Ass.two (50 * (n mod 2)))%N.
Proof. intros Hk. apply (firstTimes_at k Hk). Qed.

Lemma ass_time_shape_witness :
  (745 < Ass.firstTimes)%nat /\
  Ass.formatAssTime (Ass.gridTime 745) = Some (ustr "0:06:12.50").
Proof.
  assert (745 < Ass.firstTimes)%nat as H by (vm_compute; lia).
  split; [exact H|]. exact (ass_time_shape 745 H).
Defined.

(** ** The first localizer: one segment per text *)

Section V1Segments.
Import V1.
Local Open Scope Q_scope.

Lemma findIndex_text_Some (txt : list N) (segments : list segment) (i : nat) :
  findIndex (fun s => ustring_eqb (text s) txt) segments = Some i ->
  txt ∈ map text segments.
Proof.
  intros H. destruct (findIndex_Some _ _ _ H) as (x & Hx & E).
  apply bool_decide_eq_true in E. subst txt.
  apply list_elem_of_In, in_map, list_elem_of_In. eapply list_elem_of_lookup_2. exact Hx.
Qed.

Lemma findIndex_text_None (txt : list N) (segments : list segment) :
  findIndex (fun s => ustring_eqb (text s) txt) segments = None ->
  txt ∉ map text segments.
Proof.
  intros H Hin. apply findIndex_None in H.
  apply list_elem_of_In, in_map_iff in Hin. destruct Hin as (s & Hs & Hin).
  apply list_elem_of_In in Hin. rewrite Forall_forall in H. specialize (H s Hin).
  apply bool_decide_eq_false in H. contradiction.
Qed.

Lemma alter_set_end_texts (e : Q) (i : nat) (segments : list segment) :
  map text (alter (set_end e) i segments) = map text segments.
Proof. apply map_alter_same. intros x _. reflexivity. Qed.

(** The texts after [onText]: unchanged, or one new text at the end. *)
Lemma onText_texts (ts : Q) (lastTexts : list (list N)) (segments : list segment)
    (t p : option (list N)) :
  (forall x, x ∈ lastTexts -> x ∈ map text segments) ->
  (map text (onText ts lastTexts segments t p) = map text segments /\
   forall txt, t = Some txt -> txt <> [] -> txt ∈ map text segments) \/
  (exists txt, t = Some txt /\ txt <> [] /\ (txt ∉ map text segments) /\
               map text (onText ts lastTexts segments t p) = map text segments ++ [txt]).
Proof.
  intros Hl. unfold onText. destruct t as [[|c rest]|].
  - left. split; [reflexivity|]. intros txt [= <-] H. contradiction.
  - destruct (findIndex _ segments) as [i|] eqn:F.
    + left. split; [apply alter_set_end_texts|].
      intros txt [= <-] _. eapply findIndex_text_Some. exact F.
    + apply findIndex_text_None in F. destruct (bool_decide _) eqn:B.
      * apply bool_decide_eq_true in B. apply Hl in B. contradiction.
      * right. exists (c :: rest). split; [reflexivity|]. split; [discriminate|].
        split; [exact F|]. rewrite map_app. reflexivity.
  - left. split; [reflexivity|]. intros txt H. discriminate.
Qed.

Lemma keeps_snoc (segments : list segment) (lastTexts : list (list N))
    (txt : list N) (l : list (list N)) :
  keeps segments lastTexts -> txt <> [] -> txt ∉ map text segments ->
  l = map text segments ++ [txt] ->
  NoDup l /\ Forall (fun x => x <> []) l /\ (forall x, x ∈ lastTexts -> x ∈ l).
Proof.
  intros (Hn & Hf & Hl) Hne Hnotin ->. split; [|split].
  - apply NoDup_app. split; [exact Hn|]. split.
    + intros x Hx Hx'. apply list_elem_of_singleton in Hx'. subst x. contradiction.
    + apply NoDup_singleton.
  - apply Forall_app. split; [exact Hf|]. constructor; [exact Hne|constructor].
  - intros x Hx. apply elem_of_app. left. apply Hl. exact Hx.
Qed.

Lemma onText_keeps (ts : Q) (lastTexts : list (list N)) (segments : list segment)
    (t p : option (list N)) :
  keeps segments lastTexts -> keeps (onText ts lastTexts segments t p) lastTexts.
Proof.
  intros Hk. pose proof Hk as (Hn & Hf & Hl).
  destruct (onText_texts ts lastTexts segments t p Hl) as [[E _]|(txt & _ & Hne & Hnotin & E)].
  - unfold keeps. rewrite E. exact Hk.
  - eapply keeps_snoc; eauto.
Qed.

Lemma onText_grows (ts : Q) (lastTexts : list (list N)) (segments : list segment)
    (t p : option (list N)) (x : list N) :
  keeps segments lastTexts ->
  x ∈ map text segments -> x ∈ map text (onText ts lastTexts segments t p).
Proof.
  intros (_ & _ & Hl) Hx.
  destruct (onText_texts ts lastTexts segments t p Hl) as [[E _]|(txt & _ & _ & _ & E)];
    rewrite E; [exact Hx|]. apply elem_of_app. left. exact Hx.
Qed.

Lemma onText_has (ts : Q) (lastTexts : list (list N)) (segments : list segment)
    (txt : list N) (p : option (list N)) :
  keeps segments lastTexts -> txt <> [] ->
  txt ∈ map text (onText ts lastTexts segments (Some txt) p).
Proof.
  intros (_ & _ & Hl) Hne.
  destruct (onText_texts ts lastTexts segments (Some txt) p Hl)
    as [[E H]|(txt' & [= <-] & _ & _ & E)]; rewrite E.
  - apply H; [reflexivity|exact Hne].
  - apply elem_of_app. right. apply list_elem_of_singleton. reflexivity.
Qed.

Lemma forEachText_keeps (ts : Q) (lastTexts : list (list N)) (texts : list element)
    (segments : list segment) :
  keeps segments lastTexts ->
  keeps (fst (forEachText ts lastTexts texts segments)) lastTexts.
Proof.
  revert segments. induction texts as [|[|t p] texts IH]; intros segments Hk;
    cbn [forEachText fst]; [exact Hk|exact Hk|].
  apply IH. apply onText_keeps. exact Hk.
Qed.

Lemma forEachText_grows (ts : Q) (lastTexts : list (list N)) (texts : list element)
    (segments : list segment) (x : list N) :
  keeps segments lastTexts ->
  x ∈ map text segments ->
  x ∈ map text (fst (forEachText ts lastTexts texts segments)).
Proof.
  revert segments. induction texts as [|[|t p] texts IH]; intros segments Hk Hx;
    cbn [forEachText fst]; [exact Hx|exact Hx|].
  apply IH; [apply onText_keeps; exact Hk|]. apply onText_grows; assumption.
Qed.

Lemma forEachText_has (ts : Q) (lastTexts : list (list N)) (texts : list element)
    (segments : list segment) (i : nat) (txt : list N) (p : option (list N)) :
  keeps segments lastTexts -> txt <> [] ->
  texts !! i = Some (EValue (Some txt) p) -> ENull ∉ take i texts ->
  txt ∈ map text (fst (forEachText ts lastTexts texts segments)).
Proof.
  revert segments i. induction texts as [|e texts IH]; intros segments i Hk Hne Hi Hnull;
    [discriminate|].
  destruct i as [|i].
  - simpl in Hi. injection Hi as ->. cbn [forEachText].
    apply forEachText_grows; [apply onText_keeps; exact Hk|].
    apply onText_has; assumption.
  - simpl in Hi, Hnull. destruct e as [|t' p'].
    + exfalso. apply Hnull. left.
    + cbn [forEachText]. apply (IH _ i); [apply onText_keeps; exact Hk|exact Hne|exact Hi|].
      intros H. apply Hnull. right. exact H.
Qed.

Lemma forEachText_completed (ts : Q) (lastTexts : list (list N)) (texts : list element)
    (segments : list segment) (x : list N) :
  keeps segments lastTexts ->
  snd (forEachText ts lastTexts texts segments) = true ->
  x ∈ truthyTexts texts ->
  x ∈ map text (fst (forEachText ts lastTexts texts segments)).
Proof.
  revert segments. induction texts as [|[|t p] texts IH]; intros segments Hk Hc Hx;
    cbn [forEachText fst snd] in *.
  - apply elem_of_nil in Hx. contradiction.
  - discriminate.
  - unfold truthyTexts in Hx. simpl in Hx.
    destruct t as [[|c rest]|]; try (apply IH; [apply onText_keeps; exact Hk|exact Hc|exact Hx]).
    apply elem_of_cons in Hx. destruct Hx as [->|Hx].
    + apply forEachText_grows; [apply onText_keeps; exact Hk|].
      apply onText_has; [exact Hk|discriminate].
    + apply IH; [apply onText_keeps; exact Hk|exact Hc|exact Hx].
Qed.

Lemma onFrame_keeps (st : list segment * list (list N)) (f : frame) :
  keeps (fst st) (snd st) -> keeps (fst (onFrame st f)) (snd (onFrame st f)).
Proof.
  intros Hk. unfold onFrame. destruct (result f) as [|texts]; [exact Hk|].
  pose proof (forEachText_keeps (timestamp f) (snd st) texts (fst st) Hk) as Hk'.
  pose proof (forEachText_completed (timestamp f) (snd st) texts (fst st)) as Hc.
  destruct (forEachText _ _ _ _) as [segments completed]. simpl in *.
  destruct completed; [|exact Hk'].
  destruct Hk' as (Hn & Hf & Hl). split; [exact Hn|]. split; [exact Hf|].
  intros x Hx. apply Hc; [exact Hk|reflexivity|exact Hx].
Qed.

Lemma onFrame_grows (st : list segment * list (list N)) (f : frame) (x : list N) :
  keeps (fst st) (snd st) ->
  x ∈ map text (fst st) -> x ∈ map text (fst (onFrame st f)).
Proof.
  intros Hk Hx. unfold onFrame. destruct (result f) as [|texts]; [exact Hx|].
  pose proof (forEachText_grows (timestamp f) (snd st) texts (fst st) x Hk Hx) as H.
  destruct (forEachText _ _ _ _) as [segments completed]. exact H.
Qed.

Lemma onFrame_has (st : list segment * list (list N)) (f : frame) (txt : list N) :
  keeps (fst st) (snd st) -> txt <> [] -> v1Reached txt f ->
  txt ∈ map text (fst (onFrame st f)).
Proof.
  intros Hk Hne (texts & i & p & Hr & Hi & Hnull). unfold onFrame. rewrite Hr.
  pose proof (forEachText_has (timestamp f) (snd st) texts (fst st) i txt p Hk Hne Hi Hnull) as H.
  destruct (forEachText _ _ _ _) as [segments completed]. exact H.
Qed.

Lemma fold_keeps (frames : list frame) (st : list segment * list (list N)) :
  keeps (fst st) (snd st) ->
  keeps (fst (fold_left onFrame frames st)) (snd (fold_left onFrame frames st)).
Proof.
  revert st. induction frames as [|f frames IH]; intros st Hk; simpl; [exact Hk|].
  apply IH. apply onFrame_keeps. exact Hk.
Qed.

Lemma fold_grows (frames : list frame) (st : list segment * list (list N)) (x : list N) :
  keeps (fst st) (snd st) ->
  x ∈ map text (fst st) -> x ∈ map text (fst (fold_left onFrame frames st)).
Proof.
  revert st. induction frames as [|f frames IH]; intros st Hk Hx; simpl; [exact Hx|].
  apply IH; [apply onFrame_keeps; exact Hk|]. apply onFrame_grows; assumption.
Qed.

Lemma fold_has (frames : list frame) (st : list segment * list (list N))
    (f : frame) (txt : list N) :
  keeps (fst st) (snd st) -> f ∈ frames -> txt <> [] -> v1Reached txt f ->
  txt ∈ map text (fst (fold_left onFrame frames st)).
Proof.
  revert st. induction frames as [|g frames IH]; intros st Hk Hin Hne Hr; simpl.
  - apply elem_of_nil in Hin. contradiction.
  - apply elem_of_cons in Hin. destruct Hin as [->|Hin].
    + apply fold_grows; [apply onFrame_keeps; exact Hk|]. apply onFrame_has; assumption.
    + apply IH; [apply onFrame_keeps; exact Hk|assumption..].
Qed.

Lemma keeps_initial : keeps [] [].
Proof.
  split; [constructor|]. split; [constructor|].
  intros x Hx. apply elem_of_nil in Hx. contradiction.
Qed.

(** *** Times *)

Lemma timed_later (a b : Q) (segments : list segment) :
  a <= b -> timed a segments -> timed b segments.
Proof.
  intros Hab Ht. eapply Forall_impl; [exact Ht|].
  intros s [H1 H2]. split; [lra|exact H2].
Qed.

Lemma onText_timed (ts : Q) (lastTexts : list (list N)) (segments : list segment)
    (t p : option (list N)) :
  timed ts segments -> timed ts (onText ts lastTexts segments t p).
Proof.
  intros Ht. unfold onText. destruct t as [[|c rest]|]; try exact Ht.
  destruct (findIndex _ segments) as [i|].
  - apply Forall_alter; [exact Ht|]. intros s _ [H1 H2]. simpl. split; [exact H1|lra].
  - destruct (bool_decide _); [exact Ht|].
    apply Forall_app. split; [exact Ht|]. constructor; [|constructor].
    simpl. split; lra.
Qed.

Lemma forEachText_timed (ts : Q) (lastTexts : list (list N)) (texts : list element)
    (segments : list segment) :
  timed ts segments -> timed ts (fst (forEachText ts lastTexts texts segments)).
Proof.
  revert segments. induction texts as [|[|t p] texts IH]; intros segments Ht;
    cbn [forEachText fst]; [exact Ht|exact Ht|].
  apply IH. apply onText_timed. exact Ht.
Qed.

Lemma onFrame_timed (st : list segment * list (list N)) (f : frame) :
  timed (timestamp f) (fst st) -> timed (timestamp f) (fst (onFrame st f)).
Proof.
  intros Ht. unfold onFrame. destruct (result f) as [|texts]; [exact Ht|].
  pose proof (forEachText_timed (timestamp f) (snd st) texts (fst st) Ht) as H.
  destruct (forEachText _ _ _ _) as [segments completed]. exact H.
Qed.

Lemma timestamp_le (f g : frame) :
  (frameNum f <= frameNum g)%Z -> timestamp f <= timestamp g.
Proof.
  intros H. unfold timestamp.
  assert (inject_Z (frameNum f - 1) <= inject_Z (frameNum g - 1)) by (rewrite <- Zle_Qle; lia).
  lra.
Qed.

Lemma fold_timed (frames : list frame) (st : list segment * list (list N)) :
  StronglySorted Z.le (map frameNum frames) ->
  (forall f, f ∈ frames -> timed (timestamp f) (fst st)) ->
  Forall (fun s => start s + 1 <= end_ s) (fst st) ->
  Forall (fun s => start s + 1 <= end_ s) (fst (fold_left onFrame frames st)).
Proof.
  revert st. induction frames as [|f frames IH]; intros st Hs Hb Hd; simpl; [exact Hd|].
  apply StronglySorted_inv in Hs. destruct Hs as [Hs Hall].
  assert (timed (timestamp f) (fst (onFrame st f))) as Ht.
  { apply onFrame_timed. apply Hb. left. }
  apply IH; [exact Hs| |].
  - intros g Hg. apply (timed_later (timestamp f)); [|exact Ht].
    apply timestamp_le. rewrite Forall_forall in Hall. apply Hall.
    apply list_elem_of_In, in_map, list_elem_of_In. exact Hg.
  - eapply Forall_impl; [exact Ht|]. intros s [_ H]. exact H.
Qed.

End V1Segments.


(** X13.  No text is lost: every text that is not empty and is reached in
    an analysed frame has a segment at the end.  In particular the test on
    [lastTexts] never keeps a text out. *)
Theorem v1_text_has_segment (frames : list V1.frame) (f : V1.frame) (txt : list N) :
  f ∈ frames -> txt <> [] -> v1Reached txt f ->
  exists s, s ∈ V1.analyze frames /\ V1.text s = txt.
Proof.
  intros Hin Hne Hr.
  pose proof (fold_has frames ([], []) f txt keeps_initial Hin Hne Hr) as H.
  apply list_elem_of_fmap in H. destruct H as (s & E & Hs). exists s. split; [exact Hs|].
  symmetry. exact E.
Qed.

Lemma v1_text_has_segment_witness :
  exists s, s ∈ V1.analyze v1Demo /\ V1.text s = ustr "NEW".
Proof.
  apply (v1_text_has_segment v1Demo
           (V1.mkFrame 7 (V1.Parsed [V1.EValue (Some (ustr "SALE")) None;
                                     V1.EValue (Some (ustr "NEW")) (Some (ustr "top"));
                                     V1.ENull]))).
  - right. right. left.
  - discriminate.
  - eexists _, 1%nat, _. split; [reflexivity|]. split; [reflexivity|].
    intros H. apply list_elem_of_singleton in H. discriminate H.
Defined.

(** X14.  When the analysed frames come in the order of their numbers,
    every segment of the first localizer lasts at least one second. *)
Theorem v1_segment_lasts_a_second (frames : list V1.frame) :
  v1InOrder frames ->
  Forall (fun s => (V1.start s + 1 <= V1.end_ s)%Q) (V1.analyze frames).
Proof.
  intros Hs. apply fold_timed.
  - apply Sorted_StronglySorted; [|exact Hs]. intros a b c. apply Z.le_trans.
  - intros f _. constructor.
  - constructor.
Qed.

Lemma v1_segment_lasts_a_second_witness :
  v1InOrder v1Demo /\
  Forall (fun s => (V1.start s + 1 <= V1.end_ s)%Q) (V1.analyze v1Demo).
Proof.
  assert (v1InOrder v1Demo) as H.
  { unfold v1InOrder, v1Demo. simpl. repeat constructor; lia. }
  split; [exact H|]. apply (v1_segment_lasts_a_second v1Demo H).
Defined.

(** ** The scene descriptors: a chain of scenes *)

Section SceneDescriptors.
Context {U : Unicode}.
Import Descriptor.
Local Open Scope Q_scope.

Lemma set_last_end_length (v : Q) (segments : list segment) :
  length (set_last_end v segments) = length segments.
Proof. unfold set_last_end. apply length_alter. Qed.

Lemma set_last_end_lookup (v : Q) (segments : list segment) (i : nat) (s : segment) :
  set_last_end v segments !! i = Some s ->
  exists s0, segments !! i = Some s0 /\ id s = id s0 /\ start s = start s0 /\
             (end_ s = end_ s0 \/ (S i = length segments /\ end_ s = v)).
Proof.
  unfold set_last_end. intros H.
  destruct (decide (i = (length segments - 1)%nat)) as [->|Hne].
  - rewrite list_lookup_alter, decide_True in H by reflexivity.
    destruct (segments !! (length segments - 1)%nat) as [s0|] eqn:E; [|discriminate].
    simpl in H. injection H as <-. exists s0. split; [reflexivity|].
    split; [reflexivity|]. split; [reflexivity|]. right. split; [|reflexivity].
    apply lookup_lt_Some in E. lia.
  - rewrite list_lookup_alter, decide_False in H
      by (intros E; apply Hne; symmetry; exact E).
    exists s. split; [exact H|]. split; [reflexivity|]. split; [reflexivity|].
    left. reflexivity.
Qed.

Lemma set_last_end_last (v : Q) (segments : list segment) (s : segment) :
  set_last_end v segments !! (length segments - 1)%nat = Some s -> end_ s = v.
Proof.
  unfold set_last_end. rewrite list_lookup_alter, decide_True by reflexivity.
  destruct (segments !! (length segments - 1)%nat) as [s0|]; [|discriminate].
  simpl. intros [= <-]. reflexivity.
Qed.

Lemma chained_set_last_end (v : Q) (segments : list segment) :
  chained segments -> chained (set_last_end v segments).
Proof.
  intros [Hid Hch]. split.
  - intros i s H. destruct (set_last_end_lookup _ _ _ _ H) as (s0 & H0 & E & _).
    rewrite E. apply Hid. exact H0.
  - intros i a b Ha Hb.
    destruct (set_last_end_lookup _ _ _ _ Ha) as (a0 & Ha0 & _ & _ & [Ea|[Ea _]]).
    + destruct (set_last_end_lookup _ _ _ _ Hb) as (b0 & Hb0 & _ & Eb & _).
      rewrite Ea, Eb. eapply Hch; eassumption.
    + apply lookup_lt_Some in Hb. rewrite set_last_end_length in Hb. lia.
Qed.

Lemma chained_snoc (segments : list segment) (s : segment) :
  chained segments -> id s = length segments ->
  (forall l, segments !! (length segments - 1)%nat = Some l -> end_ l = start s) ->
  chained (segments ++ [s]).
Proof.
  intros [Hid Hch] Hs Hl. split.
  - intros i x H. destruct (Nat.lt_ge_cases i (length segments)) as [Hlt|Hge].
    + rewrite lookup_app_l in H by exact Hlt. apply Hid. exact H.
    + rewrite lookup_app_r in H by exact Hge.
      destruct (i - length segments)%nat as [|k] eqn:E; [|destruct k; discriminate].
      simpl in H. injection H as <-. lia.
  - intros i a b Ha Hb.
    destruct (Nat.lt_ge_cases (S i) (length segments)) as [Hlt|Hge].
    + rewrite lookup_app_l in Ha by lia. rewrite lookup_app_l in Hb by lia.
      eapply Hch; eassumption.
    + assert (S i = length segments) as Hi.
      { apply lookup_lt_Some in Hb. rewrite length_app in Hb. simpl in Hb. lia. }
      rewrite lookup_app_l in Ha by lia. rewrite lookup_app_r in Hb by lia.
      replace (S i - length segments)%nat with 0%nat in Hb by lia.
      simpl in Hb. injection Hb as <-. apply Hl.
      replace (length segments - 1)%nat with i by lia. exact Ha.
Qed.

Lemma sceneStep_chained (jobId : list N) (ts : Q) (sf : sceneFrame)
    (segments : list segment) :
  chained segments -> chained (sceneStep jobId ts sf segments).
Proof.
  intros Hc. unfold sceneStep.
  destruct (isNewScene sf || (length segments =? 0)%nat || _).
  - apply chained_snoc.
    + apply chained_set_last_end. exact Hc.
    + simpl. symmetry. apply set_last_end_length.
    + intros l Hl. rewrite set_last_end_length in Hl.
      apply set_last_end_last in Hl. exact Hl.
  - apply chained_set_last_end. exact Hc.
Qed.

Lemma onFrame_chained (jobId : list N) (st : list Builder.textEntry * list segment)
    (sf : sceneFrame) :
  chained (snd st) -> chained (snd (onFrame jobId st sf)).
Proof.
  intros Hc. unfold onFrame. destruct (Builder.result (frame sf)) as [|raw tp]; [exact Hc|].
  destruct (Builder.forEachText _ _ _ _) as [texts' [|]]; [|exact Hc].
  destruct (Builder.currentTextsNormalized raw); [|exact Hc].
  simpl. apply sceneStep_chained. exact Hc.
Qed.

Lemma fold_chained (jobId : list N) (frames : list sceneFrame)
    (st : list Builder.textEntry * list segment) :
  chained (snd st) -> chained (snd (fold_left (onFrame jobId) frames st)).
Proof.
  revert st. induction frames as [|sf frames IH]; intros st Hc; simpl; [exact Hc|].
  apply IH. apply onFrame_chained. exact Hc.
Qed.

Lemma chained_nil : chained [].
Proof. split; intros i; intros; discriminate. Qed.

(** The text part of the loop is the loop of the segment builder. *)
Lemma fold_texts (jobId : list N) (frames : list sceneFrame)
    (st : list Builder.textEntry * list segment) :
  fst (fold_left (onFrame jobId) frames st) =
  fold_left Builder.onFrame (map frame frames) (fst st).
Proof.
  revert st. induction frames as [|sf frames IH]; intros st; simpl; [reflexivity|].
  rewrite IH. f_equal. unfold onFrame, Builder.onFrame.
  destruct (Builder.result (frame sf)) as [|raw tp]; [reflexivity|].
  destruct (Builder.forEachText _ _ _ _) as [texts' [|]]; [|reflexivity].
  destruct (Builder.currentTextsNormalized raw); reflexivity.
Qed.

(** *** Times *)

Lemma begun_later (a b : Q) (segments : list segment) :
  a <= b -> begun a segments -> begun b segments.
Proof.
  intros Hab Hb. eapply Forall_impl; [exact Hb|].
  intros s [H1 H2]. split; [lra|exact H2].
Qed.

Lemma begun_set_last_end (now v : Q) (segments : list segment) :
  now < v -> begun now segments -> begun now (set_last_end v segments).
Proof.
  intros Hv Hb. unfold set_last_end. apply Forall_alter; [exact Hb|].
  intros s _ [H1 H2]. simpl. split; [exact H1|lra].
Qed.

Lemma sceneStep_begun (jobId : list N) (now ts : Q) (sf : sceneFrame)
    (segments : list segment) :
  now < ts -> begun now segments -> begun ts (sceneStep jobId ts sf segments).
Proof.
  intros Hlt Hb. unfold sceneStep, Builder.frameInterval.
  destruct (isNewScene sf || (length segments =? 0)%nat || _).
  - apply Forall_app. split.
    + apply (begun_later now); [lra|]. apply begun_set_last_end; assumption.
    + constructor; [|constructor]. simpl. split; lra.
  - apply (begun_later now); [lra|]. apply begun_set_last_end; [lra|exact Hb].
Qed.

Lemma onFrame_begun (jobId : list N) (now : Q)
    (st : list Builder.textEntry * list segment) (sf : sceneFrame) :
  now < Builder.timestamp (frame sf) -> begun now (snd st) ->
  begun (Builder.timestamp (frame sf)) (snd (onFrame jobId st sf)).
Proof.
  intros Hlt Hb. pose proof (begun_later _ _ _ (Qlt_le_weak _ _ Hlt) Hb) as Hb'.
  unfold onFrame. destruct (Builder.result (frame sf)) as [|raw tp]; [exact Hb'|].
  destruct (Builder.forEachText _ _ _ _) as [texts' [|]]; [|exact Hb'].
  destruct (Builder.currentTextsNormalized raw); [|exact Hb'].
  simpl. apply (sceneStep_begun jobId now); assumption.
Qed.

Lemma timestamp_lt (f g : Builder.frame) :
  (Builder.frameNum f < Builder.frameNum g)%Z -> Builder.timestamp f < Builder.timestamp g.
Proof.
  intros H. unfold Builder.timestamp.
  assert (inject_Z (Builder.frameNum f - 1) < inject_Z (Builder.frameNum g - 1))
    by (rewrite <- Zlt_Qlt; lia).
  lra.
Qed.

(** After the loop every scene began no later than [final], a time that
    no frame exceeds. *)
Lemma fold_begun (jobId : list N) (frames : list sceneFrame) (now final : Q)
    (st : list Builder.textEntry * list segment) :
  StronglySorted Z.lt (map (fun sf => Builder.frameNum (frame sf)) frames) ->
  (forall sf, sf ∈ frames ->
     now < Builder.timestamp (frame sf) /\ Builder.timestamp (frame sf) <= final) ->
  now <= final -> begun now (snd st) ->
  begun final (snd (fold_left (onFrame jobId) frames st)).
Proof.
  revert now st. induction frames as [|sf frames IH]; intros now st Hs Hall Hnf Hb.
  - apply (begun_later now); assumption.
  - apply StronglySorted_inv in Hs. destruct Hs as [Hs Hlt].
    destruct (Hall sf ltac:(left)) as [H1 H2].
    cbn [fold_left]. apply (IH (Builder.timestamp (frame sf))); [exact Hs| |exact H2|].
    + intros g Hg. split; [|apply Hall; right; exact Hg].
      apply timestamp_lt. rewrite Forall_forall in Hlt.
      apply (Hlt (Builder.frameNum (frame g))).
      apply list_elem_of_fmap. exists g. split; [reflexivity|exact Hg].
    + apply (onFrame_begun jobId now); assumption.
Qed.

(** In a list with increasing numbers the first frame is the earliest and
    the last one the latest. *)
Lemma ascending_ends (sf : sceneFrame) (frames : list sceneFrame) (lastF g : sceneFrame) :
  StronglySorted Z.lt (map (fun sf => Builder.frameNum (frame sf)) (sf :: frames)) ->
  last (sf :: frames) = Some lastF -> g ∈ sf :: frames ->
  (Builder.frameNum (frame sf) <= Builder.frameNum (frame g) <=
   Builder.frameNum (frame lastF))%Z.
Proof.
  revert sf g. induction frames as [|sf' frames IH]; intros sf g Hs Hl Hg.
  - simpl in Hl. injection Hl as <-. apply list_elem_of_singleton in Hg. subst g. lia.
  - cbn [map] in Hs. apply StronglySorted_inv in Hs. destruct Hs as [Hs Hlt].
    change (last (sf :: sf' :: frames)) with (last (sf' :: frames)) in Hl.
    rewrite Forall_forall in Hlt.
    assert (forall x, x ∈ sf' :: frames ->
              (Builder.frameNum (frame sf) < Builder.frameNum (frame x))%Z) as Hlt'.
    { intros x Hx. apply Hlt. change (Builder.frameNum (frame x) ∈
        map (fun sf => Builder.frameNum (frame sf)) (sf' :: frames)).
      apply list_elem_of_fmap. exists x. split; [reflexivity|exact Hx]. }
    pose proof (IH sf' lastF Hs Hl ltac:(apply list_elem_of_lookup_2 with (length frames);
      rewrite <- Hl, last_lookup; reflexivity)) as Hlast.
    apply elem_of_cons in Hg. destruct Hg as [->|Hg].
    + specialize (Hlt' sf' ltac:(left)). lia.
    + specialize (IH sf' g Hs Hl Hg). specialize (Hlt' g Hg). lia.
Qed.

Lemma finish_positive (frames : list sceneFrame) (segments : list segment) (final : Q) :
  (forall lastF, last frames = Some lastF -> final <= Builder.timestamp (frame lastF)) ->
  begun final segments ->
  Forall (fun s => start s < end_ s) (finish frames segments).
Proof.
  intros Hf Hb. unfold finish. destruct (last frames) as [lastF|].
  - specialize (Hf lastF eq_refl). unfold set_last_end. apply Forall_alter.
    + eapply Forall_impl; [exact Hb|]. intros s [_ H]. exact H.
    + intros s Hs _. unfold begun in Hb. rewrite Forall_forall in Hb.
      destruct (Hb s (list_elem_of_lookup_2 _ _ _ Hs)) as [H1 _].
      simpl. unfold Builder.timestamp in Hf. lra.
  - eapply Forall_impl; [exact Hb|]. intros s [_ H]. exact H.
Qed.

End SceneDescriptors.

(** X15.  The scenes of the analyze response form a chain, whatever the
    frames gave: the scene at index [i] has [id] [i], and every scene
    begins exactly where the one before it ends. *)
Theorem scene_descriptors_chained {U : Unicode} (jobId : list N)
    (frames : list Descriptor.sceneFrame) :
  (forall i s, Descriptor.scenes jobId frames !! i = Some s -> Descriptor.id s = i) /\
  (forall i a b, Descriptor.scenes jobId frames !! i = Some a ->
                 Descriptor.scenes jobId frames !! S i = Some b ->
                 Descriptor.end_ a = Descriptor.start b).
Proof.
  unfold Descriptor.scenes, Descriptor.finish.
  pose proof (fold_chained jobId frames ([], []) chained_nil) as Hc.
  destruct (last frames); [apply chained_set_last_end|]; exact Hc.
Qed.

(** X16.  When the frames come with strictly increasing numbers, every
    scene of the analyze response ends after it begins. *)
Theorem scene_descriptors_positive {U : Unicode} (jobId : list N)
    (frames : list Descriptor.sceneFrame) :
  sceneFramesAscend frames ->
  Forall (fun s => (Descriptor.start s < Descriptor.end_ s)%Q)
         (Descriptor.scenes jobId frames).
Proof.
  intros Hs. unfold Descriptor.scenes.
  destruct frames as [|sf frames]; [constructor|].
  apply Sorted_StronglySorted in Hs; [|intros a b c; apply Z.lt_trans].
  assert (is_Some (last (sf :: frames))) as [lastF Hl].
  { rewrite last_is_Some. discriminate. }
  apply (finish_positive _ _ (Builder.timestamp (Descriptor.frame lastF))).
  { intros l' Hl'. rewrite Hl in Hl'. injection Hl' as <-. lra. }
  assert (forall g, g ∈ sf :: frames ->
            (Builder.timestamp (Descriptor.frame sf) - 1 <
               Builder.timestamp (Descriptor.frame g) /\
             Builder.timestamp (Descriptor.frame g) <=
               Builder.timestamp (Descriptor.frame lastF))%Q) as Hall.
  { intros g Hg. pose proof (ascending_ends sf frames lastF g Hs Hl Hg) as Hb.
    unfold Builder.timestamp.
    assert (inject_Z (Builder.frameNum (Descriptor.frame sf) - 1) <=
            inject_Z (Builder.frameNum (Descriptor.frame g) - 1))%Q
      by (rewrite <- Zle_Qle; lia).
    assert (inject_Z (Builder.frameNum (Descriptor.frame g) - 1) <=
            inject_Z (Builder.frameNum (Descriptor.frame lastF) - 1))%Q
      by (rewrite <- Zle_Qle; lia).
    split; lra. }
  apply (fold_begun jobId (sf :: frames)
           (Builder.timestamp (Descriptor.frame sf) - 1)%Q); [exact Hs|exact Hall| |constructor].
  destruct (Hall sf ltac:(left)) as [H1 H2]. lra.
Qed.

Lemma scene_descriptors_positive_witness :
  sceneFramesAscend descriptorDemo /\
  Forall (fun s => (Descriptor.start s < Descriptor.end_ s)%Q)
         (@Descriptor.scenes asciiTables (ustr "analyze-1") descriptorDemo).
Proof.
  assert (sceneFramesAscend descriptorDemo) as H.
  { unfold sceneFramesAscend, descriptorDemo. simpl. repeat constructor; lia. }
  split; [exact H|].
  apply (@scene_descriptors_positive asciiTables (ustr "analyze-1") descriptorDemo H).
Defined.
